(** * A shallow embedding of the chess rules engine of [chess.js]

    The JavaScript program keeps an 8x8 array of strings ([gameBoard]), the
    side to move ([currentPlayer]) and the selected square ([selected]); its
    rules live in [isLegalMove], [isSquareAttacked], [isInCheck],
    [hasAnyLegalMoves], [getPossibleMoves] and [handleSquareClick].

    Conventions of the embedding:
    - a cell is a [string]: [""] is the empty square, ["P"], ["k"], ... are
      pieces (upper case is White, lower case is Black).  The strings of the
      embedding stand for JavaScript strings of ASCII characters, which is
      what [gameBoard] holds; on other characters JavaScript changes case by
      the Unicode tables, which the embedding does not carry;
    - row and column indices are integers ([Z]), because the code computes
      [fromRow - 1] and steps with [-1];
    - [board[r][c]] throws a [TypeError] when [board[r]] is [undefined] and
      yields [undefined] when only the column is missing.  Every use of a
      cell value in the program is a truthiness test, a strict comparison with
      a piece letter, or is guarded by a truthiness test, so [undefined] is
      represented by the (equally falsy) empty string;
    - [while] loops carry an iteration budget; [OutOfFuel] is the only
      outcome that does not exist in JavaScript and is shown not to occur. *)

From Stdlib Require Import ZArith String Ascii Bool Lia List Sorted.
Import ListNotations.

Open Scope string_scope.
Open Scope list_scope.
Open Scope Z_scope.

(* ================================================================== *)
(** ** Outcomes of a JavaScript computation *)

Inductive outcome (A : Type) : Type :=
| Ret (a : A)
| TypeError
| OutOfFuel.

Arguments Ret {A} a.
Arguments TypeError {A}.
Arguments OutOfFuel {A}.

Definition bind {A B : Type} (m : outcome A) (k : A -> outcome B) : outcome B :=
  match m with
  | Ret a => k a
  | TypeError => TypeError
  | OutOfFuel => OutOfFuel
  end.

Notation "x <- m ;; k" := (bind m (fun x => k))
  (at level 61, m at next level, right associativity).

(* ================================================================== *)
(** ** Data model *)

Definition square : Type := (Z * Z)%type.
Definition board : Type := list (list string).

Inductive color : Type := white | black.

(** [color === 'white' ? 'black' : 'white'] *)
Definition opponentOf (c : color) : color :=
  match c with white => black | black => white end.

Definition color_eqb (a b : color) : bool :=
  match a, b with
  | white, white | black, black => true
  | _, _ => false
  end.

(** The initial value of [gameBoard] (lines 9-18). *)
Definition initialBoard : board :=
  [ ["r";"n";"b";"q";"k";"b";"n";"r"];
    ["p";"p";"p";"p";"p";"p";"p";"p"];
    ["";"";"";"";"";"";"";""];
    ["";"";"";"";"";"";"";""];
    ["";"";"";"";"";"";"";""];
    ["";"";"";"";"";"";"";""];
    ["P";"P";"P";"P";"P";"P";"P";"P"];
    ["R";"N";"B";"Q";"K";"B";"N";"R"] ].

(** JavaScript truthiness of a string. *)
Definition truthy (s : string) : bool :=
  match s with EmptyString => false | String _ _ => true end.

Definition upperAscii (a : ascii) : ascii :=
  let n := N_of_ascii a in
  if ((97 <=? n) && (n <=? 122))%N then ascii_of_N (n - 32) else a.

Definition lowerAscii (a : ascii) : ascii :=
  let n := N_of_ascii a in
  if ((65 <=? n) && (n <=? 90))%N then ascii_of_N (n + 32) else a.

Fixpoint mapString (f : ascii -> ascii) (s : string) : string :=
  match s with
  | EmptyString => EmptyString
  | String a t => String (f a) (mapString f t)
  end.

(** [String.prototype.toUpperCase] / [toLowerCase] on strings of ASCII
    characters (codes below 128, see [asciiString]): there JavaScript maps
    the 26 letters and leaves every other character as it is.  Outside ASCII
    the two functions follow the Unicode case mapping -- the Kelvin sign
    U+212A lower-cases to ["k"], the long s U+017F upper-cases to ["S"] --
    and these definitions do not describe them. *)
Definition toUpperCase (s : string) : string := mapString upperAscii s.
Definition toLowerCase (s : string) : string := mapString lowerAscii s.

(** [isWhite] (lines 23-25): [piece && piece === piece.toUpperCase()]. *)
Definition isWhite (piece : string) : bool :=
  truthy piece && (piece =? toUpperCase piece)%string.

(** [isBlack] (lines 27-29): [piece && piece === piece.toLowerCase()]. *)
Definition isBlack (piece : string) : bool :=
  truthy piece && (piece =? toLowerCase piece)%string.

(** The test
    [(color === 'white' && isWhite(p)) || (color === 'black' && isBlack(p))]
    that occurs in every caller. *)
Definition isColor (c : color) (piece : string) : bool :=
  (color_eqb c white && isWhite piece) || (color_eqb c black && isBlack piece).

(** [board[r][c]]. *)
Definition boardGet (b : board) (r c : Z) : outcome string :=
  if r <? 0 then TypeError
  else match nth_error b (Z.to_nat r) with
       | None => TypeError
       | Some rw =>
           if c <? 0 then Ret ""
           else match nth_error rw (Z.to_nat c) with
                | Some s => Ret s
                | None => Ret ""
                end
       end.

(** Element [c] of a row after the assignment [rw[c] = v].  An index past the
    end grows the array (the holes read as [undefined]); a negative index is
    stored as a property beside the elements, which are left as they are. *)
Fixpoint rowSet (rw : list string) (c : nat) (v : string) : list string :=
  match c, rw with
  | O, [] => [v]
  | O, _ :: t => v :: t
  | S c', [] => "" :: rowSet [] c' v
  | S c', x :: t => x :: rowSet t c' v
  end.

Fixpoint rowsSet (b : board) (r : nat) (c : Z) (v : string) : outcome board :=
  match r, b with
  | _, [] => TypeError
  | O, rw :: t => Ret ((if c <? 0 then rw else rowSet rw (Z.to_nat c) v) :: t)
  | S r', rw :: t => t' <- rowsSet t r' c v ;; Ret (rw :: t')
  end.

(** [b[r][c] = v] on a board [b] private to the caller. *)
Definition boardSet (b : board) (r c : Z) (v : string) : outcome board :=
  if r <? 0 then TypeError else rowsSet b (Z.to_nat r) c v.

(** The three statements
    [newBoard = board.map(row => row.slice()); newBoard[to] = piece;
     newBoard[from] = ''] (lines 79-81, 109-111, 312-314).  The copy is a
    fresh value, so the original board is untouched. *)
Definition simulateMove (b : board) (from to : square) (piece : string)
  : outcome board :=
  b1 <- boardSet b (fst to) (snd to) piece ;;
  boardSet b1 (fst from) (snd from) "".

(* ================================================================== *)
(** ** The move legality evaluator, with the squares it indexes *)

(** A run of [isLegalMove]: the squares it indexed, in order, and how it
    ended. *)
Record run (A : Type) : Type := mkRun { reads : list square; result : outcome A }.

Arguments mkRun {A} reads result.
Arguments reads {A} r.
Arguments result {A} r.

Definition tret {A : Type} (a : A) : run A := mkRun [] (Ret a).

Definition tbind {A B : Type} (m : run A) (k : A -> run B) : run B :=
  match result m with
  | Ret a => mkRun (reads m ++ reads (k a)) (result (k a))
  | TypeError => mkRun (reads m) TypeError
  | OutOfFuel => mkRun (reads m) OutOfFuel
  end.

Notation "x <~ m ;; k" := (tbind m (fun x => k))
  (at level 61, m at next level, right associativity).

(** Evaluating [board[r][c]] inside [isLegalMove]. *)
Definition readCell (b : board) (r c : Z) : run string :=
  mkRun [(r, c)] (boardGet b r c).

(** A block of the shape [if (...) { ... return v; }]: [Some v] when the
    block returns [v], [None] when control falls through to the next one. *)
Definition orElse (blk : run (option bool)) (next : run bool) : run bool :=
  o <~ blk ;; match o with Some v => tret v | None => next end.

(** The loop of lines 228-232 (and 259-263):
    [while (r !== toRow || c !== toCol) { if (board[r][c]) return false;
     r += rowStep; c += colStep; }  return true]. *)
Fixpoint rookLoop (fuel : nat) (b : board) (toRow toCol rowStep colStep r c : Z)
  : run bool :=
  match fuel with
  | O => mkRun [] OutOfFuel
  | S fuel' =>
      if negb (r =? toRow) || negb (c =? toCol) then
        x <~ readCell b r c ;;
        if truthy x then tret false
        else rookLoop fuel' b toRow toCol rowStep colStep (r + rowStep) (c + colStep)
      else tret true
  end.

(** The loop of lines 243-247 (and 271-275): as above with
    [while (r !== toRow && c !== toCol)]. *)
Fixpoint bishopLoop (fuel : nat) (b : board) (toRow toCol rowStep colStep r c : Z)
  : run bool :=
  match fuel with
  | O => mkRun [] OutOfFuel
  | S fuel' =>
      if negb (r =? toRow) && negb (c =? toCol) then
        x <~ readCell b r c ;;
        if truthy x then tret false
        else bishopLoop fuel' b toRow toCol rowStep colStep (r + rowStep) (c + colStep)
      else tret true
  end.

(** Iteration budget of the two loops: more than the rows of the board plus
    the distance between the two squares. *)
Definition loopFuel (b : board) (from to : square) : nat :=
  S (length b + Z.to_nat (Z.abs (fst to - fst from) + Z.abs (snd to - snd from))).

(** Lines 196-208, the block [if (piece === 'P') { ... }]. *)
Definition whitePawn (b : board) (from to : square) (piece target : string)
  (ignorePawnCapture : bool) : run (option bool) :=
  let '(fromRow, fromCol) := from in
  let '(toRow, toCol) := to in
  if (piece =? "P")%string then
    o <~ (if (fromCol =? toCol) && negb (truthy target) then
            if toRow =? fromRow - 1 then tret (Some true)
            else if (fromRow =? 6) && (toRow =? 4) then
                   x <~ readCell b 5 fromCol ;;
                   if negb (truthy x) then tret (Some true) else tret None
                 else tret None
          else tret None) ;;
    match o with
    | Some v => tret (Some v)
    | None =>
        if (Z.abs (toCol - fromCol) =? 1) && (toRow =? fromRow - 1)
           && truthy target && isBlack target
        then tret (Some true)
        else if ignorePawnCapture && (Z.abs (toCol - fromCol) =? 1)
                && (toRow =? fromRow - 1)
             then tret (Some true)
             else tret None
    end
  else tret None.

(** Lines 209-220, the block [if (piece === 'p') { ... }]. *)
Definition blackPawn (b : board) (from to : square) (piece target : string)
  (ignorePawnCapture : bool) : run (option bool) :=
  let '(fromRow, fromCol) := from in
  let '(toRow, toCol) := to in
  if (piece =? "p")%string then
    o <~ (if (fromCol =? toCol) && negb (truthy target) then
            if toRow =? fromRow + 1 then tret (Some true)
            else if (fromRow =? 1) && (toRow =? 3) then
                   x <~ readCell b 2 fromCol ;;
                   if negb (truthy x) then tret (Some true) else tret None
                 else tret None
          else tret None) ;;
    match o with
    | Some v => tret (Some v)
    | None =>
        if (Z.abs (toCol - fromCol) =? 1) && (toRow =? fromRow + 1)
           && truthy target && isWhite target
        then tret (Some true)
        else if ignorePawnCapture && (Z.abs (toCol - fromCol) =? 1)
                && (toRow =? fromRow + 1)
             then tret (Some true)
             else tret None
    end
  else tret None.

(** Lines 224-234 (rook) and 255-265 (queen, "Rook-like"): the same text. *)
Definition rookLike (b : board) (from to : square) : run (option bool) :=
  let '(fromRow, fromCol) := from in
  let '(toRow, toCol) := to in
  if (fromRow =? toRow) || (fromCol =? toCol) then
    let rowStep := if fromRow =? toRow then 0 else if toRow >? fromRow then 1 else -1 in
    let colStep := if fromCol =? toCol then 0 else if toCol >? fromCol then 1 else -1 in
    v <~ rookLoop (loopFuel b from to) b toRow toCol rowStep colStep
           (fromRow + rowStep) (fromCol + colStep) ;;
    tret (Some v)
  else tret None.

(** Lines 239-249 (bishop) and 267-277 (queen, "Bishop-like"): the same text. *)
Definition bishopLike (b : board) (from to : square) : run (option bool) :=
  let '(fromRow, fromCol) := from in
  let '(toRow, toCol) := to in
  if Z.abs (fromRow - toRow) =? Z.abs (fromCol - toCol) then
    let rowStep := if toRow >? fromRow then 1 else -1 in
    let colStep := if toCol >? fromCol then 1 else -1 in
    v <~ bishopLoop (loopFuel b from to) b toRow toCol rowStep colStep
           (fromRow + rowStep) (fromCol + colStep) ;;
    tret (Some v)
  else tret None.

(** Lines 281-288. *)
Definition knightJump (from to : square) : bool :=
  let '(fromRow, fromCol) := from in
  let '(toRow, toCol) := to in
  ((Z.abs (fromRow - toRow) =? 2) && (Z.abs (fromCol - toCol) =? 1))
  || ((Z.abs (fromRow - toRow) =? 1) && (Z.abs (fromCol - toCol) =? 2)).

(** Lines 291-295. *)
Definition kingStep (from to : square) : bool :=
  let '(fromRow, fromCol) := from in
  let '(toRow, toCol) := to in
  (Z.abs (fromRow - toRow) <=? 1) && (Z.abs (fromCol - toCol) <=? 1).

(** [isLegalMove(from, to, piece, board = gameBoard, ignorePawnCapture = false)]
    (lines 190-298). *)
Definition isLegalMove (from to : square) (piece : string) (b : board)
  (ignorePawnCapture : bool) : run bool :=
  target <~ readCell b (fst to) (snd to) ;;
  orElse (whitePawn b from to piece target ignorePawnCapture)
  (orElse (blackPawn b from to piece target ignorePawnCapture)
  (orElse (if (toLowerCase piece =? "r")%string then rookLike b from to else tret None)
  (orElse (if (toLowerCase piece =? "b")%string then bishopLike b from to else tret None)
  (orElse (if (toLowerCase piece =? "q")%string
           then o <~ rookLike b from to ;;
                match o with
                | Some v => tret (Some v)
                | None => bishopLike b from to
                end
           else tret None)
  (orElse (if (toLowerCase piece =? "n")%string && knightJump from to
           then tret (Some true) else tret None)
  (orElse (if (toLowerCase piece =? "k")%string && kingStep from to
           then tret (Some true) else tret None)
  (tret false))))))).

(* ================================================================== *)
(** ** Scans of the board and the functions built on them *)

(** [for (let i = 0; i < 8; i++)]: the values taken by the loop variable. *)
Definition idx8 : list Z := [0; 1; 2; 3; 4; 5; 6; 7].

(** A [for] loop whose body may [return]: [Some a] leaves the enclosing
    function with [a], [None] goes on with the next iteration ([continue] or
    the end of the body). *)
Fixpoint forEach {A : Type} (l : list Z) (body : Z -> outcome (option A))
  : outcome (option A) :=
  match l with
  | [] => Ret None
  | i :: l' =>
      o <- body i ;;
      match o with
      | Some a => Ret (Some a)
      | None => forEach l' body
      end
  end.

(** A [for] loop whose body pushes squares on [moves]: the squares pushed,
    in order. *)
Fixpoint forPush (l : list Z) (body : Z -> outcome (list square))
  : outcome (list square) :=
  match l with
  | [] => Ret []
  | i :: l' => xs <- body i ;; ys <- forPush l' body ;; Ret (xs ++ ys)
  end.

(** [findKing] (lines 31-41); [None] is JavaScript's [null]. *)
Definition findKing (b : board) (c : color) : outcome (option square) :=
  let king := match c with white => "K" | black => "k" end in
  forEach idx8 (fun row =>
    forEach idx8 (fun col =>
      x <- boardGet b row col ;;
      if (x =? king)%string then Ret (Some (row, col)) else Ret None)).

(** [isSquareAttacked] (lines 43-57). *)
Definition isSquareAttacked (b : board) (row col : Z) (byColor : color)
  : outcome bool :=
  o <- forEach idx8 (fun r =>
         forEach idx8 (fun c =>
           piece <- boardGet b r c ;;
           if negb (truthy piece) then Ret None
           else if isColor byColor piece then
                  ok <- result (isLegalMove (r, c) (row, col) piece b true) ;;
                  if ok then Ret (Some true) else Ret None
                else Ret None)) ;;
  Ret (match o with Some v => v | None => false end).

(** [isInCheck] (lines 59-64). *)
Definition isInCheck (b : board) (c : color) : outcome bool :=
  kingPos <- findKing b c ;;
  match kingPos with
  | None => Ret false
  | Some (kr, kc) => isSquareAttacked b kr kc (opponentOf c)
  end.

(** The body of the two inner loops of [hasAnyLegalMoves] (lines 74-85) for
    one destination. *)
Definition tryDestination (b : board) (c : color) (from : square) (piece : string)
  (toRow toCol : Z) : outcome (option bool) :=
  if (fst from =? toRow) && (snd from =? toCol) then Ret None
  else
    target <- boardGet b toRow toCol ;;
    if truthy target && isColor c target then Ret None
    else
      ok <- result (isLegalMove from (toRow, toCol) piece b false) ;;
      if ok then
        newBoard <- simulateMove b from (toRow, toCol) piece ;;
        chk <- isInCheck newBoard c ;;
        if negb chk then Ret (Some true) else Ret None
      else Ret None.

(** The body of the two outer loops of [hasAnyLegalMoves] (lines 69-88) for
    one origin. *)
Definition anyMoveFrom (b : board) (c : color) (fromRow fromCol : Z)
  : outcome (option bool) :=
  piece <- boardGet b fromRow fromCol ;;
  if negb (truthy piece) then Ret None
  else if isColor c piece then
         forEach idx8 (fun toRow =>
           forEach idx8 (fun toCol =>
             tryDestination b c (fromRow, fromCol) piece toRow toCol))
       else Ret None.

(** [hasAnyLegalMoves] (lines 66-92). *)
Definition hasAnyLegalMoves (b : board) (c : color) : outcome bool :=
  o <- forEach idx8 (fun fromRow =>
         forEach idx8 (fun fromCol => anyMoveFrom b c fromRow fromCol)) ;;
  Ret (match o with Some v => v | None => false end).

(* ================================================================== *)
(** ** The game: the three variables the click handler assigns *)

Record game : Type := mkGame
  { gameBoard : board;
    currentPlayer : color;
    selected : option square }.

(** The body of the two loops of [getPossibleMoves] (lines 102-115) for one
    destination: the squares it pushes on [moves]. *)
Definition pushDestination (g : game) (row col : Z) (piece : string)
  (toRow toCol : Z) : outcome (list square) :=
  if (row =? toRow) && (col =? toCol) then Ret []
  else
    target <- boardGet (gameBoard g) toRow toCol ;;
    if truthy target && isColor (currentPlayer g) target then Ret []
    else
      ok <- result (isLegalMove (row, col) (toRow, toCol) piece (gameBoard g) false) ;;
      if ok then
        newBoard <- simulateMove (gameBoard g) (row, col) (toRow, toCol) piece ;;
        chk <- isInCheck newBoard (currentPlayer g) ;;
        if negb chk then Ret [(toRow, toCol)] else Ret []
      else Ret [].

(** [getPossibleMoves] (lines 95-119); it reads [gameBoard] and
    [currentPlayer]. *)
Definition getPossibleMoves (g : game) (row col : Z) : outcome (list square) :=
  piece <- boardGet (gameBoard g) row col ;;
  if negb (truthy piece) then Ret []
  else
    forPush idx8 (fun toRow =>
      forPush idx8 (fun toCol => pushDestination g row col piece toRow toCol)).

(** The test of line 308 on the clicked square:
    [!piece || (currentPlayer === 'white' && isBlack(piece))
            || (currentPlayer === 'black' && isWhite(piece))]. *)
Definition mayLandOn (cp : color) (piece : string) : bool :=
  negb (truthy piece)
  || (color_eqb cp white && isBlack piece)
  || (color_eqb cp black && isWhite piece).

(** The dialogs of [handleSquareClick]: [alert("You can't move into check!")]
    (line 328), opened at once, and the checkmate dialog (line 322), which
    [setTimeout] opens 100 ms later. *)
Inductive alert : Type :=
| CantMoveIntoCheck
| CheckmateAlert.

(** The colour named by the checkmate dialog: its text
    [`Checkmate! ${currentPlayer...} wins!`] is built by the timer's callback,
    from the value [currentPlayer] has when the timer fires, that is in the
    game as it stands after the handler has returned. *)
Definition checkmateAlertNames (g : game) : color := currentPlayer g.

(** [handleSquareClick] (lines 300-340): the game after the click and the
    dialogs it opened or scheduled.  [renderBoard] only rebuilds the page from
    the three variables and assigns none of them, so it is left out. *)
Definition handleSquareClick (g : game) (row col : Z)
  : outcome (game * list alert) :=
  let cp := currentPlayer g in
  let deselected := mkGame (gameBoard g) cp None in
  piece <- boardGet (gameBoard g) row col ;;
  match selected g with
  | Some (selRow, selCol) =>
      if negb (selRow =? row) || negb (selCol =? col) then
        movingPiece <- boardGet (gameBoard g) selRow selCol ;;
        if mayLandOn cp piece then
          ok <- result (isLegalMove (selRow, selCol) (row, col) movingPiece
                          (gameBoard g) false) ;;
          if ok then
            newBoard <- simulateMove (gameBoard g) (selRow, selCol) (row, col)
                          movingPiece ;;
            chk <- isInCheck newBoard cp ;;
            if negb chk then
              let opponent := opponentOf cp in
              oppChk <- isInCheck newBoard opponent ;;
              mate <- (if oppChk
                       then any <- hasAnyLegalMoves newBoard opponent ;;
                            Ret (negb any)
                       else Ret false) ;;
              Ret (mkGame newBoard opponent None,
                   if mate then [CheckmateAlert] else [])
            else Ret (deselected, [CantMoveIntoCheck])
          else Ret (deselected, [])
        else Ret (deselected, [])
      else Ret (deselected, [])
  | None =>
      if truthy piece then
        if isColor cp piece
        then Ret (mkGame (gameBoard g) cp (Some (row, col)), [])
        else Ret (g, [])
      else Ret (g, [])
  end.

(** The annotation of the status line built by [renderBoard]
    (lines 179-185): nothing, [" — Check!"] or [" — Check! Checkmate!"]. *)
Inductive annotation : Type := NoCheck | CheckOnly | Checkmate.

Definition statusLine (g : game) : outcome (color * annotation) :=
  chk <- isInCheck (gameBoard g) (currentPlayer g) ;;
  if chk then
    any <- hasAnyLegalMoves (gameBoard g) (currentPlayer g) ;;
    if negb any then Ret (currentPlayer g, Checkmate)
    else Ret (currentPlayer g, CheckOnly)
  else Ret (currentPlayer g, NoCheck).

(** A move is entered with two clicks: with nothing selected, the first click
    selects the origin and the second names the destination. *)
Definition applyMove (g : game) (from to : square) : outcome (game * list alert) :=
  r1 <- handleSquareClick (mkGame (gameBoard g) (currentPlayer g) None)
          (fst from) (snd from) ;;
  r2 <- handleSquareClick (fst r1) (fst to) (snd to) ;;
  Ret (fst r2, snd r1 ++ snd r2).

(** A sequence of clicks, each on one of the rendered squares. *)
Fixpoint playClicks (g : game) (clicks : list square) : outcome game :=
  match clicks with
  | [] => Ret g
  | (row, col) :: rest =>
      r <- handleSquareClick g row col ;; playClicks (fst r) rest
  end.

(* ================================================================== *)
(** ** Well-formed boards and squares *)

(** Both indices of a square are in 0..7. *)
Definition inBoard (sq : square) : bool :=
  (0 <=? fst sq) && (fst sq <=? 7) && (0 <=? snd sq) && (snd sq <=? 7).

(** Eight rows of eight cells. *)
Definition shape8 (b : board) : bool :=
  (List.length b =? 8)%nat && forallb (fun rw => (List.length rw =? 8)%nat) b.

Definition pieceLetters : list string :=
  ["r"; "n"; "b"; "q"; "k"; "p"; "R"; "N"; "B"; "Q"; "K"; "P"].

(** A cell holds [''] or one of the twelve letters of [pieces] (lines 4-7). *)
Definition validCell (s : string) : bool :=
  negb (truthy s) || existsb (String.eqb s) pieceLetters.

(** The content of a square of an 8x8 board. *)
Definition cellAt (b : board) (sq : square) : string :=
  nth (Z.to_nat (snd sq)) (nth (Z.to_nat (fst sq)) b []) "".

(** The 64 squares, row by row. *)
Definition allSquares : list square :=
  flat_map (fun r => map (fun c => (r, c)) idx8) idx8.

(** An 8x8 board whose 64 squares hold [''] or a piece letter. *)
Definition validBoard (b : board) : bool :=
  shape8 b && forallb (fun sq => validCell (cellAt b sq)) allSquares.

(* ================================================================== *)
(** ** Specification-side definitions

    These are not translated from the code: they say, in the words of the
    rules, what the evaluator is compared with. *)

Definition emptyAt (b : board) (sq : square) : bool := negb (truthy (cellAt b sq)).

(** [n] squares starting at [(r, c)], each one step [(rs, cs)] further. *)
Fixpoint pathFrom (r c rs cs : Z) (n : nat) : list square :=
  match n with
  | O => []
  | S n' => (r, c) :: pathFrom (r + rs) (c + cs) rs cs n'
  end.

(** The squares strictly between two squares of a row, column or diagonal,
    from the origin's side. *)
Definition between (from to : square) : list square :=
  let rs := Z.sgn (fst to - fst from) in
  let cs := Z.sgn (snd to - snd from) in
  pathFrom (fst from + rs) (snd from + cs) rs cs
    (Z.to_nat (Z.max (Z.abs (fst to - fst from)) (Z.abs (snd to - snd from)) - 1)).

(** [sq] lies strictly between [from] and [to]: it is [k] steps from [from]
    in one of the eight directions, and [to] is [n > k] steps in the same
    direction. *)
Definition strictlyBetween (from to sq : square) : Prop :=
  exists (dr dc n k : Z),
    (-1 <= dr <= 1) /\ (-1 <= dc <= 1) /\ (dr <> 0 \/ dc <> 0) /\ 0 < k < n /\
    to = (fst from + n * dr, snd from + n * dc) /\
    sq = (fst from + k * dr, snd from + k * dc).

Definition clearPath (b : board) (from to : square) : bool :=
  forallb (emptyAt b) (between from to).

Definition sameLine (from to : square) : bool :=
  (fst from =? fst to) || (snd from =? snd to).

Definition sameDiagonal (from to : square) : bool :=
  Z.abs (fst from - fst to) =? Z.abs (snd from - snd to).

(** The pawn rule of the specification: one square forward onto an empty
    square; two squares forward from the starting rank when the intermediate
    and the destination squares are empty; one square diagonally forward when
    the destination holds a piece of the other colour or, in attack mode,
    whatever it holds. *)
Definition pawnRule (c : color) (b : board) (from to : square) (attackMode : bool)
  : bool :=
  let fwd := match c with white => -1 | black => 1 end in
  let start := match c with white => 6 | black => 1 end in
  ((snd to =? snd from) && (fst to =? fst from + fwd) && emptyAt b to)
  || ((snd to =? snd from) && (fst from =? start) && (fst to =? start + 2 * fwd)
      && emptyAt b (start + fwd, snd from) && emptyAt b to)
  || ((Z.abs (snd to - snd from) =? 1) && (fst to =? fst from + fwd)
      && (attackMode || isColor (opponentOf c) (cellAt b to))).

(** The verdict of the evaluator on an 8x8 board, in closed form. *)
Definition pseudoLegal (b : board) (from to : square) (piece : string)
  (attackMode : bool) : bool :=
  if (piece =? "P")%string then pawnRule white b from to attackMode
  else if (piece =? "p")%string then pawnRule black b from to attackMode
  else if (toLowerCase piece =? "r")%string
       then sameLine from to && clearPath b from to
  else if (toLowerCase piece =? "b")%string
       then sameDiagonal from to && clearPath b from to
  else if (toLowerCase piece =? "q")%string
       then (sameLine from to || sameDiagonal from to) && clearPath b from to
  else if (toLowerCase piece =? "n")%string then knightJump from to
  else if (toLowerCase piece =? "k")%string then kingStep from to
  else false.

(** The movement pattern of the three sliding pieces: a rook moves along a
    row or a column, a bishop along a diagonal, a queen along either. *)
Definition onPattern (piece : string) (from to : square) : bool :=
  if (toLowerCase piece =? "r")%string then sameLine from to
  else if (toLowerCase piece =? "b")%string then sameDiagonal from to
  else if (toLowerCase piece =? "q")%string then sameLine from to || sameDiagonal from to
  else false.

Definition swapAscii (a : ascii) : ascii :=
  let n := N_of_ascii a in
  if ((97 <=? n) && (n <=? 122))%N then ascii_of_N (n - 32)
  else if ((65 <=? n) && (n <=? 90))%N then ascii_of_N (n + 32) else a.

(** The same kind of piece in the other colour. *)
Definition swapCase (s : string) : string := mapString swapAscii s.

(** A one-square step diagonally forward of a pawn. *)
Definition pawnDiagonal (piece : string) (from to : square) : bool :=
  (Z.abs (snd to - snd from) =? 1)
  && (((piece =? "P")%string && (fst to =? fst from - 1))
      || ((piece =? "p")%string && (fst to =? fst from + 1))).

(** A position with a white pawn on b2 facing a black bishop on b4, and a
    black pawn on g7 facing a white knight on g5. *)
Definition blockedPawns : board :=
  [ ["r";"n";"b";"q";"k";"";"n";"r"];
    ["p";"p";"p";"p";"";"p";"p";"p"];
    ["";"";"";"";"p";"";"";""];
    ["";"";"";"";"";"";"N";""];
    ["";"b";"";"";"";"";"";""];
    ["P";"";"";"";"";"";"";"P"];
    ["";"P";"P";"P";"P";"P";"P";""];
    ["R";"N";"B";"Q";"K";"B";"";"R"] ].

(** Two positions that differ in the colour of the pawn on f3 only. *)
Definition blackOnF3 : board :=
  [ ["r";"n";"b";"q";"k";"b";"n";"r"];
    ["p";"p";"p";"p";"p";"";"p";"p"];
    ["";"";"";"";"";"";"";""];
    ["";"";"";"";"";"";"";""];
    ["";"";"";"";"";"";"";""];
    ["";"";"";"";"";"p";"";""];
    ["P";"P";"P";"P";"P";"";"P";"P"];
    ["R";"N";"B";"Q";"K";"B";"N";"R"] ].

Definition whiteOnF3 : board :=
  [ ["r";"n";"b";"q";"k";"b";"n";"r"];
    ["p";"p";"p";"p";"p";"";"p";"p"];
    ["";"";"";"";"";"";"";""];
    ["";"";"";"";"";"";"";""];
    ["";"";"";"";"";"";"";""];
    ["";"";"";"";"";"P";"";""];
    ["P";"P";"P";"P";"P";"";"P";"P"];
    ["R";"N";"B";"Q";"K";"B";"N";"R"] ].

Definition square_eqb (s t : square) : bool :=
  (fst s =? fst t) && (snd s =? snd t).

(** Two boards hold the same on every square but [sq]. *)
Definition agreeExcept (b b' : board) (sq : square) : bool :=
  forallb (fun s => square_eqb s sq || (cellAt b' s =? cellAt b s)%string) allSquares.

(** [earlier s t]: the scans reach square [s] before square [t]. *)
Definition earlier (s t : square) : bool :=
  (fst s <? fst t) || ((fst s =? fst t) && (snd s <? snd t)).

(** A position without a white king. *)
Definition kingless : board :=
  [ ["";"";"";"";"k";"";"";""];
    ["";"";"";"";"";"";"";""];
    ["";"";"";"";"";"";"";""];
    ["";"";"";"";"";"";"";""];
    ["";"";"";"";"";"";"";""];
    ["";"";"";"";"";"";"";""];
    ["";"";"";"";"r";"";"";""];
    ["";"";"";"";"";"";"";""] ].

(** Moving the piece of [from] to [to] can be simulated and leaves [c] out
    of check. *)
Definition safeAfter (b : board) (c : color) (from to : square) : Prop :=
  exists b', simulateMove b from to (cellAt b from) = Ret b'
             /\ isInCheck b' c = Ret false.

(** The move filter shared by [hasAnyLegalMoves], [getPossibleMoves] and
    [handleSquareClick]: the origin holds a piece of [c], the destination
    does not, the evaluator accepts the move, and [c] is not in check on the
    simulated board. *)
Definition legalMove (b : board) (c : color) (from to : square) : Prop :=
  isColor c (cellAt b from) = true
  /\ isColor c (cellAt b to) = false
  /\ result (isLegalMove from to (cellAt b from) b false) = Ret true
  /\ safeAfter b c from to.

(** The conditions under which the second click of a move assigns
    [gameBoard] and [currentPlayer] (lines 303-315), the origin having been
    selected by the first click. *)
Definition clickAccepts (b : board) (cp : color) (from to : square) : Prop :=
  isColor cp (cellAt b from) = true
  /\ from <> to
  /\ mayLandOn cp (cellAt b to) = true
  /\ result (isLegalMove from to (cellAt b from) b false) = Ret true
  /\ safeAfter b cp from to.

(** The click handler opened the checkmate dialog. *)
Definition announcesMate (al : list alert) : bool :=
  existsb (fun a => match a with CheckmateAlert => true | _ => false end) al.

(** A game standing on board [b] with [cp] to move, whose selection, if any,
    is a piece of [cp]. *)
Definition standsOn (b : board) (cp : color) (g : game) : Prop :=
  gameBoard g = b /\ currentPlayer g = cp
  /\ match selected g with
     | None => True
     | Some s => inBoard s = true /\ isColor cp (cellAt b s) = true
     end.

(** The position before Black's queen goes to h4 in the fool's mate
    (1. f3 e5 2. g4). *)
Definition beforeMate : board :=
  [ ["r";"n";"b";"q";"k";"b";"n";"r"];
    ["p";"p";"p";"p";"";"p";"p";"p"];
    ["";"";"";"";"";"";"";""];
    ["";"";"";"";"p";"";"";""];
    ["";"";"";"";"";"";"P";""];
    ["";"";"";"";"";"P";"";""];
    ["P";"P";"P";"P";"P";"";"";"P"];
    ["R";"N";"B";"Q";"K";"B";"N";"R"] ].

(** The same position after 2... Qh4. *)
Definition afterMate : board :=
  [ ["r";"n";"b";"";"k";"b";"n";"r"];
    ["p";"p";"p";"p";"";"p";"p";"p"];
    ["";"";"";"";"";"";"";""];
    ["";"";"";"";"p";"";"";""];
    ["";"";"";"";"";"";"P";"q"];
    ["";"";"";"";"";"P";"";""];
    ["P";"P";"P";"P";"P";"";"";"P"];
    ["R";"N";"B";"Q";"K";"B";"N";"R"] ].

(** A white pawn on a7 about to step on a8, and the position after the
    step. *)
Definition lastRankBefore : board :=
  [ ["";"";"";"";"";"";"";"k"];
    ["P";"";"";"";"";"";"";""];
    ["";"";"";"";"";"";"";""];
    ["";"";"";"";"";"";"";""];
    ["";"";"";"";"";"";"";""];
    ["";"";"";"";"";"";"";""];
    ["";"";"";"";"";"";"";""];
    ["";"";"";"";"K";"";"";""] ].

Definition lastRankAfter : board :=
  [ ["P";"";"";"";"";"";"";"k"];
    ["";"";"";"";"";"";"";""];
    ["";"";"";"";"";"";"";""];
    ["";"";"";"";"";"";"";""];
    ["";"";"";"";"";"";"";""];
    ["";"";"";"";"";"";"";""];
    ["";"";"";"";"";"";"";""];
    ["";"";"";"";"K";"";"";""] ].

(** The states of the turn controller.  The program stores none of them: as
    the status line does, the state is read off the board and the side to
    move -- checkmate, won by the other side, when the side to move is in
    check and has no legal move.  The winner is the one the rules of chess
    give; the program computes a winner only for its dialog
    ([checkmateAlertNames]). *)
Inductive state : Type :=
| ToMove (c : color)
| CheckmateBy (winner : color).

Definition stateOf (g : game) : outcome state :=
  s <- statusLine g ;;
  match s with
  | (c, Checkmate) => Ret (CheckmateBy (opponentOf c))
  | (c, _) => Ret (ToMove c)
  end.

(** The initial position after 1. e4. *)
Definition afterE4 : board :=
  [ ["r";"n";"b";"q";"k";"b";"n";"r"];
    ["p";"p";"p";"p";"p";"p";"p";"p"];
    ["";"";"";"";"";"";"";""];
    ["";"";"";"";"";"";"";""];
    ["";"";"";"";"P";"";"";""];
    ["";"";"";"";"";"";"";""];
    ["P";"P";"P";"P";"";"P";"P";"P"];
    ["R";"N";"B";"Q";"K";"B";"N";"R"] ].

(** A white king on e1 beside the open d-file held by a black rook. *)
Definition rookOnDFile : board :=
  [ ["";"";"";"r";"";"";"";"k"];
    ["";"";"";"";"";"";"";""];
    ["";"";"";"";"";"";"";""];
    ["";"";"";"";"";"";"";""];
    ["";"";"";"";"";"";"";""];
    ["";"";"";"";"";"";"";""];
    ["";"";"";"";"";"";"";""];
    ["";"";"";"";"K";"";"";""] ].

(** The letter of a colour's king. *)
Definition kingOf (c : color) : string :=
  match c with white => "K" | black => "k" end.

(** The program's variables as they are initialised (lines 9-21). *)
Definition initialGame : game := mkGame initialBoard white None.

(** Black to move and stalemated: king on a8, white queen on b6. *)
Definition stalemated : board :=
  [ ["k";"";"";"";"";"";"";""];
    ["";"";"";"";"";"";"";""];
    ["";"Q";"";"";"";"";"";""];
    ["";"";"";"";"";"";"";""];
    ["";"";"";"";"";"";"";""];
    ["";"";"";"";"";"";"";""];
    ["";"";"";"";"";"";"";""];
    ["";"";"";"";"";"";"";"K"] ].

(** Some square of the board holds a king of colour [c]. *)
Definition hasKing (b : board) (c : color) : Prop :=
  exists sq, inBoard sq = true /\ cellAt b sq = kingOf c.

(** The condition that every click keeps: the board is 8x8 with piece
    letters, both colours have a king, the selection (if any) is a piece of
    the side to move, and the side that is not to move is not in check. *)
Definition wellFormedGame (g : game) : Prop :=
  validBoard (gameBoard g) = true
  /\ hasKing (gameBoard g) white /\ hasKing (gameBoard g) black
  /\ match selected g with
     | None => True
     | Some s => inBoard s = true
                 /\ isColor (currentPlayer g) (cellAt (gameBoard g) s) = true
     end
  /\ isInCheck (gameBoard g) (opponentOf (currentPlayer g)) = Ret false.

(** A white king on d3 next to e4, the empty square straight ahead of the
    black pawn on e5. *)
Definition kingBeforePawn : board :=
  [ ["";"";"";"";"";"";"";"k"];
    ["";"";"";"";"";"";"";""];
    ["";"";"";"";"";"";"";""];
    ["";"";"";"";"p";"";"";""];
    ["";"";"";"";"";"";"";""];
    ["";"";"";"K";"";"";"";""];
    ["";"";"";"";"";"";"";""];
    ["";"";"";"";"";"";"";""] ].

(** The colour [renderBoard] gives a square (lines 129-133): light when
    [(row + col) % 2 === 0], dark otherwise. *)
Definition isLight (sq : square) : bool := (fst sq + snd sq) mod 2 =? 0.

(** [b'] is the board [b] after the piece on [from] has gone to [to]: an
    8x8 board that holds at [to] what [b] held at [from], nothing at [from],
    and on every other square what [b] holds there. *)
Definition boardAfterMove (b : board) (from to : square) (b' : board) : Prop :=
  shape8 b' = true
  /\ cellAt b' to = cellAt b from
  /\ cellAt b' from = ""
  /\ forall sq, inBoard sq = true -> sq <> from -> sq <> to ->
                cellAt b' sq = cellAt b sq.

(** Every character of the string is an ASCII character. *)
Fixpoint asciiString (s : string) : bool :=
  match s with
  | EmptyString => true
  | String a t => (N_of_ascii a <? 128)%N && asciiString t
  end.

(** A run that ends normally with [v] and indexed only squares of the board. *)
Definition yields {A : Type} (m : run A) (v : A) : Prop :=
  result m = Ret v /\ Forall (fun sq => inBoard sq = true) (reads m).

(* ================================================================== *)
(** ** Proof automation *)

(** Case analysis on the next integer test of the goal. *)
Ltac case_test :=
  match goal with
  | |- context [ Z.eqb ?a ?b ] =>
      let E := fresh "E" in
      destruct (Z.eqb a b) eqn:E;
      [apply Z.eqb_eq in E | apply Z.eqb_neq in E]
  | |- context [ Z.leb ?a ?b ] =>
      let E := fresh "E" in
      destruct (Z.leb a b) eqn:E;
      [apply Z.leb_le in E | apply Z.leb_gt in E]
  | |- context [ Z.gtb ?a ?b ] =>
      let E := fresh "E" in
      rewrite (Z.gtb_ltb a b);
      destruct (Z.ltb b a) eqn:E;
      [apply Z.ltb_lt in E | apply Z.ltb_ge in E]
  end.

Ltac case_tests := repeat (case_test; cbn [andb orb negb]; try lia).

(* ================================================================== *)
(** ** Reading a well-formed board *)

Lemma shape8_length (b : board) : shape8 b = true -> List.length b = 8%nat.
Proof.
  unfold shape8. intros H. apply andb_true_iff in H as [H _].
  now apply Nat.eqb_eq in H.
Qed.

Lemma shape8_row (b : board) (i : nat) :
  shape8 b = true -> (i < 8)%nat -> List.length (nth i b []) = 8%nat.
Proof.
  intros H Hi. pose proof (shape8_length b H) as Hl.
  unfold shape8 in H. apply andb_true_iff in H as [_ H].
  rewrite forallb_forall in H. apply Nat.eqb_eq. apply H.
  apply nth_In. lia.
Qed.

Lemma inBoard_range (r c : Z) :
  inBoard (r, c) = true <-> 0 <= r <= 7 /\ 0 <= c <= 7.
Proof.
  unfold inBoard; simpl. rewrite !andb_true_iff, !Z.leb_le. lia.
Qed.

Lemma boardGet_in (b : board) (r c : Z) :
  shape8 b = true -> inBoard (r, c) = true ->
  boardGet b r c = Ret (cellAt b (r, c)).
Proof.
  intros Hb Hin. apply inBoard_range in Hin as [Hr Hc].
  unfold boardGet, cellAt; simpl.
  destruct (r <? 0) eqn:E; [apply Z.ltb_lt in E; lia|].
  assert (Hr' : (Z.to_nat r < 8)%nat) by lia.
  assert (Hc' : (Z.to_nat c < 8)%nat) by lia.
  rewrite (nth_error_nth' b [] (n := Z.to_nat r))
    by (rewrite (shape8_length b Hb); exact Hr').
  destruct (c <? 0) eqn:E'; [apply Z.ltb_lt in E'; lia|].
  rewrite (nth_error_nth' _ "" (n := Z.to_nat c))
    by (rewrite (shape8_row b _ Hb Hr'); exact Hc').
  reflexivity.
Qed.

Lemma yields_tret {A : Type} (v : A) : yields (tret v) v.
Proof. split; [reflexivity | constructor]. Qed.

Lemma yields_tbind {A B : Type} (m : run A) (k : A -> run B) (a : A) (v : B) :
  yields m a -> yields (k a) v -> yields (tbind m k) v.
Proof.
  intros [Hm Fm] [Hk Fk]. unfold tbind. rewrite Hm. split; simpl.
  - exact Hk.
  - apply Forall_app; split; assumption.
Qed.

Lemma yields_readCell (b : board) (r c : Z) :
  shape8 b = true -> inBoard (r, c) = true ->
  yields (readCell b r c) (cellAt b (r, c)).
Proof.
  intros Hb Hin. split; simpl.
  - now apply boardGet_in.
  - constructor; [exact Hin | constructor].
Qed.

Lemma yields_orElse_some (blk : run (option bool)) (next : run bool) (v : bool) :
  yields blk (Some v) -> yields (orElse blk next) v.
Proof.
  intros H. unfold orElse. eapply yields_tbind; [exact H | apply yields_tret].
Qed.

Lemma yields_orElse_none (blk : run (option bool)) (next : run bool) (v : bool) :
  yields blk None -> yields next v -> yields (orElse blk next) v.
Proof.
  intros H Hn. unfold orElse. eapply yields_tbind; [exact H | exact Hn].
Qed.

Lemma readCell_in (b : board) (r c : Z) :
  shape8 b = true -> inBoard (r, c) = true ->
  readCell b r c = mkRun [(r, c)] (Ret (cellAt b (r, c))).
Proof. intros Hb Hin. unfold readCell. now rewrite boardGet_in. Qed.

Lemma yields_mkRun {A : Type} (l : list square) (v : A) :
  Forall (fun sq => inBoard sq = true) l -> yields (mkRun l (Ret v)) v.
Proof. intros H. split; [reflexivity | exact H]. Qed.

Lemma whitePawn_yields (b : board) (from to : square) (piece : string) (am : bool) :
  shape8 b = true -> inBoard from = true -> inBoard to = true ->
  yields (whitePawn b from to piece (cellAt b to) am)
         (if (piece =? "P")%string && pawnRule white b from to am
          then Some true else None).
Proof.
  destruct from as [fr fc], to as [tr tc]. intros Hb Hf Ht.
  pose proof Hf as Hf'. pose proof Ht as Ht'.
  apply inBoard_range in Hf' as [Hfr Hfc]. apply inBoard_range in Ht' as [Htr Htc].
  unfold whitePawn. destruct (piece =? "P")%string; [|apply yields_tret].
  assert (H5 : inBoard (5, fc) = true) by (apply inBoard_range; lia).
  rewrite (readCell_in b 5 fc Hb H5).
  unfold pawnRule, emptyAt. cbn [fst snd andb opponentOf].
  change (isColor black (cellAt b (tr, tc))) with (isBlack (cellAt b (tr, tc))).
  change (6 + -1) with 5. change (6 + 2 * -1) with 4.
  unfold isBlack.
  destruct (truthy (cellAt b (tr, tc))) eqn:Et;
  destruct (truthy (cellAt b (5, fc))) eqn:E5;
  destruct (cellAt b (tr, tc) =? toLowerCase (cellAt b (tr, tc)))%string;
  destruct am; cbn [andb orb negb];
  case_tests; cbn [tbind tret result reads app negb]; rewrite ?E5;
  cbn [tbind tret result reads app negb];
  apply yields_mkRun; repeat constructor; assumption.
Qed.

Lemma blackPawn_yields (b : board) (from to : square) (piece : string) (am : bool) :
  shape8 b = true -> inBoard from = true -> inBoard to = true ->
  yields (blackPawn b from to piece (cellAt b to) am)
         (if (piece =? "p")%string && pawnRule black b from to am
          then Some true else None).
Proof.
  destruct from as [fr fc], to as [tr tc]. intros Hb Hf Ht.
  pose proof Hf as Hf'. pose proof Ht as Ht'.
  apply inBoard_range in Hf' as [Hfr Hfc]. apply inBoard_range in Ht' as [Htr Htc].
  unfold blackPawn. destruct (piece =? "p")%string; [|apply yields_tret].
  assert (H2 : inBoard (2, fc) = true) by (apply inBoard_range; lia).
  rewrite (readCell_in b 2 fc Hb H2).
  unfold pawnRule, emptyAt. cbn [fst snd andb opponentOf].
  change (isColor white (cellAt b (tr, tc))) with (isWhite (cellAt b (tr, tc)) || false).
  rewrite orb_false_r.
  change (1 + 1) with 2. change (1 + 2 * 1) with 3.
  unfold isWhite.
  destruct (truthy (cellAt b (tr, tc))) eqn:Et;
  destruct (truthy (cellAt b (2, fc))) eqn:E2;
  destruct (cellAt b (tr, tc) =? toUpperCase (cellAt b (tr, tc)))%string;
  destruct am; cbn [andb orb negb];
  case_tests; cbn [tbind tret result reads app negb]; rewrite ?E2;
  cbn [tbind tret result reads app negb];
  apply yields_mkRun; repeat constructor; assumption.
Qed.

(* ------------------------------------------------------------------ *)
(** *** The two blocking loops on a clear or blocked path *)

Lemma rookLoop_path (b : board) (tr tc rs cs : Z) :
  shape8 b = true ->
  forall (n fuel : nat) (r c : Z),
    (n < fuel)%nat ->
    (forall k, 0 <= k < Z.of_nat n ->
       (r + k * rs <> tr \/ c + k * cs <> tc)
       /\ inBoard (r + k * rs, c + k * cs) = true) ->
    r + Z.of_nat n * rs = tr /\ c + Z.of_nat n * cs = tc ->
    yields (rookLoop fuel b tr tc rs cs r c)
           (forallb (emptyAt b) (pathFrom r c rs cs n)).
Proof.
  intros Hb. induction n as [|n IH]; intros fuel r c Hfuel Hpath Hend.
  - destruct fuel as [|fuel]; [lia|]. cbn [rookLoop pathFrom forallb].
    replace (r =? tr) with true by (symmetry; apply Z.eqb_eq; lia).
    replace (c =? tc) with true by (symmetry; apply Z.eqb_eq; lia).
    apply yields_tret.
  - destruct fuel as [|fuel]; [lia|]. cbn [rookLoop pathFrom forallb].
    pose proof (Hpath 0 ltac:(lia)) as H0.
    rewrite !Z.mul_0_l, !Z.add_0_r in H0. destruct H0 as [Hne Hin].
    replace (negb (r =? tr) || negb (c =? tc)) with true.
    2:{ symmetry. apply orb_true_iff.
        destruct Hne as [Hne|Hne]; [left|right];
          apply negb_true_iff, Z.eqb_neq; exact Hne. }
    eapply yields_tbind; [apply yields_readCell; assumption|].
    unfold emptyAt at 1. destruct (truthy (cellAt b (r, c))); cbn [negb andb].
    + apply yields_tret.
    + apply IH; [lia | |].
      * intros k Hk. specialize (Hpath (k + 1) ltac:(lia)).
        replace (r + rs + k * rs) with (r + (k + 1) * rs) by ring.
        replace (c + cs + k * cs) with (c + (k + 1) * cs) by ring.
        exact Hpath.
      * replace (r + rs + Z.of_nat n * rs) with (r + Z.of_nat (S n) * rs)
          by (rewrite Nat2Z.inj_succ; ring).
        replace (c + cs + Z.of_nat n * cs) with (c + Z.of_nat (S n) * cs)
          by (rewrite Nat2Z.inj_succ; ring).
        exact Hend.
Qed.

Lemma bishopLoop_path (b : board) (tr tc rs cs : Z) :
  shape8 b = true ->
  forall (n fuel : nat) (r c : Z),
    (n < fuel)%nat ->
    (forall k, 0 <= k < Z.of_nat n ->
       (r + k * rs <> tr /\ c + k * cs <> tc)
       /\ inBoard (r + k * rs, c + k * cs) = true) ->
    r + Z.of_nat n * rs = tr \/ c + Z.of_nat n * cs = tc ->
    yields (bishopLoop fuel b tr tc rs cs r c)
           (forallb (emptyAt b) (pathFrom r c rs cs n)).
Proof.
  intros Hb. induction n as [|n IH]; intros fuel r c Hfuel Hpath Hend.
  - destruct fuel as [|fuel]; [lia|]. cbn [bishopLoop pathFrom forallb].
    replace (negb (r =? tr) && negb (c =? tc)) with false.
    2:{ symmetry. apply andb_false_iff.
        destruct Hend as [Hend|Hend]; [left|right];
          apply negb_false_iff, Z.eqb_eq; lia. }
    apply yields_tret.
  - destruct fuel as [|fuel]; [lia|]. cbn [bishopLoop pathFrom forallb].
    pose proof (Hpath 0 ltac:(lia)) as H0.
    rewrite !Z.mul_0_l, !Z.add_0_r in H0. destruct H0 as [[Hr Hc] Hin].
    replace (negb (r =? tr) && negb (c =? tc)) with true.
    2:{ symmetry. apply andb_true_iff.
        split; apply negb_true_iff; apply Z.eqb_neq; lia. }
    eapply yields_tbind; [apply yields_readCell; assumption|].
    unfold emptyAt at 1. destruct (truthy (cellAt b (r, c))); cbn [negb andb].
    + apply yields_tret.
    + apply IH; [lia | |].
      * intros k Hk. specialize (Hpath (k + 1) ltac:(lia)).
        replace (r + rs + k * rs) with (r + (k + 1) * rs) by ring.
        replace (c + cs + k * cs) with (c + (k + 1) * cs) by ring.
        exact Hpath.
      * replace (r + rs + Z.of_nat n * rs) with (r + Z.of_nat (S n) * rs)
          by (rewrite Nat2Z.inj_succ; ring).
        replace (c + cs + Z.of_nat n * cs) with (c + Z.of_nat (S n) * cs)
          by (rewrite Nat2Z.inj_succ; ring).
        exact Hend.
Qed.

Lemma rookLike_yields (b : board) (from to : square) :
  shape8 b = true -> inBoard from = true -> inBoard to = true ->
  yields (rookLike b from to)
         (if sameLine from to then Some (clearPath b from to) else None).
Proof.
  destruct from as [fr fc], to as [tr tc]. intros Hb Hf Ht.
  apply inBoard_range in Hf as [Hfr Hfc]. apply inBoard_range in Ht as [Htr Htc].
  unfold rookLike, sameLine, clearPath, between, loopFuel. cbn [fst snd].
  destruct ((fr =? tr) || (fc =? tc)) eqn:Hline; [|apply yields_tret].
  eapply yields_tbind; [|apply yields_tret].
  set (n := Z.to_nat (Z.max (Z.abs (tr - fr)) (Z.abs (tc - fc)) - 1)).
  apply orb_true_iff in Hline.
  assert (Hrs : (if fr =? tr then 0 else if tr >? fr then 1 else -1) = Z.sgn (tr - fr))
    by (case_tests; lia).
  assert (Hcs : (if fc =? tc then 0 else if tc >? fc then 1 else -1) = Z.sgn (tc - fc))
    by (case_tests; lia).
  rewrite Hrs, Hcs.
  apply rookLoop_path; [assumption | unfold n; lia | | ].
  - intros k Hk. rewrite inBoard_range. unfold n in Hk.
    destruct Hline as [E|E]; apply Z.eqb_eq in E; subst; nia.
  - unfold n. destruct Hline as [E|E]; apply Z.eqb_eq in E; subst; nia.
Qed.

Lemma bishopLike_yields (b : board) (from to : square) :
  shape8 b = true -> inBoard from = true -> inBoard to = true ->
  from <> to ->
  yields (bishopLike b from to)
         (if sameDiagonal from to then Some (clearPath b from to) else None).
Proof.
  destruct from as [fr fc], to as [tr tc]. intros Hb Hf Ht Hne.
  apply inBoard_range in Hf as [Hfr Hfc]. apply inBoard_range in Ht as [Htr Htc].
  unfold bishopLike, sameDiagonal, clearPath, between, loopFuel. cbn [fst snd].
  destruct (Z.abs (fr - tr) =? Z.abs (fc - tc)) eqn:Hdiag; [|apply yields_tret].
  apply Z.eqb_eq in Hdiag.
  assert (Hd : fr <> tr /\ fc <> tc).
  { split; intros ->; apply Hne; f_equal; lia. }
  eapply yields_tbind; [|apply yields_tret].
  set (n := Z.to_nat (Z.max (Z.abs (tr - fr)) (Z.abs (tc - fc)) - 1)).
  assert (Hrs : (if tr >? fr then 1 else -1) = Z.sgn (tr - fr)) by (case_tests; lia).
  assert (Hcs : (if tc >? fc then 1 else -1) = Z.sgn (tc - fc)) by (case_tests; lia).
  rewrite Hrs, Hcs.
  apply bishopLoop_path; [assumption | unfold n; lia | | ].
  - intros k Hk. rewrite inBoard_range. unfold n in Hk. nia.
  - unfold n. left. nia.
Qed.

Lemma yields_orElse (blk : run (option bool)) (next : run bool)
  (o : option bool) (v : bool) :
  yields blk o -> yields next v ->
  yields (orElse blk next) (match o with Some w => w | None => v end).
Proof.
  intros Hb Hn. destruct o.
  - now apply yields_orElse_some.
  - now apply yields_orElse_none.
Qed.

Lemma yields_eq {A : Type} (m : run A) (v w : A) : yields m v -> v = w -> yields m w.
Proof. now intros H <-. Qed.

Lemma queen_yields (b : board) (from to : square) :
  shape8 b = true -> inBoard from = true -> inBoard to = true ->
  yields (o <~ rookLike b from to ;;
          match o with
          | Some v => tret (Some v)
          | None => bishopLike b from to
          end)
         (if sameLine from to || sameDiagonal from to
          then Some (clearPath b from to) else None).
Proof.
  intros Hb Hf Ht. pose proof (rookLike_yields b from to Hb Hf Ht) as Hr.
  destruct (sameLine from to) eqn:Hl; cbn [orb].
  - eapply yields_tbind; [exact Hr | apply yields_tret].
  - eapply yields_tbind; [exact Hr |].
    apply bishopLike_yields; try assumption.
    intros ->. unfold sameLine in Hl. rewrite Z.eqb_refl in Hl. discriminate.
Qed.

(** On an 8x8 board and squares of the board, the evaluator returns the
    closed form and indexes only squares of the board -- except for a bishop
    asked about its own square. *)
Lemma isLegalMove_yields (b : board) (from to : square) (piece : string) (am : bool) :
  shape8 b = true -> inBoard from = true -> inBoard to = true ->
  from <> to \/ toLowerCase piece <> "b" ->
  yields (isLegalMove from to piece b am) (pseudoLegal b from to piece am).
Proof.
  intros Hb Hf Ht Hne. unfold isLegalMove.
  eapply yields_tbind.
  { apply yields_readCell; [assumption | now destruct to]. }
  replace (fst to, snd to) with to by now destruct to.
  eapply yields_eq.
  { apply yields_orElse; [now apply whitePawn_yields|].
    apply yields_orElse; [now apply blackPawn_yields|].
    apply (yields_orElse _ _
             (if (toLowerCase piece =? "r")%string
              then if sameLine from to then Some (clearPath b from to) else None
              else None)).
    { destruct (toLowerCase piece =? "r")%string;
        [now apply rookLike_yields | apply yields_tret]. }
    apply (yields_orElse _ _
             (if (toLowerCase piece =? "b")%string
              then if sameDiagonal from to then Some (clearPath b from to) else None
              else None)).
    { destruct (toLowerCase piece =? "b")%string eqn:E; [|apply yields_tret].
      apply bishopLike_yields; try assumption.
      destruct Hne as [H|H]; [exact H|]. apply String.eqb_eq in E. contradiction. }
    apply (yields_orElse _ _
             (if (toLowerCase piece =? "q")%string
              then if sameLine from to || sameDiagonal from to
                   then Some (clearPath b from to) else None
              else None)).
    { destruct (toLowerCase piece =? "q")%string;
        [now apply queen_yields | apply yields_tret]. }
    apply (yields_orElse _ _
             (if (toLowerCase piece =? "n")%string && knightJump from to
              then Some true else None)).
    { destruct ((toLowerCase piece =? "n")%string && knightJump from to);
        apply yields_tret. }
    apply (yields_orElse _ _
             (if (toLowerCase piece =? "k")%string && kingStep from to
              then Some true else None)).
    { destruct ((toLowerCase piece =? "k")%string && kingStep from to);
        apply yields_tret. }
    apply yields_tret. }
  unfold pseudoLegal.
  generalize (pawnRule white b from to am) (pawnRule black b from to am)
    (sameLine from to) (sameDiagonal from to) (clearPath b from to)
    (knightJump from to) (kingStep from to).
  intros pw pb sl sd cl kn kg.
  destruct (piece =? "P")%string eqn:EP.
  { apply String.eqb_eq in EP. subst piece. simpl. now destruct pw. }
  destruct (piece =? "p")%string eqn:Ep.
  { apply String.eqb_eq in Ep. subst piece. simpl. now destruct pb. }
  cbn [andb].
  destruct (toLowerCase piece =? "r")%string eqn:Er.
  { apply String.eqb_eq in Er. rewrite Er. simpl. now destruct sl, cl. }
  destruct (toLowerCase piece =? "b")%string eqn:Eb.
  { apply String.eqb_eq in Eb. rewrite Eb. simpl. now destruct sd, cl. }
  destruct (toLowerCase piece =? "q")%string eqn:Eq.
  { apply String.eqb_eq in Eq. rewrite Eq. simpl. now destruct sl, sd, cl. }
  destruct (toLowerCase piece =? "n")%string eqn:En.
  { apply String.eqb_eq in En. rewrite En. simpl. now destruct kn. }
  destruct (toLowerCase piece =? "k")%string eqn:Ek.
  { simpl. now destruct kg. }
  reflexivity.
Qed.

(* ------------------------------------------------------------------ *)
(** *** The iteration budget is never exhausted *)

Lemma halts_tbind {A B : Type} (m : run A) (k : A -> run B) :
  result m <> OutOfFuel -> (forall a, result (k a) <> OutOfFuel) ->
  result (tbind m k) <> OutOfFuel.
Proof.
  intros Hm Hk. unfold tbind. destruct (result m) eqn:E; simpl.
  - apply Hk.
  - discriminate.
  - contradiction.
Qed.

Lemma halts_readCell (b : board) (r c : Z) : result (readCell b r c) <> OutOfFuel.
Proof.
  unfold readCell, boardGet; simpl.
  destruct (r <? 0); [discriminate|].
  destruct (nth_error b (Z.to_nat r)); [|discriminate].
  destruct (c <? 0); [discriminate|].
  destruct (nth_error l (Z.to_nat c)); discriminate.
Qed.

Lemma halts_tret {A : Type} (a : A) : result (tret a) <> OutOfFuel.
Proof. discriminate. Qed.

Lemma halts_orElse (blk : run (option bool)) (next : run bool) :
  result blk <> OutOfFuel -> result next <> OutOfFuel ->
  result (orElse blk next) <> OutOfFuel.
Proof.
  intros Hb Hn. unfold orElse. apply halts_tbind; [exact Hb|].
  intros [v|]; [apply halts_tret | exact Hn].
Qed.

Lemma rookLoop_halts (b : board) (tr tc rs cs : Z) :
  forall (n fuel : nat) (r c : Z),
    (n < fuel)%nat ->
    r + Z.of_nat n * rs = tr /\ c + Z.of_nat n * cs = tc ->
    result (rookLoop fuel b tr tc rs cs r c) <> OutOfFuel.
Proof.
  induction n as [|n IH]; intros fuel r c Hfuel Hend;
    (destruct fuel as [|fuel]; [lia|]); cbn [rookLoop].
  - replace (r =? tr) with true by (symmetry; apply Z.eqb_eq; lia).
    replace (c =? tc) with true by (symmetry; apply Z.eqb_eq; lia).
    apply halts_tret.
  - destruct (negb (r =? tr) || negb (c =? tc)); [|apply halts_tret].
    apply halts_tbind; [apply halts_readCell|].
    intros x. destruct (truthy x); [apply halts_tret|].
    apply IH; [lia|]. rewrite Nat2Z.inj_succ in Hend. lia.
Qed.

Lemma bishopLoop_halts (b : board) (tr tc rs cs : Z) :
  forall (n fuel : nat) (r c : Z),
    (n < fuel)%nat ->
    r + Z.of_nat n * rs = tr \/ c + Z.of_nat n * cs = tc ->
    result (bishopLoop fuel b tr tc rs cs r c) <> OutOfFuel.
Proof.
  induction n as [|n IH]; intros fuel r c Hfuel Hend;
    (destruct fuel as [|fuel]; [lia|]); cbn [bishopLoop].
  - replace (negb (r =? tr) && negb (c =? tc)) with false; [apply halts_tret|].
    symmetry. apply andb_false_iff.
    destruct Hend as [H|H]; [left|right]; apply negb_false_iff, Z.eqb_eq; lia.
  - destruct (negb (r =? tr) && negb (c =? tc)); [|apply halts_tret].
    apply halts_tbind; [apply halts_readCell|].
    intros x. destruct (truthy x); [apply halts_tret|].
    apply IH; [lia|]. rewrite Nat2Z.inj_succ in Hend. lia.
Qed.

(** A bishop asked about its own square: the loop walks up and to the left,
    away from the square, until a piece stops it or row [-1] is indexed. *)
Lemma bishopLoop_away (b : board) (tr tc cs : Z) :
  forall (fuel : nat) (r c : Z),
    (0 < fuel)%nat ->
    (r < 0 \/ Z.of_nat (List.length b) <= r \/ (Z.to_nat r + 1 < fuel)%nat) ->
    result (bishopLoop fuel b tr tc (-1) cs r c) <> OutOfFuel.
Proof.
  induction fuel as [|fuel IH]; intros r c Hpos Hr; [lia|]. cbn [bishopLoop].
  destruct (negb (r =? tr) && negb (c =? tc)); [|apply halts_tret].
  unfold tbind, readCell, boardGet; cbn [result reads].
  destruct (r <? 0) eqn:E0; [discriminate|]. apply Z.ltb_ge in E0.
  destruct (nth_error b (Z.to_nat r)) as [rw|] eqn:Erow; [|discriminate].
  assert (Hlt : (Z.to_nat r < List.length b)%nat)
    by (apply nth_error_Some; congruence).
  assert (Hx : forall x : string,
             result (if truthy x then tret false
                     else bishopLoop fuel b tr tc (-1) cs (r + -1) (c + cs))
             <> OutOfFuel).
  { intros x. destruct (truthy x); [apply halts_tret|].
    apply IH; lia. }
  destruct (c <? 0); [apply Hx|].
  destruct (nth_error rw (Z.to_nat c)); apply Hx.
Qed.

Lemma rookLike_halts (b : board) (from to : square) :
  result (rookLike b from to) <> OutOfFuel.
Proof.
  destruct from as [fr fc], to as [tr tc]. unfold rookLike, loopFuel. cbn [fst snd].
  destruct ((fr =? tr) || (fc =? tc)) eqn:Hline; [|apply halts_tret].
  apply orb_true_iff in Hline.
  apply halts_tbind; [|intros; apply halts_tret].
  apply (rookLoop_halts b _ _ _ _
           (Z.to_nat (Z.max (Z.abs (tr - fr)) (Z.abs (tc - fc)) - 1))); [lia|].
  destruct Hline as [E|E]; apply Z.eqb_eq in E; subst; case_tests; lia.
Qed.

Lemma bishopLike_halts (b : board) (from to : square) :
  result (bishopLike b from to) <> OutOfFuel.
Proof.
  destruct from as [fr fc], to as [tr tc]. unfold bishopLike, loopFuel. cbn [fst snd].
  destruct (Z.abs (fr - tr) =? Z.abs (fc - tc)) eqn:Hdiag; [|apply halts_tret].
  apply Z.eqb_eq in Hdiag.
  apply halts_tbind; [|intros; apply halts_tret].
  destruct (Z.eq_dec fr tr) as [->|Hne].
  - replace (tr >? tr) with false by (symmetry; rewrite Z.gtb_ltb; apply Z.ltb_irrefl).
    apply bishopLoop_away; lia.
  - apply (bishopLoop_halts b _ _ _ _ (Z.to_nat (Z.abs (tr - fr) - 1))); [lia|].
    left. case_tests; lia.
Qed.

(** For every board, every pair of integer squares and every piece, each of
    the loops of the evaluator ends within its budget. *)
Lemma isLegalMove_halts (from to : square) (piece : string) (b : board) (am : bool) :
  result (isLegalMove from to piece b am) <> OutOfFuel.
Proof.
  unfold isLegalMove. apply halts_tbind; [apply halts_readCell|]. intros target.
  repeat apply halts_orElse; try apply halts_tret.
  - unfold whitePawn. destruct from as [fr fc], to as [tr tc].
    destruct (piece =? "P")%string; [|apply halts_tret].
    apply halts_tbind.
    + repeat match goal with
             | |- result (if ?c then _ else _) <> OutOfFuel => destruct c
             | |- result (tret _) <> OutOfFuel => apply halts_tret
             | |- result (tbind _ _) <> OutOfFuel =>
                 apply halts_tbind; [apply halts_readCell | intros ?]
             end.
    + intros [v|]; [apply halts_tret|].
      repeat match goal with
             | |- result (if ?c then _ else _) <> OutOfFuel => destruct c
             | |- result (tret _) <> OutOfFuel => apply halts_tret
             end.
  - unfold blackPawn. destruct from as [fr fc], to as [tr tc].
    destruct (piece =? "p")%string; [|apply halts_tret].
    apply halts_tbind.
    + repeat match goal with
             | |- result (if ?c then _ else _) <> OutOfFuel => destruct c
             | |- result (tret _) <> OutOfFuel => apply halts_tret
             | |- result (tbind _ _) <> OutOfFuel =>
                 apply halts_tbind; [apply halts_readCell | intros ?]
             end.
    + intros [v|]; [apply halts_tret|].
      repeat match goal with
             | |- result (if ?c then _ else _) <> OutOfFuel => destruct c
             | |- result (tret _) <> OutOfFuel => apply halts_tret
             end.
  - destruct (toLowerCase piece =? "r")%string;
      [apply rookLike_halts | apply halts_tret].
  - destruct (toLowerCase piece =? "b")%string;
      [apply bishopLike_halts | apply halts_tret].
  - destruct (toLowerCase piece =? "q")%string; [|apply halts_tret].
    apply halts_tbind; [apply rookLike_halts|].
    intros [v|]; [apply halts_tret | apply bishopLike_halts].
  - destruct ((toLowerCase piece =? "n")%string && knightJump from to);
      apply halts_tret.
  - destruct ((toLowerCase piece =? "k")%string && kingStep from to);
      apply halts_tret.
Qed.

(* ------------------------------------------------------------------ *)
(** *** The squares between two squares *)

Lemma In_pathFrom (rs cs : Z) (sq : square) :
  forall (n : nat) (r c : Z),
    In sq (pathFrom r c rs cs n) <->
    exists k, 0 <= k < Z.of_nat n /\ sq = (r + k * rs, c + k * cs).
Proof.
  induction n as [|n IH]; intros r c; cbn [pathFrom In].
  - split; [contradiction | intros (k & Hk & _); lia].
  - rewrite IH. split.
    + intros [<-|(k & Hk & ->)].
      * exists 0. split; [lia | f_equal; ring].
      * exists (k + 1). split; [lia | f_equal; ring].
    + intros (k & Hk & ->). destruct (Z.eq_dec k 0) as [->|Hk0].
      * left. f_equal; ring.
      * right. exists (k - 1). split; [lia | f_equal; ring].
Qed.

Lemma between_strictly (from to sq : square) :
  strictlyBetween from to sq -> In sq (between from to).
Proof.
  destruct from as [fr fc], to as [tr tc].
  intros (dr & dc & n & k & Hdr & Hdc & Hnz & Hk & Hto & ->).
  cbn [fst snd] in *. injection Hto as -> ->.
  unfold between. cbn [fst snd]. apply In_pathFrom.
  exists (k - 1).
  assert (Hsr : Z.sgn (fr + n * dr - fr) = dr) by nia.
  assert (Hsc : Z.sgn (fc + n * dc - fc) = dc) by nia.
  rewrite Hsr, Hsc. split; [nia | f_equal; ring].
Qed.

Lemma strictly_between (from to sq : square) :
  sameLine from to || sameDiagonal from to = true ->
  In sq (between from to) -> strictlyBetween from to sq.
Proof.
  destruct from as [fr fc], to as [tr tc]. unfold sameLine, sameDiagonal, between.
  cbn [fst snd]. intros Hal Hin. apply In_pathFrom in Hin as (k & Hk & ->).
  exists (Z.sgn (tr - fr)), (Z.sgn (tc - fc)),
    (Z.max (Z.abs (tr - fr)) (Z.abs (tc - fc))), (k + 1).
  cbn [fst snd].
  apply orb_true_iff in Hal. rewrite orb_true_iff, !Z.eqb_eq in Hal.
  repeat split; try lia.
  - f_equal; nia.
  - f_equal; ring.
Qed.

Lemma between_inBoard (from to sq : square) :
  inBoard from = true -> inBoard to = true ->
  sameLine from to || sameDiagonal from to = true ->
  In sq (between from to) -> inBoard sq = true /\ sq <> to.
Proof.
  destruct from as [fr fc], to as [tr tc]. unfold sameLine, sameDiagonal, between.
  cbn [fst snd]. intros Hf Ht Hal Hin.
  apply inBoard_range in Hf, Ht. apply In_pathFrom in Hin as (k & Hk & ->).
  apply orb_true_iff in Hal. rewrite orb_true_iff, !Z.eqb_eq in Hal.
  split.
  - apply inBoard_range. nia.
  - intros Heq. injection Heq as H1 H2. nia.
Qed.

Lemma pseudoLegal_sliding (b : board) (from to : square) (piece : string) (am : bool) :
  In piece ["r"; "R"; "b"; "B"; "q"; "Q"] ->
  pseudoLegal b from to piece am = onPattern piece from to && clearPath b from to.
Proof.
  intros Hp. cbn [In] in Hp.
  destruct Hp as [<-|[<-|[<-|[<-|[<-|[<-|[]]]]]]]; reflexivity.
Qed.

Lemma onPattern_aligned (piece : string) (from to : square) :
  onPattern piece from to = true -> sameLine from to || sameDiagonal from to = true.
Proof.
  unfold onPattern.
  destruct (toLowerCase piece =? "r")%string; [intros ->; reflexivity|].
  destruct (toLowerCase piece =? "b")%string; [intros ->; apply orb_true_r|].
  destruct (toLowerCase piece =? "q")%string; [trivial | discriminate].
Qed.

Lemma result_tbind {A B : Type} (m : run A) (k : A -> run B) :
  result (tbind m k)
  = match result m with
    | Ret a => result (k a)
    | TypeError => TypeError
    | OutOfFuel => OutOfFuel
    end.
Proof. unfold tbind. now destruct (result m). Qed.

Lemma result_orElse (blk : run (option bool)) (next : run bool) :
  result (orElse blk next)
  = match result blk with
    | Ret (Some v) => Ret v
    | Ret None => result next
    | TypeError => TypeError
    | OutOfFuel => OutOfFuel
    end.
Proof.
  unfold orElse. rewrite result_tbind. destruct (result blk) as [[v|]| |]; reflexivity.
Qed.

Lemma bishopLoop_never_true (b : board) (tr tc : Z) :
  forall (fuel : nat) (r c : Z),
    r < tr -> c < tc ->
    result (bishopLoop fuel b tr tc (-1) (-1) r c) <> Ret true.
Proof.
  induction fuel as [|fuel IH]; intros r c Hr Hc; cbn [bishopLoop]; [discriminate|].
  replace (negb (r =? tr) && negb (c =? tc)) with true.
  2:{ symmetry. apply andb_true_iff. split; apply negb_true_iff; apply Z.eqb_neq; lia. }
  rewrite result_tbind. destruct (result (readCell b r c)) as [x| |]; try discriminate.
  destruct (truthy x); [discriminate|]. apply IH; lia.
Qed.

(** A bishop asked about its own square is never told that it reaches it. *)
Lemma isLegalMove_bishop_self (b : board) (s : square) (piece : string) (am : bool) :
  shape8 b = true -> inBoard s = true -> toLowerCase piece = "b" ->
  result (isLegalMove s s piece b am) <> Ret true.
Proof.
  destruct s as [r c]. intros Hb Hin Hlow.
  assert (HP : (piece =? "P")%string = false).
  { destruct (piece =? "P")%string eqn:E; [|reflexivity].
    apply String.eqb_eq in E. subst. discriminate Hlow. }
  assert (Hp : (piece =? "p")%string = false).
  { destruct (piece =? "p")%string eqn:E; [|reflexivity].
    apply String.eqb_eq in E. subst. discriminate Hlow. }
  unfold isLegalMove. cbn [fst snd]. rewrite result_tbind, (readCell_in b r c Hb Hin).
  cbn [result]. rewrite result_orElse. unfold whitePawn. rewrite HP. cbn [result tret].
  rewrite result_orElse. unfold blackPawn. rewrite Hp. cbn [result tret].
  rewrite Hlow. rewrite result_orElse.
  change ("b" =? "r")%string with false. cbn [result tret].
  rewrite result_orElse. change ("b" =? "b")%string with true.
  unfold bishopLike. rewrite !Z.sub_diag, Z.gtb_ltb, Z.ltb_irrefl.
  rewrite (Z.gtb_ltb c c), Z.ltb_irrefl.
  change (Z.abs 0 =? Z.abs 0) with true. cbv iota. rewrite result_tbind.
  pose proof (bishopLoop_never_true b r c (loopFuel b (r, c) (r, c)) (r + -1) (c + -1)
                ltac:(lia) ltac:(lia)) as Hloop.
  destruct (result (bishopLoop _ _ _ _ _ _ _ _)) as [[|]| |];
    cbn [result tret]; congruence.
Qed.

(* ================================================================== *)
(** ** The evaluator: sliding pieces, pawns, termination, destination colour *)

(** C3.  For a rook, bishop or queen, on every 8x8 board and for every pair
    of distinct squares of the board: if some square strictly between the
    origin and the destination (in any of the eight directions) is occupied,
    the evaluator returns false; if the two squares are on the piece's
    pattern and every square strictly between them is empty, it returns true,
    whatever the destination holds. *)
Theorem C3_sliding_blocked_by_intermediate
  (b : board) (from to : square) (piece : string) (am : bool) :
  shape8 b = true -> inBoard from = true -> inBoard to = true -> from <> to ->
  In piece ["r"; "R"; "b"; "B"; "q"; "Q"] ->
  (forall sq, strictlyBetween from to sq -> truthy (cellAt b sq) = true ->
     result (isLegalMove from to piece b am) = Ret false)
  /\ (onPattern piece from to = true ->
      (forall sq, strictlyBetween from to sq -> truthy (cellAt b sq) = false) ->
      result (isLegalMove from to piece b am) = Ret true).
Proof.
  intros Hb Hf Ht Hne Hp.
  destruct (isLegalMove_yields b from to piece am Hb Hf Ht (or_introl Hne)) as [Hres _].
  rewrite Hres, (pseudoLegal_sliding b from to piece am Hp). split.
  - intros sq Hsq Hocc. f_equal. apply andb_false_iff. right.
    unfold clearPath. apply not_true_is_false. intros Hall.
    rewrite forallb_forall in Hall.
    specialize (Hall sq (between_strictly from to sq Hsq)).
    unfold emptyAt in Hall. rewrite Hocc in Hall. discriminate.
  - intros Hpat Hempty. rewrite Hpat. cbn [andb]. f_equal.
    unfold clearPath. apply forallb_forall. intros sq Hin.
    unfold emptyAt. rewrite Hempty; [reflexivity|].
    apply strictly_between; [now apply (onPattern_aligned piece) | exact Hin].
Qed.

Lemma C3_witness :
  result (isLegalMove (7, 0) (4, 0) "R" initialBoard false) = Ret false
  /\ result (isLegalMove (5, 7) (2, 4) "b" initialBoard true) = Ret true.
Proof.
  split.
  - refine (proj1 (C3_sliding_blocked_by_intermediate
                     initialBoard (7, 0) (4, 0) "R" false _ _ _ _ _) (6, 0) _ _);
      try reflexivity.
    + discriminate.
    + cbn [In]. auto.
    + exists (-1), 0, 3, 1. cbn [fst snd]. repeat split; lia.
  - refine (proj2 (C3_sliding_blocked_by_intermediate
                     initialBoard (5, 7) (2, 4) "b" true _ _ _ _ _) _ _);
      try reflexivity.
    + discriminate.
    + cbn [In]. auto.
    + intros sq (dr & dc & n & k & Hdr & Hdc & Hnz & Hk & Hto & ->).
      pose proof (f_equal fst Hto) as H1. pose proof (f_equal snd Hto) as H2.
      cbn [fst snd] in *.
      assert (Hr : dr = -1 \/ dr = 0 \/ dr = 1) by lia.
      assert (Hc : dc = -1 \/ dc = 0 \/ dc = 1) by lia.
      assert (Hd : dr = -1 /\ dc = -1 /\ n = 3)
        by (destruct Hr as [->|[->| ->]], Hc as [->|[->| ->]]; lia).
      destruct Hd as (-> & -> & ->).
      assert (Hk' : k = 1 \/ k = 2) by lia.
      destruct Hk' as [->| ->]; reflexivity.
Defined.

(** C4.  For a white pawn (['P']) and a black pawn (['p']), on every 8x8
    board and every pair of squares of the board, the evaluator returns
    exactly the pawn rule: one square straight forward onto an empty square;
    two squares straight forward from the starting rank (row 6 for White,
    row 1 for Black) when the intermediate and the destination squares are
    empty; one square diagonally forward when the destination holds a piece
    of the other colour, or, in attack mode, whatever it holds.  In
    particular a pawn on its starting rank with an empty square ahead and an
    occupied square two ahead has exactly one destination in its column. *)
Theorem C4_pawn_moves (b : board) (from to : square) (am : bool) :
  shape8 b = true -> inBoard from = true -> inBoard to = true ->
  result (isLegalMove from to "P" b am) = Ret (pawnRule white b from to am)
  /\ result (isLegalMove from to "p" b am) = Ret (pawnRule black b from to am)
  /\ (fst from = 6 -> snd to = snd from ->
      emptyAt b (5, snd from) = true -> emptyAt b (4, snd from) = false ->
      result (isLegalMove from to "P" b false) = Ret (fst to =? 5))
  /\ (fst from = 1 -> snd to = snd from ->
      emptyAt b (2, snd from) = true -> emptyAt b (3, snd from) = false ->
      result (isLegalMove from to "p" b false) = Ret (fst to =? 2)).
Proof.
  intros Hb Hf Ht.
  assert (HP : forall a, result (isLegalMove from to "P" b a)
                         = Ret (pawnRule white b from to a)).
  { intros a. apply (isLegalMove_yields b from to "P" a Hb Hf Ht).
    right. discriminate. }
  assert (Hp : forall a, result (isLegalMove from to "p" b a)
                         = Ret (pawnRule black b from to a)).
  { intros a. apply (isLegalMove_yields b from to "p" a Hb Hf Ht).
    right. discriminate. }
  repeat split; [apply HP | apply Hp | |].
  - intros Hrow Hcol H5 H4. rewrite HP. f_equal.
    destruct from as [fr fc], to as [tr tc]. cbn [fst snd] in *. subst fr tc.
    unfold pawnRule. cbn [fst snd orb andb opponentOf].
    change (6 + -1) with 5. change (6 + 2 * -1) with 4. rewrite H5.
    destruct (Z.eq_dec tr 5) as [->|H5'];
      [rewrite ?H5; case_tests; reflexivity|].
    destruct (Z.eq_dec tr 4) as [->|H4'];
      [rewrite ?H4; case_tests; reflexivity|].
    case_tests; reflexivity.
  - intros Hrow Hcol H2 H3. rewrite Hp. f_equal.
    destruct from as [fr fc], to as [tr tc]. cbn [fst snd] in *. subst fr tc.
    unfold pawnRule. cbn [fst snd orb andb opponentOf].
    change (1 + 1) with 2. change (1 + 2 * 1) with 3. rewrite H2.
    destruct (Z.eq_dec tr 2) as [->|H2'];
      [rewrite ?H2; case_tests; reflexivity|].
    destruct (Z.eq_dec tr 3) as [->|H3'];
      [rewrite ?H3; case_tests; reflexivity|].
    case_tests; reflexivity.
Qed.

Lemma C4_witness :
  result (isLegalMove (6, 1) (5, 1) "P" blockedPawns false) = Ret true
  /\ result (isLegalMove (6, 1) (4, 1) "P" blockedPawns false) = Ret false
  /\ result (isLegalMove (1, 6) (2, 6) "p" blockedPawns false) = Ret true
  /\ result (isLegalMove (1, 6) (3, 6) "p" blockedPawns false) = Ret false.
Proof.
  split; [|split; [|split]].
  - exact (proj1 (proj2 (proj2
             (C4_pawn_moves blockedPawns (6, 1) (5, 1) false
                eq_refl eq_refl eq_refl))) eq_refl eq_refl eq_refl eq_refl).
  - exact (proj1 (proj2 (proj2
             (C4_pawn_moves blockedPawns (6, 1) (4, 1) false
                eq_refl eq_refl eq_refl))) eq_refl eq_refl eq_refl eq_refl).
  - exact (proj2 (proj2 (proj2
             (C4_pawn_moves blockedPawns (1, 6) (2, 6) false
                eq_refl eq_refl eq_refl))) eq_refl eq_refl eq_refl eq_refl).
  - exact (proj2 (proj2 (proj2
             (C4_pawn_moves blockedPawns (1, 6) (3, 6) false
                eq_refl eq_refl eq_refl))) eq_refl eq_refl eq_refl eq_refl).
Defined.

(** C6, as the code has it.  On every 8x8 board, for every piece string and
    every pair of squares of the board, the evaluator terminates; when the
    two squares are distinct, or the piece is not a bishop, it returns a
    boolean and indexes only squares of the board.  For a bishop asked about
    its own square -- a question no caller asks, each of them skipping the
    origin as a destination -- the run ends with false or with a
    [TypeError]. *)
Theorem C6_terminates_reads_inside_board
  (b : board) (from to : square) (piece : string) (am : bool) :
  shape8 b = true -> inBoard from = true -> inBoard to = true ->
  result (isLegalMove from to piece b am) <> OutOfFuel
  /\ (from <> to \/ toLowerCase piece <> "b" ->
      (exists v, result (isLegalMove from to piece b am) = Ret v)
      /\ Forall (fun sq => inBoard sq = true)
           (reads (isLegalMove from to piece b am)))
  /\ (from = to -> toLowerCase piece = "b" ->
      result (isLegalMove from to piece b am) = Ret false
      \/ result (isLegalMove from to piece b am) = TypeError).
Proof.
  intros Hb Hf Ht. split; [apply isLegalMove_halts|]. split.
  - intros Hne.
    destruct (isLegalMove_yields b from to piece am Hb Hf Ht Hne) as [Hr Hrd].
    split; [eexists; exact Hr | exact Hrd].
  - intros <- Hlow.
    pose proof (isLegalMove_halts from from piece b am) as Hh.
    pose proof (isLegalMove_bishop_self b from piece am Hb Hf Hlow) as Hn.
    destruct (result (isLegalMove from from piece b am)) as [[|]| |]; auto;
      congruence.
Qed.

Lemma C6_witness :
  result (isLegalMove (7, 2) (7, 2) "B" initialBoard false) <> OutOfFuel
  /\ (exists v, result (isLegalMove (7, 3) (7, 3) "Q" initialBoard true) = Ret v)
  /\ Forall (fun sq => inBoard sq = true)
       (reads (isLegalMove (7, 3) (7, 3) "Q" initialBoard true)).
Proof.
  split.
  - exact (proj1 (C6_terminates_reads_inside_board
                    initialBoard (7, 2) (7, 2) "B" false eq_refl eq_refl eq_refl)).
  - apply (proj1 (proj2 (C6_terminates_reads_inside_board
                    initialBoard (7, 3) (7, 3) "Q" true eq_refl eq_refl eq_refl))).
    right. discriminate.
Defined.

(** C6, as stated, fails: asked whether the bishop on a8 reaches a8, the
    evaluator indexes row -1, column -1 and ends in a [TypeError]. *)
Lemma C6_counterexample :
  shape8 initialBoard = true /\ inBoard (0, 0) = true
  /\ result (isLegalMove (0, 0) (0, 0) "b" initialBoard false) = TypeError
  /\ In (-1, -1) (reads (isLegalMove (0, 0) (0, 0) "b" initialBoard false))
  /\ inBoard (-1, -1) = false.
Proof.
  repeat split; try reflexivity. vm_compute. auto.
Qed.

Lemma truthy_swapCase (s : string) : truthy (swapCase s) = truthy s.
Proof. now destruct s. Qed.

Lemma forallb_agree {A : Type} (f g : A -> bool) (l : list A) :
  (forall x, In x l -> f x = g x) -> forallb f l = forallb g l.
Proof.
  induction l as [|a l IH]; intros H; cbn [forallb]; [reflexivity|].
  rewrite (H a (or_introl eq_refl)), IH; [reflexivity|].
  intros x Hx. apply H. now right.
Qed.

Lemma clearPath_agree (b b' : board) (from to : square) :
  inBoard from = true -> inBoard to = true ->
  (forall sq, inBoard sq = true -> sq <> to -> cellAt b' sq = cellAt b sq) ->
  sameLine from to || sameDiagonal from to = true ->
  clearPath b' from to = clearPath b from to.
Proof.
  intros Hf Ht Hsame Hal. unfold clearPath. apply forallb_agree.
  intros sq Hin. destruct (between_inBoard from to sq Hf Ht Hal Hin) as [Hi Hn].
  unfold emptyAt. now rewrite Hsame.
Qed.

(** C7, as the code has it.  With attack mode off, for every piece, every
    pair of distinct squares of the board that is not a one-square forward
    diagonal step of a pawn, and every two 8x8 boards that are identical
    except that the occupant of the destination has the other colour (same
    kind), the evaluator returns the same result on both boards.  (On a
    pawn's forward diagonal the result does depend on that colour: the step
    is a capture of a piece of the other colour.) *)
Theorem C7_destination_colour_irrelevant
  (b b' : board) (from to : square) (piece : string) :
  shape8 b = true -> shape8 b' = true ->
  inBoard from = true -> inBoard to = true -> from <> to ->
  (forall sq, inBoard sq = true -> sq <> to -> cellAt b' sq = cellAt b sq) ->
  truthy (cellAt b to) = true ->
  cellAt b' to = swapCase (cellAt b to) ->
  pawnDiagonal piece from to = false ->
  result (isLegalMove from to piece b false)
  = result (isLegalMove from to piece b' false).
Proof.
  intros Hb Hb' Hf Ht Hne Hsame Hocc Hswap Hpd.
  destruct (isLegalMove_yields b from to piece false Hb Hf Ht (or_introl Hne)) as [-> _].
  destruct (isLegalMove_yields b' from to piece false Hb' Hf Ht (or_introl Hne)) as [-> _].
  f_equal. unfold pseudoLegal.
  assert (Hcl : sameLine from to || sameDiagonal from to = true ->
                clearPath b' from to = clearPath b from to)
    by (intros; now apply clearPath_agree).
  assert (Het : emptyAt b' to = emptyAt b to).
  { unfold emptyAt. now rewrite Hswap, truthy_swapCase. }
  assert (Hmid : forall r, 0 <= r <= 7 -> r <> fst to ->
                           emptyAt b' (r, snd from) = emptyAt b (r, snd from)).
  { intros r Hr Hrt. unfold emptyAt. rewrite Hsame; [reflexivity | |].
    - destruct from as [fr fc]. apply inBoard_range in Hf.
      apply inBoard_range. cbn [snd]. lia.
    - intros E. apply Hrt. now rewrite <- E. }
  unfold pawnDiagonal in Hpd.
  destruct (piece =? "P")%string eqn:EP.
  { apply String.eqb_eq in EP. subst piece.
    unfold pawnRule. destruct from as [fr fc], to as [tr tc].
    cbn [fst snd andb orb] in *. rewrite Het.
    change (6 + -1) with 5. change (6 + 2 * -1) with 4.
    change (fr + -1) with (fr - 1).
    change ("P" =? "P")%string with true in Hpd.
    change ("P" =? "p")%string with false in Hpd.
    cbn [andb orb] in Hpd. rewrite orb_false_r in Hpd. rewrite Hpd.
    destruct (Z.eq_dec tr 4) as [->|H4].
    - now rewrite (Hmid 5) by lia.
    - replace (tr =? 4) with false by (symmetry; now apply Z.eqb_neq).
      now rewrite !andb_false_r. }
  destruct (piece =? "p")%string eqn:Ep.
  { apply String.eqb_eq in Ep. subst piece.
    unfold pawnRule. destruct from as [fr fc], to as [tr tc].
    cbn [fst snd andb orb] in *. rewrite Het.
    change (1 + 1) with 2. change (1 + 2 * 1) with 3.
    cbn [andb orb] in Hpd. rewrite Hpd.
    destruct (Z.eq_dec tr 3) as [->|H3].
    - now rewrite (Hmid 2) by lia.
    - replace (tr =? 3) with false by (symmetry; now apply Z.eqb_neq).
      now rewrite !andb_false_r. }
  destruct (toLowerCase piece =? "r")%string.
  { destruct (sameLine from to) eqn:E; [|reflexivity]. cbn [andb].
    symmetry. apply Hcl. rewrite ?E. reflexivity. }
  destruct (toLowerCase piece =? "b")%string.
  { destruct (sameDiagonal from to) eqn:E; [|reflexivity]. cbn [andb].
    symmetry. apply Hcl. rewrite ?E. apply orb_true_r. }
  destruct (toLowerCase piece =? "q")%string.
  { destruct (sameLine from to || sameDiagonal from to) eqn:E; [|reflexivity].
    cbn [andb]. symmetry. now apply Hcl. }
  reflexivity.
Qed.

Lemma In_idx8 (i : Z) : In i idx8 <-> 0 <= i <= 7.
Proof.
  unfold idx8; cbn [In]. split.
  - intros H. repeat (destruct H as [<-|H]; [lia|]). contradiction.
  - intros H.
    assert (E : i = 0 \/ i = 1 \/ i = 2 \/ i = 3 \/ i = 4 \/ i = 5 \/ i = 6 \/ i = 7)
      by lia.
    intuition auto.
Qed.

Lemma In_allSquares (sq : square) : In sq allSquares <-> inBoard sq = true.
Proof.
  destruct sq as [r c]. rewrite inBoard_range. unfold allSquares.
  rewrite in_flat_map. split.
  - intros (r' & Hr & Hc). apply in_map_iff in Hc as (c' & E & Hc).
    injection E as -> ->. now rewrite <- !In_idx8.
  - intros [Hr Hc]. exists r. split; [now apply In_idx8|].
    apply in_map. now apply In_idx8.
Qed.

Lemma square_eqb_eq (s t : square) : square_eqb s t = true <-> s = t.
Proof.
  destruct s, t. unfold square_eqb; cbn [fst snd].
  rewrite andb_true_iff, !Z.eqb_eq. split; [intros [-> ->] | intros [= -> ->]]; auto.
Qed.

Lemma agreeExcept_sound (b b' : board) (to : square) :
  agreeExcept b b' to = true ->
  forall sq, inBoard sq = true -> sq <> to -> cellAt b' sq = cellAt b sq.
Proof.
  unfold agreeExcept. rewrite forallb_forall. intros H sq Hin Hne.
  specialize (H sq (proj2 (In_allSquares sq) Hin)).
  apply orb_true_iff in H as [H|H].
  - apply square_eqb_eq in H. contradiction.
  - now apply String.eqb_eq.
Qed.

Lemma C7_witness :
  result (isLegalMove (7, 6) (5, 5) "N" blackOnF3 false)
  = result (isLegalMove (7, 6) (5, 5) "N" whiteOnF3 false).
Proof.
  apply C7_destination_colour_irrelevant; try reflexivity.
  - discriminate.
  - now apply agreeExcept_sound.
Defined.

(** C7, as stated, fails: the white pawn on e2 may step to f3 when a black
    pawn stands there and may not when a white pawn does. *)
Lemma C7_counterexample :
  shape8 blackOnF3 = true /\ shape8 whiteOnF3 = true
  /\ inBoard (6, 4) = true /\ inBoard (5, 5) = true /\ (6, 4) <> (5, 5)
  /\ (forall sq, inBoard sq = true -> sq <> (5, 5) ->
        cellAt whiteOnF3 sq = cellAt blackOnF3 sq)
  /\ cellAt whiteOnF3 (5, 5) = swapCase (cellAt blackOnF3 (5, 5))
  /\ result (isLegalMove (6, 4) (5, 5) "P" blackOnF3 false) = Ret true
  /\ result (isLegalMove (6, 4) (5, 5) "P" whiteOnF3 false) = Ret false.
Proof.
  repeat split; try reflexivity.
  - discriminate.
  - now apply agreeExcept_sound.
Qed.

(* ================================================================== *)
(** ** Loops over the board *)

Lemma idx8_sorted : StronglySorted Z.lt idx8.
Proof. unfold idx8. repeat constructor. Qed.

Lemma forEach_sorted {A : Type} (body : Z -> outcome (option A)) (l : list Z) :
  StronglySorted Z.lt l ->
  (forall i, In i l -> exists o, body i = Ret o) ->
  exists o, forEach l body = Ret o /\
    match o with
    | None => forall i, In i l -> body i = Ret None
    | Some a => exists i, In i l /\ body i = Ret (Some a)
                          /\ forall j, In j l -> j < i -> body j = Ret None
    end.
Proof.
  induction l as [|i l IH]; intros Hs Hbody; cbn [forEach].
  - exists None. split; [reflexivity | intros i []].
  - apply StronglySorted_inv in Hs as [Hs Hall].
    rewrite Forall_forall in Hall.
    destruct (Hbody i (or_introl eq_refl)) as [o Ho]. rewrite Ho. cbn [bind].
    destruct o as [a|].
    + exists (Some a). split; [reflexivity|]. exists i.
      repeat split; [now left | exact Ho |].
      intros j [<-|Hj] Hlt; [lia|]. specialize (Hall j Hj). lia.
    + destruct (IH Hs (fun j Hj => Hbody j (or_intror Hj))) as (o & Ho' & Hspec).
      exists o. split; [exact Ho'|]. destruct o as [a|].
      * destruct Hspec as (i' & Hi' & Hb' & Hbefore). exists i'.
        repeat split; [now right | exact Hb' |].
        intros j [<-|Hj] Hlt; [exact Ho | now apply Hbefore].
      * intros j [<-|Hj]; [exact Ho | now apply Hspec].
Qed.

(** The two nested loops over rows and columns. *)
Lemma scan_spec {A : Type} (body : Z -> Z -> outcome (option A)) :
  (forall r c, inBoard (r, c) = true -> exists o, body r c = Ret o) ->
  exists o,
    forEach idx8 (fun r => forEach idx8 (fun c => body r c)) = Ret o /\
    match o with
    | None => forall r c, inBoard (r, c) = true -> body r c = Ret None
    | Some a =>
        exists r c, inBoard (r, c) = true /\ body r c = Ret (Some a)
                    /\ forall r' c', inBoard (r', c') = true ->
                                     earlier (r', c') (r, c) = true ->
                                     body r' c' = Ret None
    end.
Proof.
  intros Hbody.
  assert (Hrow : forall r, In r idx8 ->
            exists o, forEach idx8 (fun c => body r c) = Ret o /\
              match o with
              | None => forall c, In c idx8 -> body r c = Ret None
              | Some a => exists c, In c idx8 /\ body r c = Ret (Some a)
                            /\ forall j, In j idx8 -> j < c -> body r j = Ret None
              end).
  { intros r Hr. apply forEach_sorted; [apply idx8_sorted|].
    intros c Hc. apply Hbody. apply inBoard_range. now rewrite <- !In_idx8. }
  destruct (forEach_sorted (fun r => forEach idx8 (fun c => body r c)) idx8
              idx8_sorted) as (o & Ho & Hspec).
  { intros r Hr. destruct (Hrow r Hr) as (o & Ho & _). now exists o. }
  exists o. split; [exact Ho|]. destruct o as [a|].
  - destruct Hspec as (r & Hr & Hbr & Hbefore).
    destruct (Hrow r Hr) as (o & Ho' & Hspec'). rewrite Hbr in Ho'.
    injection Ho' as <-. destruct Hspec' as (c & Hc & Hbc & Hbefore').
    exists r, c. repeat split.
    + apply inBoard_range. now rewrite <- !In_idx8.
    + exact Hbc.
    + intros r' c' Hin He. unfold earlier in He. cbn [fst snd] in He.
      apply orb_true_iff in He. rewrite andb_true_iff, Z.eqb_eq, !Z.ltb_lt in He.
      destruct He as [Hlt|[-> Hlt]];
        apply inBoard_range in Hin; rewrite <- !In_idx8 in Hin; destruct Hin as [Hr' Hc'].
      * specialize (Hbefore r' Hr' Hlt). destruct (Hrow r' Hr') as (o & Ho' & Hspec').
        rewrite Hbefore in Ho'. injection Ho' as <-. now apply Hspec'.
      * now apply Hbefore'.
  - intros r c Hin. apply inBoard_range in Hin. rewrite <- !In_idx8 in Hin.
    destruct Hin as [Hr Hc]. specialize (Hspec r Hr).
    destruct (Hrow r Hr) as (o & Ho' & Hspec'). rewrite Hspec in Ho'.
    injection Ho' as <-. now apply Hspec'.
Qed.

(* ================================================================== *)
(** ** Writing a square of a copied board *)

Lemma rowSet_spec (v : string) :
  forall (rw : list string) (k : nat),
    (k < List.length rw)%nat ->
    List.length (rowSet rw k v) = List.length rw
    /\ forall m, nth m (rowSet rw k v) "" = if (m =? k)%nat then v else nth m rw "".
Proof.
  induction rw as [|x rw IH]; intros k Hk; cbn [List.length] in Hk; [lia|].
  destruct k as [|k]; cbn [rowSet List.length].
  - split; [reflexivity|]. intros [|m]; reflexivity.
  - destruct (IH k ltac:(lia)) as [Hl Hn]. split; [now rewrite Hl|].
    intros [|m]; cbn [nth]; [reflexivity|]. apply Hn.
Qed.

Lemma rowsSet_spec (c : Z) (v : string) :
  forall (b : board) (n : nat),
    (n < List.length b)%nat ->
    exists b', rowsSet b n c v = Ret b'
      /\ List.length b' = List.length b
      /\ forall m, nth m b' []
                   = if (m =? n)%nat
                     then (if c <? 0 then nth n b []
                           else rowSet (nth n b []) (Z.to_nat c) v)
                     else nth m b [].
Proof.
  induction b as [|rw b IH]; intros n Hn; cbn [List.length] in Hn; [lia|].
  destruct n as [|n]; cbn [rowsSet].
  - eexists. split; [reflexivity|]. split; [reflexivity|].
    intros [|m]; reflexivity.
  - destruct (IH n ltac:(lia)) as (b' & Hb' & Hl & Hnth). rewrite Hb'. cbn [bind].
    eexists. split; [reflexivity|]. split; [cbn [List.length]; now rewrite Hl|].
    intros [|m]; cbn [nth]; [reflexivity|]. apply Hnth.
Qed.

Lemma shape8_intro (b : board) :
  List.length b = 8%nat ->
  (forall m, (m < 8)%nat -> List.length (nth m b []) = 8%nat) ->
  shape8 b = true.
Proof.
  intros Hl Hrows. unfold shape8. rewrite Hl. cbn [Nat.eqb andb].
  apply forallb_forall. intros rw Hin.
  apply (In_nth _ _ []) in Hin as (m & Hm & <-).
  apply Nat.eqb_eq. apply Hrows. lia.
Qed.

Lemma boardSet_spec (b : board) (sq : square) (v : string) :
  shape8 b = true -> inBoard sq = true ->
  exists b', boardSet b (fst sq) (snd sq) v = Ret b'
    /\ shape8 b' = true
    /\ forall s, inBoard s = true ->
                 cellAt b' s = if square_eqb s sq then v else cellAt b s.
Proof.
  destruct sq as [r c]. intros Hb Hin. apply inBoard_range in Hin as [Hr Hc].
  cbn [fst snd]. unfold boardSet.
  destruct (r <? 0) eqn:E; [apply Z.ltb_lt in E; lia|].
  pose proof (shape8_length b Hb) as Hl.
  destruct (rowsSet_spec c v b (Z.to_nat r) ltac:(lia)) as (b' & Hb' & Hl' & Hnth).
  exists b'. split; [exact Hb'|].
  assert (Hc0 : (c <? 0) = false) by (apply Z.ltb_ge; lia).
  rewrite Hc0 in Hnth.
  assert (Hrow : List.length (nth (Z.to_nat r) b []) = 8%nat)
    by (apply shape8_row; [assumption | lia]).
  destruct (rowSet_spec v (nth (Z.to_nat r) b []) (Z.to_nat c) ltac:(lia))
    as [Hlen Hcell].
  split.
  - apply shape8_intro; [congruence|]. intros m Hm. rewrite Hnth.
    destruct (m =? Z.to_nat r)%nat; [congruence | now apply shape8_row].
  - intros [r' c'] Hs. apply inBoard_range in Hs as [Hr' Hc'].
    unfold cellAt, square_eqb. cbn [fst snd]. rewrite Hnth.
    destruct (Z.eq_dec r' r) as [->|Hne].
    + rewrite Nat.eqb_refl, Z.eqb_refl, Hcell. cbn [andb].
      destruct (Z.eq_dec c' c) as [->|Hne'].
      * now rewrite Nat.eqb_refl, Z.eqb_refl.
      * replace (Z.to_nat c' =? Z.to_nat c)%nat with false
          by (symmetry; apply Nat.eqb_neq; lia).
        replace (c' =? c) with false by (symmetry; apply Z.eqb_neq; lia).
        reflexivity.
    + replace (Z.to_nat r' =? Z.to_nat r)%nat with false
        by (symmetry; apply Nat.eqb_neq; lia).
      replace (r' =? r) with false by (symmetry; apply Z.eqb_neq; lia).
      reflexivity.
Qed.

(** The simulated board: the piece on the destination, the origin empty,
    the other squares as they were. *)
Lemma simulateMove_spec (b : board) (from to : square) (piece : string) :
  shape8 b = true -> inBoard from = true -> inBoard to = true ->
  exists b', simulateMove b from to piece = Ret b'
    /\ shape8 b' = true
    /\ forall s, inBoard s = true ->
                 cellAt b' s = if square_eqb s from then ""
                               else if square_eqb s to then piece
                                    else cellAt b s.
Proof.
  intros Hb Hf Ht. unfold simulateMove.
  destruct (boardSet_spec b to piece Hb Ht) as (b1 & H1 & Hs1 & Hc1).
  rewrite H1. cbn [bind].
  destruct (boardSet_spec b1 from "" Hs1 Hf) as (b2 & H2 & Hs2 & Hc2).
  exists b2. repeat split; [exact H2 | exact Hs2 |].
  intros s Hs. rewrite (Hc2 s Hs). destruct (square_eqb s from); [reflexivity|].
  now apply Hc1.
Qed.

Lemma validBoard_cells (b : board) :
  validBoard b = true <->
  shape8 b = true /\ forall sq, inBoard sq = true -> validCell (cellAt b sq) = true.
Proof.
  unfold validBoard. rewrite andb_true_iff, forallb_forall.
  split; intros [Hs Hc]; (split; [exact Hs|]); intros sq Hsq; apply Hc;
    now apply In_allSquares.
Qed.

(* ================================================================== *)
(** ** King search, attack oracle and check detector *)

Lemma findKing_spec (b : board) (c : color) :
  shape8 b = true ->
  exists o, findKing b c = Ret o /\
    match o with
    | None => forall sq, inBoard sq = true -> cellAt b sq <> kingOf c
    | Some k => inBoard k = true /\ cellAt b k = kingOf c
                /\ forall sq, inBoard sq = true -> earlier sq k = true ->
                              cellAt b sq <> kingOf c
    end.
Proof.
  intros Hb. unfold findKing. fold (kingOf c).
  assert (Hbody : forall r col, inBoard (r, col) = true ->
            (x <- boardGet b r col ;;
             if (x =? kingOf c)%string then Ret (Some (r, col)) else Ret None)
            = Ret (if (cellAt b (r, col) =? kingOf c)%string
                   then Some (r, col) else None)).
  { intros r col Hin. rewrite (boardGet_in b r col Hb Hin). cbn [bind].
    now destruct (cellAt b (r, col) =? kingOf c)%string. }
  destruct (scan_spec (fun r col =>
              x <- boardGet b r col ;;
              if (x =? kingOf c)%string then Ret (Some (r, col)) else Ret None))
    as (o & Ho & Hspec).
  { intros r col Hin. rewrite (Hbody r col Hin). eauto. }
  exists o. split; [exact Ho|]. destruct o as [k|].
  - destruct Hspec as (r & col & Hin & Hk & Hbefore).
    rewrite (Hbody r col Hin) in Hk.
    destruct (cellAt b (r, col) =? kingOf c)%string eqn:E; [|discriminate].
    injection Hk as <-. apply String.eqb_eq in E. repeat split; try assumption.
    intros [r' c'] Hin' Hearly. specialize (Hbefore r' c' Hin' Hearly).
    rewrite (Hbody r' c' Hin') in Hbefore.
    destruct (cellAt b (r', c') =? kingOf c)%string eqn:E'; [discriminate|].
    now apply String.eqb_neq.
  - intros [r col] Hin. specialize (Hspec r col Hin). rewrite (Hbody r col Hin) in Hspec.
    destruct (cellAt b (r, col) =? kingOf c)%string eqn:E; [discriminate|].
    now apply String.eqb_neq.
Qed.

Lemma isColor_truthy (c : color) (s : string) : isColor c s = true -> truthy s = true.
Proof.
  unfold isColor, isWhite, isBlack. destruct (truthy s); [reflexivity|].
  now destruct c.
Qed.

(** The attack oracle on an 8x8 board, when the queried square does not hold
    a bishop of the attacking colour. *)
Lemma isSquareAttacked_spec (b : board) (row col : Z) (byColor : color) :
  shape8 b = true -> inBoard (row, col) = true ->
  (isColor byColor (cellAt b (row, col)) = true ->
   toLowerCase (cellAt b (row, col)) <> "b") ->
  exists v, isSquareAttacked b row col byColor = Ret v /\
    (v = true <->
     exists from, inBoard from = true
                  /\ isColor byColor (cellAt b from) = true
                  /\ pseudoLegal b from (row, col) (cellAt b from) true = true).
Proof.
  intros Hb Hin Hnb. unfold isSquareAttacked.
  set (body := fun r c =>
         piece <- boardGet b r c ;;
         if negb (truthy piece) then Ret None
         else if isColor byColor piece then
                ok <- result (isLegalMove (r, c) (row, col) piece b true) ;;
                if ok then Ret (Some true) else Ret None
              else Ret None).
  assert (Hbody : forall r c, inBoard (r, c) = true ->
            body r c = Ret (if isColor byColor (cellAt b (r, c))
                               && pseudoLegal b (r, c) (row, col) (cellAt b (r, c)) true
                            then Some true else None)).
  { intros r c Hrc. unfold body. rewrite (boardGet_in b r c Hb Hrc). cbn [bind].
    destruct (isColor byColor (cellAt b (r, c))) eqn:Hc.
    - rewrite (isColor_truthy _ _ Hc). cbn [negb andb].
      destruct (isLegalMove_yields b (r, c) (row, col) (cellAt b (r, c)) true
                  Hb Hrc Hin) as [-> _].
      + destruct (Z.eq_dec r row) as [->|Hr]; [|left; congruence].
        destruct (Z.eq_dec c col) as [->|Hc']; [|left; congruence].
        right. now apply Hnb.
      + cbn [bind]. now destruct (pseudoLegal _ _ _ _ _).
    - cbn [andb]. now destruct (negb (truthy (cellAt b (r, c)))). }
  destruct (scan_spec body) as (o & Ho & Hspec).
  { intros r c Hrc. rewrite (Hbody r c Hrc). eauto. }
  pose proof Ho as Ho'. cbv beta delta [body] in Ho'. rewrite Ho'. clear Ho'.
  cbn [bind]. eexists. split; [reflexivity|].
  destruct o as [a|].
  - destruct Hspec as (r & c & Hrc & Hk & _). rewrite (Hbody r c Hrc) in Hk.
    destruct (isColor byColor (cellAt b (r, c))
              && pseudoLegal b (r, c) (row, col) (cellAt b (r, c)) true) eqn:E;
      [|discriminate].
    injection Hk as <-. apply andb_true_iff in E as [E1 E2].
    split; [intros _; exists (r, c); auto | reflexivity].
  - split; [discriminate|]. intros ([r c] & Hrc & E1 & E2).
    specialize (Hspec r c Hrc). rewrite (Hbody r c Hrc), E1, E2 in Hspec.
    discriminate.
Qed.

Lemma king_not_bishop (b : board) (c byColor : color) (k : square) :
  cellAt b k = kingOf c ->
  isColor byColor (cellAt b k) = true -> toLowerCase (cellAt b k) <> "b".
Proof. intros -> _. now destruct c. Qed.

Lemma isInCheck_total (b : board) (c : color) :
  shape8 b = true -> exists v, isInCheck b c = Ret v.
Proof.
  intros Hb. unfold isInCheck.
  destruct (findKing_spec b c Hb) as (o & -> & Hspec). cbn [bind].
  destruct o as [[kr kc]|]; [|eauto].
  destruct Hspec as (Hin & Hk & _).
  destruct (isSquareAttacked_spec b kr kc (opponentOf c) Hb Hin
              (king_not_bishop b c _ _ Hk)) as (v & Hv & _).
  eauto.
Qed.

Lemma earlier_cases (s t : square) :
  s = t \/ earlier s t = true \/ earlier t s = true.
Proof.
  destruct s as [r c], t as [r' c']. unfold earlier. cbn [fst snd].
  destruct (Z.lt_trichotomy r r') as [H|[->|H]].
  - right; left. apply orb_true_iff. left. now apply Z.ltb_lt.
  - rewrite Z.eqb_refl, Z.ltb_irrefl. cbn [orb andb].
    destruct (Z.lt_trichotomy c c') as [H|[->|H]].
    + right; left. now apply Z.ltb_lt.
    + now left.
    + right; right. now apply Z.ltb_lt.
  - right; right. apply orb_true_iff. left. now apply Z.ltb_lt.
Qed.

Lemma all_squares_check (p : square -> bool) :
  forallb p allSquares = true -> forall sq, inBoard sq = true -> p sq = true.
Proof.
  rewrite forallb_forall. intros H sq Hin. apply H. now apply In_allSquares.
Qed.

(** C8.  On every 8x8 board and for every colour the check detector returns
    a boolean.  If no square holds that colour's king it returns false;
    otherwise it returns what the attack oracle says about the square of the
    first king found, scanning rows then columns, attacked by the other
    colour. *)
Theorem C8_check_detector_without_king (b : board) (c : color) :
  shape8 b = true ->
  (exists v, isInCheck b c = Ret v)
  /\ ((forall sq, inBoard sq = true -> cellAt b sq <> kingOf c) ->
      isInCheck b c = Ret false)
  /\ (forall k, inBoard k = true -> cellAt b k = kingOf c ->
        (forall sq, inBoard sq = true -> earlier sq k = true ->
                    cellAt b sq <> kingOf c) ->
        isInCheck b c = isSquareAttacked b (fst k) (snd k) (opponentOf c)).
Proof.
  intros Hb. split; [now apply isInCheck_total|].
  unfold isInCheck. destruct (findKing_spec b c Hb) as (o & -> & Hspec). cbn [bind].
  split.
  - intros Hnone. destruct o as [k|]; [|reflexivity].
    destruct Hspec as (Hin & Hk & _). now destruct (Hnone k Hin).
  - intros k Hin Hk Hfirst. destruct o as [k'|].
    + destruct Hspec as (Hin' & Hk' & Hfirst').
      destruct (earlier_cases k k') as [<-|[He|He]].
      * now destruct k.
      * now destruct (Hfirst' k Hin He).
      * now destruct (Hfirst k' Hin' He).
    + now destruct (Hspec k Hin).
Qed.

Lemma C8_witness :
  (exists v, isInCheck kingless black = Ret v)
  /\ isInCheck kingless white = Ret false
  /\ isInCheck kingless black = isSquareAttacked kingless 0 4 white.
Proof.
  split; [|split].
  - exact (proj1 (C8_check_detector_without_king kingless black eq_refl)).
  - apply (proj1 (proj2 (C8_check_detector_without_king kingless white eq_refl))).
    intros sq Hin.
    pose proof (all_squares_check
                  (fun s => negb (cellAt kingless s =? kingOf white)%string)
                  eq_refl sq Hin) as H.
    apply negb_true_iff in H. now apply String.eqb_neq.
  - apply (proj2 (proj2 (C8_check_detector_without_king kingless black eq_refl))
             (0, 4) eq_refl eq_refl).
    intros sq Hin He.
    pose proof (all_squares_check
                  (fun s => negb (earlier s (0, 4))
                            || negb (cellAt kingless s =? kingOf black)%string)
                  eq_refl sq Hin) as H.
    cbv beta in H. rewrite He in H. cbn [negb orb] in H.
    apply negb_true_iff in H. now apply String.eqb_neq.
Defined.

Lemma between_self (s : square) : between s s = [].
Proof.
  unfold between. rewrite !Z.sub_diag. reflexivity.
Qed.

Lemma pseudoLegal_self (b : board) (s : square) (piece : string) (am : bool) :
  In piece ["R"; "Q"; "K"; "r"; "q"; "k"] ->
  pseudoLegal b s s piece am = true.
Proof.
  intros Hp.
  assert (Hl : sameLine s s = true) by (unfold sameLine; now rewrite Z.eqb_refl).
  assert (Hc : clearPath b s s = true) by (unfold clearPath; now rewrite between_self).
  assert (Hk : kingStep s s = true).
  { destruct s as [r c]. unfold kingStep. now rewrite !Z.sub_diag. }
  cbn [In] in Hp.
  destruct Hp as [<-|[<-|[<-|[<-|[<-|[<-|[]]]]]]];
    cbv beta iota delta [pseudoLegal]; simpl; rewrite ?Hl, ?Hc, ?Hk; reflexivity.
Qed.

(** C10.  On every 8x8 board, if a square holds a rook, queen or king of
    colour [c], the evaluator in attack mode accepts the move of that piece
    from the square to itself, and the attack oracle reports the square as
    attacked by [c]. *)
Theorem C10_own_square_counts_as_attacked (b : board) (s : square) (c : color) :
  shape8 b = true -> inBoard s = true ->
  In (cellAt b s) ["R"; "Q"; "K"; "r"; "q"; "k"] ->
  isColor c (cellAt b s) = true ->
  result (isLegalMove s s (cellAt b s) b true) = Ret true
  /\ isSquareAttacked b (fst s) (snd s) c = Ret true.
Proof.
  intros Hb Hin Hp Hc.
  assert (Hnb : toLowerCase (cellAt b s) <> "b").
  { cbn [In] in Hp.
    destruct Hp as [<-|[<-|[<-|[<-|[<-|[<-|[]]]]]]]; discriminate. }
  split.
  - destruct (isLegalMove_yields b s s (cellAt b s) true Hb Hin Hin (or_intror Hnb))
      as [-> _].
    now rewrite pseudoLegal_self.
  - destruct s as [row col]. cbn [fst snd].
    destruct (isSquareAttacked_spec b row col c Hb Hin (fun _ => Hnb))
      as (v & -> & Hv).
    f_equal. apply Hv. exists (row, col). repeat split; try assumption.
    now apply pseudoLegal_self.
Qed.

Lemma C10_witness :
  result (isLegalMove (7, 0) (7, 0) "R" initialBoard true) = Ret true
  /\ isSquareAttacked initialBoard 7 0 white = Ret true.
Proof.
  apply (C10_own_square_counts_as_attacked initialBoard (7, 0) white);
    try reflexivity.
  cbn [In]. auto.
Defined.

(* ================================================================== *)
(** ** The legal-move filter *)

Lemma simulate_then_check (b : board) (c : color) (from to : square) (piece : string) :
  shape8 b = true -> inBoard from = true -> inBoard to = true ->
  exists b' v, simulateMove b from to piece = Ret b' /\ shape8 b' = true
               /\ isInCheck b' c = Ret v.
Proof.
  intros Hb Hf Ht.
  destruct (simulateMove_spec b from to piece Hb Hf Ht) as (b' & Hs & Hb' & _).
  destruct (isInCheck_total b' c Hb') as (v & Hv). eauto.
Qed.

Lemma tryDestination_spec (b : board) (c : color) (from : square) (tr tc : Z) :
  shape8 b = true -> inBoard from = true -> inBoard (tr, tc) = true ->
  exists o, tryDestination b c from (cellAt b from) tr tc = Ret o
    /\ (o = Some true \/ o = None)
    /\ (o = Some true <->
        from <> (tr, tc)
        /\ isColor c (cellAt b (tr, tc)) = false
        /\ result (isLegalMove from (tr, tc) (cellAt b from) b false) = Ret true
        /\ safeAfter b c from (tr, tc)).
Proof.
  intros Hb Hf Ht. unfold tryDestination. destruct from as [fr fc]. cbn [fst snd].
  destruct ((fr =? tr) && (fc =? tc)) eqn:Esame.
  { exists None. repeat split; auto; try discriminate.
    intros (Hne & _). apply andb_true_iff in Esame as [E1 E2].
    apply Z.eqb_eq in E1, E2. subst. now destruct Hne. }
  assert (Hne : (fr, fc) <> (tr, tc)).
  { intros [= -> ->]. now rewrite !Z.eqb_refl in Esame. }
  rewrite (boardGet_in b tr tc Hb Ht). cbn [bind].
  destruct (isColor c (cellAt b (tr, tc))) eqn:Ecol.
  { rewrite (isColor_truthy _ _ Ecol). cbn [andb].
    exists None. repeat split; auto; try discriminate.
    intros (_ & H & _). discriminate. }
  rewrite andb_false_r.
  destruct (isLegalMove_yields b (fr, fc) (tr, tc) (cellAt b (fr, fc)) false
              Hb Hf Ht (or_introl Hne)) as [Hres _].
  rewrite Hres. cbn [bind].
  destruct (pseudoLegal b (fr, fc) (tr, tc) (cellAt b (fr, fc)) false).
  2:{ exists None. repeat split; auto; try discriminate.
      intros (_ & _ & H & _). discriminate. }
  destruct (simulate_then_check b c (fr, fc) (tr, tc) (cellAt b (fr, fc)) Hb Hf Ht)
    as (b' & v & Hsim & Hb' & Hchk).
  rewrite Hsim. cbn [bind]. rewrite Hchk. cbn [bind].
  destruct v; cbn [negb].
  - exists None. repeat split; auto; try discriminate.
    intros (_ & _ & _ & b'' & Hsim' & Hchk'). congruence.
  - exists (Some true). repeat split; auto.
    exists b'. auto.
Qed.

Lemma legalMove_distinct (b : board) (c : color) (from to : square) :
  legalMove b c from to -> from <> to.
Proof. intros (H1 & H2 & _) ->. congruence. Qed.

Lemma anyMoveFrom_spec (b : board) (c : color) (fr fc : Z) :
  shape8 b = true -> inBoard (fr, fc) = true ->
  exists o, anyMoveFrom b c fr fc = Ret o
    /\ (o = Some true \/ o = None)
    /\ (o = Some true <->
        exists to, inBoard to = true /\ legalMove b c (fr, fc) to).
Proof.
  intros Hb Hf. unfold anyMoveFrom. rewrite (boardGet_in b fr fc Hb Hf). cbn [bind].
  destruct (isColor c (cellAt b (fr, fc))) eqn:Ecol.
  2:{ exists None.
      assert (E : (if negb (truthy (cellAt b (fr, fc)))
                   then Ret None else @Ret (option bool) None) = Ret None)
        by now destruct (negb _).
      rewrite E. repeat split; auto; try discriminate.
      intros (to & _ & H & _). congruence. }
  rewrite (isColor_truthy _ _ Ecol). cbn [negb].
  destruct (scan_spec (fun toRow toCol =>
              tryDestination b c (fr, fc) (cellAt b (fr, fc)) toRow toCol))
    as (o & Ho & Hspec).
  { intros tr tc Ht.
    destruct (tryDestination_spec b c (fr, fc) tr tc Hb Hf Ht) as (o & Ho & _).
    eauto. }
  exists o. split; [exact Ho|]. destruct o as [a|].
  - destruct Hspec as (tr & tc & Ht & Hk & _).
    destruct (tryDestination_spec b c (fr, fc) tr tc Hb Hf Ht)
      as (o & Ho' & Hform & Hiff).
    rewrite Hk in Ho'. injection Ho' as <-.
    destruct Hform as [Hform|Hform]; [|discriminate]. injection Hform as ->.
    split; [now left|]. split; [|reflexivity]. intros _.
    exists (tr, tc). split; [exact Ht|].
    destruct (proj1 Hiff eq_refl) as (_ & H2 & H3 & H4). now repeat split.
  - split; [now right|]. split; [discriminate|].
    intros ([tr tc] & Ht & Hlegal).
    destruct (tryDestination_spec b c (fr, fc) tr tc Hb Hf Ht)
      as (o & Ho' & _ & Hiff).
    rewrite (Hspec tr tc Ht) in Ho'. injection Ho' as <-.
    assert (H : @None bool = Some true); [|discriminate].
    apply Hiff. pose proof (legalMove_distinct _ _ _ _ Hlegal).
    destruct Hlegal as (_ & H2 & H3 & H4). now repeat split.
Qed.

Lemma hasAnyLegalMoves_spec (b : board) (c : color) :
  shape8 b = true ->
  exists v, hasAnyLegalMoves b c = Ret v
    /\ (v = true <->
        exists from to, inBoard from = true /\ inBoard to = true
                        /\ legalMove b c from to).
Proof.
  intros Hb. unfold hasAnyLegalMoves.
  destruct (scan_spec (fun fromRow fromCol => anyMoveFrom b c fromRow fromCol))
    as (o & Ho & Hspec).
  { intros fr fc Hf. destruct (anyMoveFrom_spec b c fr fc Hb Hf) as (o & Ho & _).
    eauto. }
  rewrite Ho. cbn [bind]. eexists. split; [reflexivity|]. destruct o as [a|].
  - destruct Hspec as (fr & fc & Hf & Hk & _).
    destruct (anyMoveFrom_spec b c fr fc Hb Hf) as (o & Ho' & Hform & Hiff).
    rewrite Hk in Ho'. injection Ho' as <-.
    destruct Hform as [Hform|Hform]; [|discriminate]. injection Hform as ->.
    split; [|reflexivity]. intros _.
    destruct (proj1 Hiff eq_refl) as (to & Ht & Hlegal).
    exists (fr, fc), to. auto.
  - split; [discriminate|]. intros ([fr fc] & to & Hf & Ht & Hlegal).
    destruct (anyMoveFrom_spec b c fr fc Hb Hf) as (o & Ho' & _ & Hiff).
    rewrite (Hspec fr fc Hf) in Ho'. injection Ho' as <-.
    assert (H : @None bool = Some true); [|discriminate].
    apply Hiff. eauto.
Qed.

Lemma forPush_spec (body : Z -> outcome (list square)) (l : list Z) :
  (forall i, In i l -> exists xs, body i = Ret xs) ->
  exists ys, forPush l body = Ret ys /\
    forall sq, In sq ys <-> exists i xs, In i l /\ body i = Ret xs /\ In sq xs.
Proof.
  induction l as [|i l IH]; intros Hbody; cbn [forPush].
  - exists []. split; [reflexivity|]. intros sq. split; [intros [] | intros (i & xs & [] & _)].
  - destruct (Hbody i (or_introl eq_refl)) as (xs & Hxs). rewrite Hxs. cbn [bind].
    destruct (IH (fun j Hj => Hbody j (or_intror Hj))) as (ys & Hys & Hspec).
    rewrite Hys. cbn [bind]. exists (xs ++ ys). split; [reflexivity|].
    intros sq. rewrite in_app_iff, Hspec. split.
    + intros [H|(j & zs & Hj & Hb & Hin)].
      * exists i, xs. auto using in_eq.
      * exists j, zs. auto using in_cons.
    + intros (j & zs & [<-|Hj] & Hb & Hin).
      * left. congruence.
      * right. eauto.
Qed.

Lemma pushDestination_try (g : game) (row col : Z) (piece : string) (tr tc : Z) :
  pushDestination g row col piece tr tc
  = (o <- tryDestination (gameBoard g) (currentPlayer g) (row, col) piece tr tc ;;
     Ret (match o with Some _ => [(tr, tc)] | None => [] end)).
Proof.
  unfold pushDestination, tryDestination. cbn [fst snd].
  destruct ((row =? tr) && (col =? tc)); [reflexivity|].
  destruct (boardGet (gameBoard g) tr tc) as [target| |]; try reflexivity. cbn [bind].
  destruct (truthy target && isColor (currentPlayer g) target); [reflexivity|].
  destruct (result (isLegalMove (row, col) (tr, tc) piece (gameBoard g) false))
    as [ok| |]; try reflexivity. cbn [bind].
  destruct ok; [|reflexivity].
  destruct (simulateMove (gameBoard g) (row, col) (tr, tc) piece) as [nb| |];
    try reflexivity. cbn [bind].
  destruct (isInCheck nb (currentPlayer g)) as [chk| |]; try reflexivity. cbn [bind].
  now destruct chk.
Qed.

Lemma getPossibleMoves_spec (g : game) (from : square) :
  shape8 (gameBoard g) = true -> inBoard from = true ->
  isColor (currentPlayer g) (cellAt (gameBoard g) from) = true ->
  exists moves, getPossibleMoves g (fst from) (snd from) = Ret moves /\
    forall to, In to moves <->
               inBoard to = true /\ legalMove (gameBoard g) (currentPlayer g) from to.
Proof.
  destruct from as [fr fc]. intros Hb Hf Hcol. cbn [fst snd].
  unfold getPossibleMoves. rewrite (boardGet_in _ fr fc Hb Hf). cbn [bind].
  rewrite (isColor_truthy _ _ Hcol). cbn [negb].
  set (b := gameBoard g) in *. set (cp := currentPlayer g) in *.
  assert (Hcell : forall tr tc, inBoard (tr, tc) = true ->
            exists xs, pushDestination g fr fc (cellAt b (fr, fc)) tr tc = Ret xs /\
              forall sq, In sq xs <-> sq = (tr, tc) /\ legalMove b cp (fr, fc) (tr, tc)).
  { intros tr tc Ht. rewrite pushDestination_try. fold b cp.
    destruct (tryDestination_spec b cp (fr, fc) tr tc Hb Hf Ht)
      as (o & -> & Hform & Hiff).
    cbn [bind]. eexists. split; [reflexivity|]. intros sq.
    destruct Hform as [-> | ->].
    - destruct (proj1 Hiff eq_refl) as (_ & H2 & H3 & H4). cbn [In]. split.
      + intros [<-|[]]. split; [reflexivity|]. now repeat split.
      + intros [-> _]. now left.
    - cbn [In]. split; [intros []|]. intros [-> Hlegal].
      assert (H : @None bool = Some true); [|discriminate].
      apply Hiff. pose proof (legalMove_distinct _ _ _ _ Hlegal).
      destruct Hlegal as (_ & H2 & H3 & H4). now repeat split. }
  assert (Hrow : forall tr, In tr idx8 ->
            exists xs, forPush idx8 (fun tc =>
                         pushDestination g fr fc (cellAt b (fr, fc)) tr tc) = Ret xs /\
              forall sq, In sq xs <->
                         fst sq = tr /\ inBoard sq = true /\ legalMove b cp (fr, fc) sq).
  { intros tr Htr.
    destruct (forPush_spec (fun tc =>
                pushDestination g fr fc (cellAt b (fr, fc)) tr tc) idx8)
      as (xs & Hxs & Hspec).
    { intros tc Htc. destruct (Hcell tr tc) as (xs & Hxs & _); [|eauto].
      apply inBoard_range. now rewrite <- !In_idx8. }
    exists xs. split; [exact Hxs|]. intros sq. rewrite Hspec. split.
    - intros (tc & zs & Htc & Hb' & Hin).
      assert (Ht : inBoard (tr, tc) = true)
        by (apply inBoard_range; now rewrite <- !In_idx8).
      destruct (Hcell tr tc Ht) as (zs' & Hzs & Hiff). rewrite Hb' in Hzs.
      injection Hzs as <-. apply Hiff in Hin as [-> Hlegal]. auto.
    - intros (<- & Hin & Hlegal). destruct sq as [tr tc]. cbn [fst].
      pose proof Hin as Hin'. apply inBoard_range in Hin'. rewrite <- !In_idx8 in Hin'.
      destruct (Hcell tr tc Hin) as (zs & Hzs & Hiff).
      exists tc, zs. repeat split; [tauto | exact Hzs |]. apply Hiff. auto. }
  destruct (forPush_spec (fun tr => forPush idx8 (fun tc =>
              pushDestination g fr fc (cellAt b (fr, fc)) tr tc)) idx8)
    as (ys & Hys & Hspec).
  { intros tr Htr. destruct (Hrow tr Htr) as (xs & Hxs & _). eauto. }
  exists ys. split; [exact Hys|]. intros sq. rewrite Hspec. split.
  - intros (tr & xs & Htr & Hb' & Hin).
    destruct (Hrow tr Htr) as (xs' & Hxs & Hiff). rewrite Hb' in Hxs.
    injection Hxs as <-. apply Hiff in Hin. tauto.
  - intros (Hin & Hlegal). pose proof Hin as Hin'. destruct sq as [tr tc].
    apply inBoard_range in Hin'. rewrite <- !In_idx8 in Hin'.
    destruct (Hrow tr (proj1 Hin')) as (xs & Hxs & Hiff).
    exists tr, xs. repeat split; [tauto | exact Hxs |]. apply Hiff. auto.
Qed.

(** An 8x8 board is determined by its 64 cells. *)
Lemma board_ext (b1 b2 : board) :
  shape8 b1 = true -> shape8 b2 = true ->
  (forall sq, inBoard sq = true -> cellAt b1 sq = cellAt b2 sq) -> b1 = b2.
Proof.
  intros H1 H2 Hc. apply (nth_ext b1 b2 [] []).
  - now rewrite (shape8_length _ H1), (shape8_length _ H2).
  - intros i Hi. rewrite (shape8_length _ H1) in Hi.
    apply (nth_ext _ _ "" "").
    + now rewrite (shape8_row _ i H1 Hi), (shape8_row _ i H2 Hi).
    + intros j Hj. rewrite (shape8_row _ i H1 Hi) in Hj.
      specialize (Hc (Z.of_nat i, Z.of_nat j)).
      unfold cellAt in Hc. cbn [fst snd] in Hc. rewrite !Nat2Z.id in Hc.
      apply Hc. apply inBoard_range. lia.
Qed.

Lemma square_eqb_neq (s t : square) : square_eqb s t = false <-> s <> t.
Proof.
  split.
  - intros E ->. assert (H : square_eqb t t = true) by now apply square_eqb_eq.
    congruence.
  - intros Hne. destruct (square_eqb s t) eqn:E; [|reflexivity].
    apply square_eqb_eq in E. contradiction.
Qed.

(** The board that lines 69-71, 107-109 and 311-313 build is the board
    after the move, and no other board is. *)
Lemma simulateMove_boardAfterMove (b : board) (from to : square) (b' : board) :
  shape8 b = true -> inBoard from = true -> inBoard to = true -> from <> to ->
  simulateMove b from to (cellAt b from) = Ret b' <-> boardAfterMove b from to b'.
Proof.
  intros Hb Hf Ht Hne.
  destruct (simulateMove_spec b from to (cellAt b from) Hb Hf Ht)
    as (b'' & Hsim & Hb'' & Hspec).
  assert (Hft : square_eqb to from = false)
    by (apply square_eqb_neq; congruence).
  assert (Htt : square_eqb to to = true) by now apply square_eqb_eq.
  assert (Hff : square_eqb from from = true) by now apply square_eqb_eq.
  split.
  - intros Hsim'. rewrite Hsim in Hsim'. injection Hsim' as <-.
    split; [exact Hb''|]. split; [|split].
    + now rewrite (Hspec to Ht), Hft, Htt.
    + now rewrite (Hspec from Hf), Hff.
    + intros sq Hsq H1 H2. rewrite (Hspec sq Hsq).
      apply square_eqb_neq in H1, H2. now rewrite H1, H2.
  - intros (Hb' & Hto & Hfrom & Hrest). rewrite Hsim. f_equal.
    apply board_ext; [exact Hb'' | exact Hb' |].
    intros sq Hsq. rewrite (Hspec sq Hsq).
    destruct (square_eqb sq from) eqn:E1.
    { apply square_eqb_eq in E1. subst sq. now rewrite Hfrom. }
    destruct (square_eqb sq to) eqn:E2.
    { apply square_eqb_eq in E2. subst sq. now rewrite Hto. }
    apply square_eqb_neq in E1, E2. symmetry. now apply Hrest.
Qed.

(** The move filter, with the simulated board described cell by cell. *)
Lemma legalMove_boardAfterMove (b : board) (c : color) (from to : square) :
  shape8 b = true -> inBoard from = true -> inBoard to = true ->
  legalMove b c from to <->
  isColor c (cellAt b from) = true
  /\ isColor c (cellAt b to) = false
  /\ result (isLegalMove from to (cellAt b from) b false) = Ret true
  /\ exists b', boardAfterMove b from to b' /\ isInCheck b' c = Ret false.
Proof.
  intros Hb Hf Ht. unfold legalMove, safeAfter. split.
  - intros (H1 & H2 & H3 & b' & Hsim & Hchk).
    assert (Hne : from <> to) by (intros ->; congruence).
    repeat split; try assumption. exists b'. split; [|exact Hchk].
    now apply simulateMove_boardAfterMove.
  - intros (H1 & H2 & H3 & b' & Hmoved & Hchk).
    assert (Hne : from <> to) by (intros ->; congruence).
    repeat split; try assumption. exists b'. split; [|exact Hchk].
    now apply simulateMove_boardAfterMove.
Qed.

(** C1.  On every 8x8 board, for the side to move [c] and every origin
    holding a piece of [c], [getPossibleMoves] returns a list of squares.
    For every square [to] of the list the board that the program builds by
    moving the piece is the board after the move -- 8x8, with the piece on
    [to], the origin empty and every other square as before -- and [c] is
    not in check on it.  A square of the board is in the list exactly when
    the evaluator accepts the move, the destination holds no piece of [c],
    and [c] is not in check on the board after the move.
    [hasAnyLegalMoves] returns true exactly when some origin with a piece of
    [c] and some destination pass the same filter. *)
Theorem C1_enumerated_moves_leave_king_safe (g : game) (from : square) :
  shape8 (gameBoard g) = true -> inBoard from = true ->
  isColor (currentPlayer g) (cellAt (gameBoard g) from) = true ->
  (exists moves, getPossibleMoves g (fst from) (snd from) = Ret moves
     /\ (forall to, In to moves ->
           exists b', simulateMove (gameBoard g) from to (cellAt (gameBoard g) from)
                      = Ret b'
                      /\ shape8 b' = true
                      /\ cellAt b' to = cellAt (gameBoard g) from
                      /\ cellAt b' from = ""
                      /\ (forall sq, inBoard sq = true -> sq <> from -> sq <> to ->
                                     cellAt b' sq = cellAt (gameBoard g) sq)
                      /\ isInCheck b' (currentPlayer g) = Ret false)
     /\ (forall to, In to moves <->
           inBoard to = true
           /\ result (isLegalMove from to (cellAt (gameBoard g) from)
                        (gameBoard g) false) = Ret true
           /\ isColor (currentPlayer g) (cellAt (gameBoard g) to) = false
           /\ exists b', boardAfterMove (gameBoard g) from to b'
                         /\ isInCheck b' (currentPlayer g) = Ret false))
  /\ (exists v, hasAnyLegalMoves (gameBoard g) (currentPlayer g) = Ret v
        /\ (v = true <->
            exists origin to b',
              inBoard origin = true /\ inBoard to = true
              /\ isColor (currentPlayer g) (cellAt (gameBoard g) origin) = true
              /\ isColor (currentPlayer g) (cellAt (gameBoard g) to) = false
              /\ result (isLegalMove origin to (cellAt (gameBoard g) origin)
                           (gameBoard g) false) = Ret true
              /\ boardAfterMove (gameBoard g) origin to b'
              /\ isInCheck b' (currentPlayer g) = Ret false)).
Proof.
  intros Hb Hf Hcol. split.
  - destruct (getPossibleMoves_spec g from Hb Hf Hcol) as (moves & Hm & Hspec).
    exists moves. split; [exact Hm|]. split.
    + intros to Hin. apply Hspec in Hin as (Ht & Hlegal).
      pose proof (legalMove_distinct _ _ _ _ Hlegal) as Hne.
      destruct Hlegal as (_ & _ & _ & b' & Hsim & Hchk).
      exists b'. split; [exact Hsim|].
      apply (simulateMove_boardAfterMove _ _ _ _ Hb Hf Ht Hne) in Hsim
        as (H1 & H2 & H3 & H4).
      auto.
    + intros to. rewrite Hspec. split.
      * intros (Ht & Hlegal).
        destruct (proj1 (legalMove_boardAfterMove _ _ _ _ Hb Hf Ht) Hlegal)
          as (_ & H2 & H3 & H4).
        auto.
      * intros (Ht & H1 & H2 & H3). split; [exact Ht|].
        exact (proj2 (legalMove_boardAfterMove _ _ _ _ Hb Hf Ht)
                 (conj Hcol (conj H2 (conj H1 H3)))).
  - destruct (hasAnyLegalMoves_spec (gameBoard g) (currentPlayer g) Hb)
      as (v & Hv & Hiff).
    exists v. split; [exact Hv|]. rewrite Hiff. split.
    + intros (origin & to & Ho & Ht & Hlegal).
      destruct (proj1 (legalMove_boardAfterMove _ _ _ _ Hb Ho Ht) Hlegal)
        as (H1 & H2 & H3 & b' & H4 & H5).
      exists origin, to, b'. auto 10.
    + intros (origin & to & b' & Ho & Ht & H1 & H2 & H3 & H4 & H5).
      exists origin, to. split; [exact Ho|]. split; [exact Ht|].
      exact (proj2 (legalMove_boardAfterMove _ _ _ _ Hb Ho Ht)
               (conj H1 (conj H2 (conj H3 (ex_intro _ b' (conj H4 H5)))))).
Qed.

Lemma C1_witness :
  (exists moves,
      getPossibleMoves (mkGame initialBoard white None) 7 1 = Ret moves
      /\ (forall to, In to moves ->
            exists b', simulateMove initialBoard (7, 1) to "N" = Ret b'
                       /\ shape8 b' = true
                       /\ cellAt b' to = "N"
                       /\ cellAt b' (7, 1) = ""
                       /\ (forall sq, inBoard sq = true -> sq <> (7, 1) -> sq <> to ->
                                      cellAt b' sq = cellAt initialBoard sq)
                       /\ isInCheck b' white = Ret false)
      /\ (forall to, In to moves <->
            inBoard to = true
            /\ result (isLegalMove (7, 1) to "N" initialBoard false) = Ret true
            /\ isColor white (cellAt initialBoard to) = false
            /\ exists b', boardAfterMove initialBoard (7, 1) to b'
                          /\ isInCheck b' white = Ret false))
  /\ (exists v, hasAnyLegalMoves initialBoard white = Ret v
        /\ (v = true <->
            exists origin to b',
              inBoard origin = true /\ inBoard to = true
              /\ isColor white (cellAt initialBoard origin) = true
              /\ isColor white (cellAt initialBoard to) = false
              /\ result (isLegalMove origin to (cellAt initialBoard origin)
                           initialBoard false) = Ret true
              /\ boardAfterMove initialBoard origin to b'
              /\ isInCheck b' white = Ret false)).
Proof.
  exact (C1_enumerated_moves_leave_king_safe
           (mkGame initialBoard white None) (7, 1) eq_refl eq_refl eq_refl).
Defined.

(* ================================================================== *)
(** ** The click handler *)

Lemma validCell_cases (s : string) :
  validCell s = true -> s = "" \/ In s pieceLetters.
Proof.
  unfold validCell. intros H. apply orb_true_iff in H as [H|H].
  - left. now destruct s.
  - right. apply existsb_exists in H as (x & Hx & E).
    apply String.eqb_eq in E. now subst.
Qed.

Lemma mayLandOn_valid (cp : color) (s : string) :
  validCell s = true -> mayLandOn cp s = negb (isColor cp s).
Proof.
  intros H. apply validCell_cases in H as [->|H]; [now destruct cp|].
  unfold pieceLetters in H. cbn [In] in H.
  repeat (destruct H as [<-|H]; [now destruct cp|]). contradiction.
Qed.

Lemma clickAccepts_legal (b : board) (cp : color) (from to : square) :
  validBoard b = true -> inBoard to = true ->
  clickAccepts b cp from to <-> legalMove b cp from to.
Proof.
  intros Hv Ht. apply validBoard_cells in Hv as [_ Hcells].
  unfold clickAccepts, legalMove. rewrite (mayLandOn_valid cp _ (Hcells to Ht)).
  rewrite negb_true_iff. split.
  - tauto.
  - intros (H1 & H2 & H3 & H4). repeat split; try assumption.
    intros ->. congruence.
Qed.

(** What one click does, on an 8x8 board, when the clicked square and the
    selected square (if any) are squares of the board. *)
Lemma handleSquareClick_cases (g : game) (to : square) :
  shape8 (gameBoard g) = true -> inBoard to = true ->
  (forall s, selected g = Some s -> inBoard s = true) ->
  exists g' al, handleSquareClick g (fst to) (snd to) = Ret (g', al) /\
    ((exists from b',
        selected g = Some from
        /\ from <> to
        /\ mayLandOn (currentPlayer g) (cellAt (gameBoard g) to) = true
        /\ result (isLegalMove from to (cellAt (gameBoard g) from) (gameBoard g) false)
           = Ret true
        /\ simulateMove (gameBoard g) from to (cellAt (gameBoard g) from) = Ret b'
        /\ isInCheck b' (currentPlayer g) = Ret false
        /\ g' = mkGame b' (opponentOf (currentPlayer g)) None
        /\ ((al = [CheckmateAlert]
             /\ isInCheck b' (opponentOf (currentPlayer g)) = Ret true
             /\ hasAnyLegalMoves b' (opponentOf (currentPlayer g)) = Ret false)
            \/ al = []))
     \/ (gameBoard g' = gameBoard g
         /\ currentPlayer g' = currentPlayer g
         /\ announcesMate al = false
         /\ (selected g' = None
             \/ (selected g' = Some to
                 /\ isColor (currentPlayer g) (cellAt (gameBoard g) to) = true))
         /\ forall from, selected g = Some from -> from <> to ->
              mayLandOn (currentPlayer g) (cellAt (gameBoard g) to) = true ->
              result (isLegalMove from to (cellAt (gameBoard g) from) (gameBoard g) false)
              = Ret true ->
              ~ safeAfter (gameBoard g) (currentPlayer g) from to)).
Proof.
  destruct to as [row col]. intros Hb Ht Hsel. cbn [fst snd].
  unfold handleSquareClick. rewrite (boardGet_in _ row col Hb Ht). cbn [bind].
  set (b := gameBoard g) in *. set (cp := currentPlayer g) in *.
  destruct (selected g) as [[sr sc]|] eqn:Esel.
  2:{ (* nothing selected *)
      destruct (truthy (cellAt b (row, col))) eqn:Etr;
        [destruct (isColor cp (cellAt b (row, col))) eqn:Ecol|];
        eexists; eexists; (split; [reflexivity|]); right; cbn [gameBoard currentPlayer selected];
        repeat split; auto; try discriminate.
      all: left; exact Esel. }
  specialize (Hsel (sr, sc) eq_refl).
  destruct (negb (sr =? row) || negb (sc =? col)) eqn:Ediff.
  2:{ eexists; eexists; (split; [reflexivity|]); right. cbn [gameBoard currentPlayer selected].
      repeat split; auto. intros from [= <-] Hne.
      apply orb_false_iff in Ediff as [E1 E2].
      apply negb_false_iff, Z.eqb_eq in E1, E2. subst. now destruct Hne. }
  assert (Hne : (sr, sc) <> (row, col)).
  { intros [= -> ->]. now rewrite !Z.eqb_refl in Ediff. }
  rewrite (boardGet_in _ sr sc Hb Hsel). cbn [bind].
  destruct (mayLandOn cp (cellAt b (row, col))) eqn:Eland.
  2:{ eexists; eexists; (split; [reflexivity|]); right. cbn [gameBoard currentPlayer selected].
      repeat split; auto. intros from _ _ H. discriminate H. }
  destruct (isLegalMove_yields b (sr, sc) (row, col) (cellAt b (sr, sc)) false
              Hb Hsel Ht (or_introl Hne)) as [Hres _].
  rewrite Hres. cbn [bind].
  destruct (pseudoLegal b (sr, sc) (row, col) (cellAt b (sr, sc)) false) eqn:Epl.
  2:{ eexists; eexists; (split; [reflexivity|]); right. cbn [gameBoard currentPlayer selected].
      repeat split; auto. intros from [= <-] _ _ H. rewrite Hres in H. discriminate H. }
  destruct (simulate_then_check b cp (sr, sc) (row, col) (cellAt b (sr, sc)) Hb Hsel Ht)
    as (b' & v & Hsim & Hb' & Hchk).
  rewrite Hsim. cbn [bind]. rewrite Hchk. cbn [bind].
  destruct v; cbn [negb].
  { eexists; eexists; (split; [reflexivity|]); right. cbn [gameBoard currentPlayer selected].
    repeat split; auto. intros from [= <-] _ _ _ (b'' & Hsim' & Hchk'). congruence. }
  destruct (isInCheck_total b' (opponentOf cp) Hb') as (oc & Hoc). rewrite Hoc. cbn [bind].
  destruct (hasAnyLegalMoves_spec b' (opponentOf cp) Hb') as (any & Hany & _).
  destruct oc.
  - rewrite Hany. cbn [bind].
    eexists; eexists; (split; [reflexivity|]); left. exists (sr, sc), b'.
    repeat split; auto. destruct any; cbn [negb]; auto.
  - cbn [bind]. eexists; eexists; (split; [reflexivity|]); left. exists (sr, sc), b'.
    repeat split; auto.
Qed.

Lemma click_select (g : game) (sq : square) :
  shape8 (gameBoard g) = true -> inBoard sq = true -> selected g = None ->
  handleSquareClick g (fst sq) (snd sq)
  = Ret (if isColor (currentPlayer g) (cellAt (gameBoard g) sq)
         then mkGame (gameBoard g) (currentPlayer g) (Some sq)
         else g, []).
Proof.
  destruct sq as [row col]. intros Hb Hin Hsel. cbn [fst snd].
  unfold handleSquareClick. rewrite (boardGet_in _ row col Hb Hin), Hsel. cbn [bind].
  destruct (isColor (currentPlayer g) (cellAt (gameBoard g) (row, col))) eqn:E.
  - now rewrite (isColor_truthy _ _ E).
  - now destruct (truthy _).
Qed.

Lemma announcesMate_app (al al' : list alert) :
  announcesMate (al ++ al') = announcesMate al || announcesMate al'.
Proof. apply existsb_app. Qed.

(** What the two clicks of a move do. *)
Lemma applyMove_cases (g : game) (from to : square) :
  shape8 (gameBoard g) = true -> inBoard from = true -> inBoard to = true ->
  exists g' al, applyMove g from to = Ret (g', al) /\
    ((clickAccepts (gameBoard g) (currentPlayer g) from to
      /\ exists b',
           simulateMove (gameBoard g) from to (cellAt (gameBoard g) from) = Ret b'
           /\ g' = mkGame b' (opponentOf (currentPlayer g)) None
           /\ ((al = [CheckmateAlert]
                /\ isInCheck b' (opponentOf (currentPlayer g)) = Ret true
                /\ hasAnyLegalMoves b' (opponentOf (currentPlayer g)) = Ret false)
               \/ al = []))
     \/ (~ clickAccepts (gameBoard g) (currentPlayer g) from to
         /\ gameBoard g' = gameBoard g
         /\ currentPlayer g' = currentPlayer g
         /\ announcesMate al = false)).
Proof.
  intros Hb Hf Ht. unfold applyMove.
  set (b := gameBoard g) in *. set (cp := currentPlayer g) in *.
  rewrite (click_select (mkGame b cp None) from Hb Hf eq_refl).
  cbn [bind fst snd gameBoard currentPlayer app].
  destruct (isColor cp (cellAt b from)) eqn:Ecol.
  - destruct (handleSquareClick_cases (mkGame b cp (Some from)) to Hb Ht)
      as (g' & al & Hclick & Hcases).
    { cbn [selected]. now intros s [= <-]. }
    rewrite Hclick. cbn [bind fst snd]. exists g', al. split; [reflexivity|].
    cbn [gameBoard currentPlayer selected] in Hcases.
    destruct Hcases as [(from' & b' & [= <-] & Hne & Hland & Hres & Hsim & Hchk & -> & Hal)
                       |(Hgb & Hcp & Hmate & _ & Hno)].
    + left. split.
      * repeat split; try assumption. now exists b'.
      * now exists b'.
    + right. repeat split; try assumption.
      intros (_ & Hne & Hland & Hres & Hsafe). exact (Hno from eq_refl Hne Hland Hres Hsafe).
  - destruct (handleSquareClick_cases (mkGame b cp None) to Hb Ht)
      as (g' & al & Hclick & Hcases).
    { cbn [selected]. discriminate. }
    rewrite Hclick. cbn [bind fst snd]. exists g', al. split; [reflexivity|].
    cbn [gameBoard currentPlayer selected] in Hcases.
    destruct Hcases as [(from' & b' & Hsel & _)|(Hgb & Hcp & Hmate & _)];
      [discriminate Hsel|].
    right. repeat split; try assumption.
    intros (Hc & _). fold b cp in Hc. congruence.
Qed.

Lemma statusLine_ext (g g' : game) :
  gameBoard g' = gameBoard g -> currentPlayer g' = currentPlayer g ->
  statusLine g' = statusLine g.
Proof. intros Hb Hc. unfold statusLine. now rewrite Hb, Hc. Qed.

Lemma stateOf_ext (g g' : game) :
  gameBoard g' = gameBoard g -> currentPlayer g' = currentPlayer g ->
  stateOf g' = stateOf g.
Proof. intros Hb Hc. unfold stateOf. now rewrite (statusLine_ext g g' Hb Hc). Qed.

(* ================================================================== *)
(** ** Moves: rejection, frame, checkmate *)

(** C5.  On every board of 8x8 piece letters, a move whose origin holds no
    piece of the side to move, whose destination holds a piece of the side to
    move, which the evaluator does not accept (pattern or blocked path), or
    which leaves the mover in check, is rejected: the two clicks return, and
    the board, the side to move and the state derived from them are as
    before; no checkmate is announced. *)
Theorem C5_rejected_move_changes_nothing (g : game) (from to : square) :
  validBoard (gameBoard g) = true -> inBoard from = true -> inBoard to = true ->
  ~ legalMove (gameBoard g) (currentPlayer g) from to ->
  exists g' al, applyMove g from to = Ret (g', al)
    /\ gameBoard g' = gameBoard g
    /\ currentPlayer g' = currentPlayer g
    /\ stateOf g' = stateOf g
    /\ announcesMate al = false.
Proof.
  intros Hv Hf Ht Hill. pose proof (proj1 (proj1 (validBoard_cells _) Hv)) as Hb.
  destruct (applyMove_cases g from to Hb Hf Ht) as (g' & al & Happ & Hcases).
  exists g', al. split; [exact Happ|].
  destruct Hcases as [(Hacc & _)|(_ & Hgb & Hcp & Hmate)].
  - destruct Hill. now apply (clickAccepts_legal _ _ _ _ Hv Ht).
  - repeat split; try assumption. now apply stateOf_ext.
Qed.

Lemma C5_witness :
  exists g' al,
    applyMove (mkGame initialBoard white None) (7, 0) (5, 0) = Ret (g', al)
    /\ gameBoard g' = initialBoard
    /\ currentPlayer g' = white
    /\ stateOf g' = stateOf (mkGame initialBoard white None)
    /\ announcesMate al = false.
Proof.
  apply (C5_rejected_move_changes_nothing (mkGame initialBoard white None) (7, 0) (5, 0));
    try reflexivity.
  intros (_ & _ & H & _). vm_compute in H. discriminate H.
Defined.

(** C9.  On every 8x8 board, when the two clicks of a move pass the turn to
    the opponent, the new board is again 8x8, the destination holds the piece
    that stood on the origin, the origin is empty, and each of the other 62
    squares holds what it held before. *)
Theorem C9_move_changes_two_squares
  (g : game) (from to : square) (g' : game) (al : list alert) :
  shape8 (gameBoard g) = true -> inBoard from = true -> inBoard to = true ->
  applyMove g from to = Ret (g', al) ->
  currentPlayer g' = opponentOf (currentPlayer g) ->
  shape8 (gameBoard g') = true
  /\ from <> to
  /\ cellAt (gameBoard g') to = cellAt (gameBoard g) from
  /\ cellAt (gameBoard g') from = ""
  /\ forall sq, inBoard sq = true -> sq <> from -> sq <> to ->
                cellAt (gameBoard g') sq = cellAt (gameBoard g) sq.
Proof.
  intros Hb Hf Ht Happ Hturn.
  destruct (applyMove_cases g from to Hb Hf Ht) as (g1 & al1 & Happ' & Hcases).
  rewrite Happ in Happ'. injection Happ' as <- <-.
  destruct Hcases as [(Hacc & b' & Hsim & -> & _)|(_ & _ & Hcp & _)].
  2:{ rewrite Hcp in Hturn. now destruct (currentPlayer g). }
  destruct Hacc as (_ & Hne & _).
  destruct (simulateMove_spec (gameBoard g) from to (cellAt (gameBoard g) from)
              Hb Hf Ht) as (b'' & Hsim' & Hb'' & Hcells).
  rewrite Hsim in Hsim'. injection Hsim' as <-. cbn [gameBoard].
  assert (Hft : square_eqb to from = false).
  { apply not_true_is_false. intros E. apply square_eqb_eq in E. congruence. }
  repeat split.
  - exact Hb''.
  - exact Hne.
  - rewrite (Hcells to Ht), Hft.
    now rewrite (proj2 (square_eqb_eq to to) eq_refl).
  - rewrite (Hcells from Hf). now rewrite (proj2 (square_eqb_eq from from) eq_refl).
  - intros sq Hsq Hnf Hnt. rewrite (Hcells sq Hsq).
    replace (square_eqb sq from) with false
      by (symmetry; apply not_true_is_false; intros E; apply square_eqb_eq in E; congruence).
    replace (square_eqb sq to) with false
      by (symmetry; apply not_true_is_false; intros E; apply square_eqb_eq in E; congruence).
    reflexivity.
Qed.

Lemma C9_witness :
  shape8 lastRankAfter = true
  /\ (1, 0) <> (0, 0)
  /\ cellAt lastRankAfter (0, 0) = cellAt lastRankBefore (1, 0)
  /\ cellAt lastRankAfter (1, 0) = ""
  /\ forall sq, inBoard sq = true -> sq <> (1, 0) -> sq <> (0, 0) ->
                cellAt lastRankAfter sq = cellAt lastRankBefore sq.
Proof.
  exact (C9_move_changes_two_squares
           (mkGame lastRankBefore white None) (1, 0) (0, 0)
           (mkGame lastRankAfter black None) []
           eq_refl eq_refl eq_refl
           ltac:(vm_compute; reflexivity) eq_refl).
Defined.

Lemma simulateMove_valid (b b' : board) (from to : square) :
  validBoard b = true -> inBoard from = true -> inBoard to = true ->
  simulateMove b from to (cellAt b from) = Ret b' -> validBoard b' = true.
Proof.
  intros Hv Hf Ht Hsim. apply validBoard_cells in Hv as [Hb Hcells].
  destruct (simulateMove_spec b from to (cellAt b from) Hb Hf Ht)
    as (b'' & Hsim' & Hb'' & Hspec).
  rewrite Hsim in Hsim'. injection Hsim' as <-.
  apply validBoard_cells. split; [exact Hb''|].
  intros sq Hsq. rewrite (Hspec sq Hsq).
  destruct (square_eqb sq from); [reflexivity|].
  destruct (square_eqb sq to); auto.
Qed.

Lemma no_legal_move (b : board) (cp : color) (from to : square) :
  shape8 b = true -> hasAnyLegalMoves b cp = Ret false ->
  inBoard from = true -> inBoard to = true -> ~ legalMove b cp from to.
Proof.
  intros Hb Hnone Hf Ht Hlegal.
  destruct (hasAnyLegalMoves_spec b cp Hb) as (v & Hv & Hiff).
  rewrite Hnone in Hv. injection Hv as <-.
  assert (H : false = true) by (apply Hiff; eauto). discriminate H.
Qed.

(** A click on a position where the side to move has no legal move. *)
Lemma mated_click (b : board) (cp : color) (g : game) (to : square) :
  validBoard b = true -> hasAnyLegalMoves b cp = Ret false ->
  standsOn b cp g -> inBoard to = true ->
  exists g' al, handleSquareClick g (fst to) (snd to) = Ret (g', al)
                /\ standsOn b cp g' /\ announcesMate al = false.
Proof.
  intros Hv Hnone (Hgb & Hcp & Hsel) Ht.
  pose proof (proj1 (proj1 (validBoard_cells _) Hv)) as Hb.
  destruct (handleSquareClick_cases g to) as (g' & al & Hclick & Hcases).
  { now rewrite Hgb. }
  { exact Ht. }
  { intros s Hs. rewrite Hs in Hsel. tauto. }
  exists g', al. split; [exact Hclick|]. rewrite Hgb, Hcp in Hcases.
  destruct Hcases as [(from & b' & Hs & Hne & Hland & Hres & Hsim & Hchk & _)
                     |(Hgb' & Hcp' & Hmate & Hsel' & _)].
  - exfalso. rewrite Hs in Hsel. destruct Hsel as [Hf Hcol].
    apply (no_legal_move b cp from to Hb Hnone Hf Ht).
    apply (clickAccepts_legal _ _ _ _ Hv Ht). repeat split; try assumption.
    now exists b'.
  - split; [|exact Hmate]. repeat split; try assumption.
    destruct Hsel' as [-> | [-> Hcol]]; auto.
Qed.

Lemma mated_clicks (b : board) (cp : color) (clicks : list square) :
  validBoard b = true -> hasAnyLegalMoves b cp = Ret false ->
  Forall (fun sq => inBoard sq = true) clicks ->
  forall g, standsOn b cp g ->
            exists g', playClicks g clicks = Ret g' /\ standsOn b cp g'.
Proof.
  intros Hv Hnone Hall. induction Hall as [|[row col] clicks Hin _ IH]; intros g Hg.
  - exists g. now split.
  - cbn [playClicks].
    destruct (mated_click b cp g (row, col) Hv Hnone Hg Hin) as (g1 & al & Hclick & Hg1 & _).
    cbn [fst snd] in Hclick. rewrite Hclick. cbn [bind fst].
    now apply IH.
Qed.




(** The checkmate dialog is built after the handler has passed the turn: the
    colour it names as the winner is the side that has just been mated. *)
Remark checkmate_dialog_names_mated_side
  (g : game) (to : square) (g' : game) (al : list alert) :
  shape8 (gameBoard g) = true -> inBoard to = true ->
  (forall s, selected g = Some s -> inBoard s = true) ->
  handleSquareClick g (fst to) (snd to) = Ret (g', al) ->
  announcesMate al = true ->
  checkmateAlertNames g' = opponentOf (currentPlayer g).
Proof.
  intros Hb Ht Hsel Hclick Hmate.
  destruct (handleSquareClick_cases g to Hb Ht Hsel) as (g1 & al1 & Hclick' & Hcases).
  rewrite Hclick in Hclick'. injection Hclick' as <- <-.
  destruct Hcases as [(from & b' & _ & _ & _ & _ & _ & _ & -> & _)
                     |(_ & _ & Hno & _)];
    [reflexivity | congruence].
Qed.

(* ================================================================== *)
(** ** The scenarios of the specification, run on the embedding *)

Example scenario_e2_e4 :
  applyMove (mkGame initialBoard white None) (6, 4) (4, 4)
  = Ret (mkGame afterE4 black None, [])
  /\ stateOf (mkGame afterE4 black None) = Ret (ToMove black)
  /\ isInCheck afterE4 black = Ret false.
Proof. vm_compute. auto. Qed.

Example scenario_fools_mate :
  applyMove (mkGame beforeMate black None) (0, 3) (4, 7)
  = Ret (mkGame afterMate white None, [CheckmateAlert])
  /\ stateOf (mkGame afterMate white None) = Ret (CheckmateBy black)
  /\ checkmateAlertNames (mkGame afterMate white None) = white.
Proof. vm_compute. auto. Qed.

Example scenario_king_into_rook_file :
  applyMove (mkGame rookOnDFile white None) (7, 4) (7, 3)
  = Ret (mkGame rookOnDFile white None, [CantMoveIntoCheck]).
Proof. vm_compute. reflexivity. Qed.

Example scenario_knight_moves :
  getPossibleMoves (mkGame initialBoard white None) 7 1 = Ret [(5, 0); (5, 2)].
Proof. vm_compute. reflexivity. Qed.

Example scenario_bishop_own_square :
  isLegalMove (5, 2) (5, 2) "B" initialBoard false
  = mkRun [(5, 2); (4, 1); (3, 0); (2, -1); (1, -2); (0, -3); (-1, -4)] TypeError.
Proof. vm_compute. reflexivity. Qed.

(* ================================================================== *)
(** ** Further properties of the evaluator *)

Lemma pseudoLegal_other (b : board) (from to : square) (piece : string) (am : bool) :
  piece <> "P" -> piece <> "p" ->
  pseudoLegal b from to piece am
  = if (toLowerCase piece =? "r")%string
    then sameLine from to && clearPath b from to
    else if (toLowerCase piece =? "b")%string
         then sameDiagonal from to && clearPath b from to
         else if (toLowerCase piece =? "q")%string
              then (sameLine from to || sameDiagonal from to) && clearPath b from to
              else if (toLowerCase piece =? "n")%string then knightJump from to
                   else if (toLowerCase piece =? "k")%string then kingStep from to
                        else false.
Proof.
  intros HP Hp. unfold pseudoLegal.
  destruct (piece =? "P")%string eqn:E1; [apply String.eqb_eq in E1; contradiction|].
  destruct (piece =? "p")%string eqn:E2; [apply String.eqb_eq in E2; contradiction|].
  reflexivity.
Qed.

(** X1.  A knight (['n'] or ['N']) reaches a square of the board exactly when
    the two squares are two rows and one column, or one row and two columns,
    apart: whatever the board holds, in either mode. *)
Theorem X1_knight_jumps_over_pieces
  (b : board) (from to : square) (piece : string) (am : bool) :
  shape8 b = true -> inBoard from = true -> inBoard to = true ->
  In piece ["n"; "N"] ->
  exists v, result (isLegalMove from to piece b am) = Ret v
    /\ (v = true <->
        (Z.abs (fst from - fst to) = 2 /\ Z.abs (snd from - snd to) = 1)
        \/ (Z.abs (fst from - fst to) = 1 /\ Z.abs (snd from - snd to) = 2)).
Proof.
  intros Hb Hf Ht Hp.
  assert (Hnb : toLowerCase piece <> "b")
    by (cbn [In] in Hp; destruct Hp as [<-|[<-|[]]]; discriminate).
  destruct (isLegalMove_yields b from to piece am Hb Hf Ht (or_intror Hnb)) as [-> _].
  eexists. split; [reflexivity|].
  assert (E : pseudoLegal b from to piece am = knightJump from to)
    by (cbn [In] in Hp; destruct Hp as [<-|[<-|[]]]; reflexivity).
  rewrite E. destruct from as [fr fc], to as [tr tc]. unfold knightJump. cbn [fst snd].
  rewrite orb_true_iff, !andb_true_iff, !Z.eqb_eq. tauto.
Qed.

Lemma X1_witness :
  exists v, result (isLegalMove (7, 1) (5, 2) "N" initialBoard false) = Ret v
    /\ (v = true <->
        (Z.abs (7 - 5) = 2 /\ Z.abs (1 - 2) = 1)
        \/ (Z.abs (7 - 5) = 1 /\ Z.abs (1 - 2) = 2)).
Proof.
  apply (X1_knight_jumps_over_pieces initialBoard (7, 1) (5, 2) "N" false);
    try reflexivity.
  cbn [In]. auto.
Defined.

(** X2.  A king (['k'] or ['K']) reaches a square of the board exactly when
    it is at most one row and at most one column away -- its own square
    included, and never two columns away (no castling) -- whatever the board
    holds, in either mode. *)
Theorem X2_king_steps_one_square
  (b : board) (from to : square) (piece : string) (am : bool) :
  shape8 b = true -> inBoard from = true -> inBoard to = true ->
  In piece ["k"; "K"] ->
  exists v, result (isLegalMove from to piece b am) = Ret v
    /\ (v = true <->
        Z.abs (fst from - fst to) <= 1 /\ Z.abs (snd from - snd to) <= 1).
Proof.
  intros Hb Hf Ht Hp.
  assert (Hnb : toLowerCase piece <> "b")
    by (cbn [In] in Hp; destruct Hp as [<-|[<-|[]]]; discriminate).
  destruct (isLegalMove_yields b from to piece am Hb Hf Ht (or_intror Hnb)) as [-> _].
  eexists. split; [reflexivity|].
  assert (E : pseudoLegal b from to piece am = kingStep from to)
    by (cbn [In] in Hp; destruct Hp as [<-|[<-|[]]]; reflexivity).
  rewrite E. destruct from as [fr fc], to as [tr tc]. unfold kingStep. cbn [fst snd].
  rewrite andb_true_iff, !Z.leb_le. tauto.
Qed.

Lemma X2_witness :
  exists v, result (isLegalMove (7, 4) (7, 6) "K" initialBoard false) = Ret v
    /\ (v = true <-> Z.abs (7 - 7) <= 1 /\ Z.abs (4 - 6) <= 1).
Proof.
  apply (X2_king_steps_one_square initialBoard (7, 4) (7, 6) "K" false);
    try reflexivity.
  cbn [In]. auto.
Defined.

(** X3.  For a piece string of ASCII characters that is none of the twelve
    letters up to case -- the empty string of an empty square among them --
    the evaluator returns false for every pair of squares of the board. *)
Theorem X3_unknown_piece_never_moves
  (b : board) (from to : square) (piece : string) (am : bool) :
  shape8 b = true -> inBoard from = true -> inBoard to = true ->
  asciiString piece = true ->
  ~ In (toLowerCase piece) ["p"; "r"; "b"; "q"; "n"; "k"] ->
  result (isLegalMove from to piece b am) = Ret false.
Proof.
  intros Hb Hf Ht _ Hp. cbn [In] in Hp.
  assert (Hnb : toLowerCase piece <> "b") by (intros E; apply Hp; auto).
  destruct (isLegalMove_yields b from to piece am Hb Hf Ht (or_intror Hnb)) as [-> _].
  f_equal. rewrite pseudoLegal_other.
  - repeat match goal with
           | |- context [ (toLowerCase piece =? ?x)%string ] =>
               let E := fresh "E" in
               destruct (toLowerCase piece =? x)%string eqn:E;
               [apply String.eqb_eq in E; exfalso; apply Hp; rewrite E; auto 10|]
           end.
    reflexivity.
  - intros ->. apply Hp. auto.
  - intros ->. apply Hp. auto.
Qed.

Lemma X3_witness :
  result (isLegalMove (4, 4) (3, 4) "x" initialBoard false) = Ret false.
Proof.
  apply (X3_unknown_piece_never_moves initialBoard (4, 4) (3, 4) "x" false);
    try reflexivity.
  cbn [In]. intros H. repeat (destruct H as [H|H]; [discriminate H|]). exact H.
Defined.

Lemma strictlyBetween_sym (from to sq : square) :
  strictlyBetween from to sq -> strictlyBetween to from sq.
Proof.
  destruct from as [fr fc], to as [tr tc].
  intros (dr & dc & n & k & Hdr & Hdc & Hnz & Hk & Hto & ->).
  cbn [fst snd] in *. injection Hto as -> ->.
  exists (- dr), (- dc), n, (n - k). cbn [fst snd].
  repeat split; try lia; f_equal; ring.
Qed.

Lemma aligned_sym (from to : square) :
  sameLine to from = sameLine from to /\ sameDiagonal to from = sameDiagonal from to.
Proof.
  destruct from as [fr fc], to as [tr tc]. unfold sameLine, sameDiagonal. cbn [fst snd].
  split.
  - now rewrite (Z.eqb_sym tr fr), (Z.eqb_sym tc fc).
  - replace (tr - fr) with (- (fr - tr)) by ring.
    replace (tc - fc) with (- (fc - tc)) by ring.
    now rewrite !Z.abs_opp.
Qed.

Lemma forallb_same_members {A : Type} (f : A -> bool) (l l' : list A) :
  (forall x, In x l <-> In x l') -> forallb f l = forallb f l'.
Proof.
  intros H. destruct (forallb f l) eqn:E; symmetry.
  - rewrite forallb_forall in *. intros x Hx. apply E. now apply H.
  - apply not_true_is_false. intros E'. rewrite forallb_forall in E'.
    assert (forallb f l = true); [|congruence].
    apply forallb_forall. intros x Hx. apply E'. now apply H.
Qed.

Lemma clearPath_sym (b : board) (from to : square) :
  sameLine from to || sameDiagonal from to = true ->
  clearPath b to from = clearPath b from to.
Proof.
  intros Hal. unfold clearPath. apply forallb_same_members.
  assert (Hal' : sameLine to from || sameDiagonal to from = true).
  { destruct (aligned_sym from to) as [-> ->]. exact Hal. }
  intros sq. split; intros Hin.
  - apply between_strictly, strictlyBetween_sym. now apply strictly_between.
  - apply between_strictly, strictlyBetween_sym. now apply strictly_between.
Qed.

(** X4.  For every piece other than a pawn and every two distinct squares of
    an 8x8 board, the evaluator gives the same answer in both directions:
    the piece reaches [to] from [from] exactly when it reaches [from] from
    [to]. *)
Theorem X4_non_pawn_moves_are_reversible
  (b : board) (from to : square) (piece : string) (am : bool) :
  shape8 b = true -> inBoard from = true -> inBoard to = true -> from <> to ->
  piece <> "P" -> piece <> "p" ->
  result (isLegalMove to from piece b am) = result (isLegalMove from to piece b am).
Proof.
  intros Hb Hf Ht Hne HP Hp.
  destruct (isLegalMove_yields b from to piece am Hb Hf Ht (or_introl Hne)) as [-> _].
  destruct (isLegalMove_yields b to from piece am Hb Ht Hf
              (or_introl (fun E => Hne (eq_sym E)))) as [-> _].
  f_equal. rewrite !pseudoLegal_other by assumption.
  destruct (aligned_sym from to) as [-> ->].
  assert (Hk : knightJump to from = knightJump from to /\ kingStep to from = kingStep from to).
  { destruct from as [fr fc], to as [tr tc]. unfold knightJump, kingStep.
    replace (tr - fr) with (- (fr - tr)) by ring.
    replace (tc - fc) with (- (fc - tc)) by ring.
    now rewrite !Z.abs_opp. }
  destruct Hk as [-> ->].
  destruct (sameLine from to) eqn:El, (sameDiagonal from to) eqn:Ed; cbn [andb orb];
    try rewrite (clearPath_sym b from to) by (rewrite El, Ed; reflexivity);
    reflexivity.
Qed.

Lemma X4_witness :
  result (isLegalMove (4, 0) (7, 0) "r" initialBoard false)
  = result (isLegalMove (7, 0) (4, 0) "r" initialBoard false).
Proof.
  apply X4_non_pawn_moves_are_reversible; try reflexivity; discriminate.
Defined.

Lemma pawnRule_attack (c : color) (b : board) (from to : square) :
  pawnRule c b from to false = true -> pawnRule c b from to true = true.
Proof.
  unfold pawnRule. cbn [orb]. intros H.
  apply orb_true_iff in H as [H|H]; [now rewrite H|].
  apply andb_true_iff in H as [H _]. rewrite H. apply orb_true_r.
Qed.

(** X5.  The attack flag ([ignorePawnCapture]) only ever adds moves, and only
    for pawns: on an 8x8 board, whatever the evaluator accepts with the flag
    off it accepts with the flag on, and for a piece other than a pawn the
    two answers are the same. *)
Theorem X5_attack_mode_only_widens_pawns
  (b : board) (from to : square) (piece : string) :
  shape8 b = true -> inBoard from = true -> inBoard to = true ->
  from <> to \/ toLowerCase piece <> "b" ->
  (result (isLegalMove from to piece b false) = Ret true ->
   result (isLegalMove from to piece b true) = Ret true)
  /\ (piece <> "P" -> piece <> "p" ->
      result (isLegalMove from to piece b true)
      = result (isLegalMove from to piece b false)).
Proof.
  intros Hb Hf Ht Hne.
  destruct (isLegalMove_yields b from to piece false Hb Hf Ht Hne) as [-> _].
  destruct (isLegalMove_yields b from to piece true Hb Hf Ht Hne) as [-> _].
  split.
  - intros [= H]. f_equal. revert H. unfold pseudoLegal.
    destruct (piece =? "P")%string; [apply pawnRule_attack|].
    destruct (piece =? "p")%string; [apply pawnRule_attack|]. trivial.
  - intros HP Hp. now rewrite !pseudoLegal_other.
Qed.

Lemma X5_witness :
  (result (isLegalMove (6, 4) (5, 4) "P" initialBoard false) = Ret true ->
   result (isLegalMove (6, 4) (5, 4) "P" initialBoard true) = Ret true)
  /\ ("N" <> "P" -> "N" <> "p" ->
      result (isLegalMove (7, 1) (5, 2) "N" initialBoard true)
      = result (isLegalMove (7, 1) (5, 2) "N" initialBoard false)).
Proof.
  split.
  - apply (X5_attack_mode_only_widens_pawns initialBoard (6, 4) (5, 4) "P");
      try reflexivity. left. discriminate.
  - apply (X5_attack_mode_only_widens_pawns initialBoard (7, 1) (5, 2) "N");
      try reflexivity. left. discriminate.
Defined.

(** X6.  Pawns only go forward: when the evaluator accepts a move of a white
    pawn, the destination is one or two rows up (a smaller row index) and at
    most one column aside; for a black pawn it is one or two rows down.  A
    white pawn on row 0, or a black pawn on row 7, has no destination on the
    board at all (it is not promoted and cannot move again). *)
Theorem X6_pawns_only_advance (b : board) (from to : square) (am : bool) :
  shape8 b = true -> inBoard from = true -> inBoard to = true ->
  (result (isLegalMove from to "P" b am) = Ret true ->
   fst from - 2 <= fst to < fst from /\ Z.abs (snd to - snd from) <= 1)
  /\ (result (isLegalMove from to "p" b am) = Ret true ->
      fst from < fst to <= fst from + 2 /\ Z.abs (snd to - snd from) <= 1)
  /\ (fst from = 0 -> result (isLegalMove from to "P" b am) = Ret false)
  /\ (fst from = 7 -> result (isLegalMove from to "p" b am) = Ret false).
Proof.
  intros Hb Hf Ht.
  destruct (isLegalMove_yields b from to "P" am Hb Hf Ht) as [HP _];
    [right; discriminate|].
  destruct (isLegalMove_yields b from to "p" am Hb Hf Ht) as [Hp _];
    [right; discriminate|].
  rewrite HP, Hp.
  change (pseudoLegal b from to "P" am) with (pawnRule white b from to am).
  change (pseudoLegal b from to "p" am) with (pawnRule black b from to am).
  destruct from as [fr fc], to as [tr tc].
  apply inBoard_range in Hf, Ht. unfold pawnRule. cbn [fst snd].
  split; [|split; [|split]].
  - intros [= H]. revert H. case_tests; discriminate.
  - intros [= H]. revert H. case_tests; discriminate.
  - intros ->. f_equal. case_tests; reflexivity.
  - intros ->. f_equal. case_tests; reflexivity.
Qed.

Lemma X6_witness :
  (result (isLegalMove (6, 4) (4, 4) "P" initialBoard false) = Ret true ->
   6 - 2 <= 4 < 6 /\ Z.abs (4 - 4) <= 1)
  /\ (result (isLegalMove (0, 0) (0, 1) "P" lastRankAfter false) = Ret false).
Proof.
  split.
  - exact (proj1 (X6_pawns_only_advance initialBoard (6, 4) (4, 4) false
                    eq_refl eq_refl eq_refl)).
  - exact (proj1 (proj2 (proj2
             (X6_pawns_only_advance lastRankAfter (0, 0) (0, 1) false
                eq_refl eq_refl eq_refl))) eq_refl).
Defined.

(* ================================================================== *)
(** ** Further properties of the attack oracle and the king search *)

(** X7.  On an 8x8 board, for a square of the board that does not hold a
    bishop of the attacking colour, [isSquareAttacked] returns a boolean, and
    it is true exactly when some square of the board holds a piece of the
    attacking colour that the evaluator, in attack mode, moves to the queried
    square. *)
Theorem X7_attacked_iff_some_piece_reaches
  (b : board) (row col : Z) (byColor : color) :
  shape8 b = true -> inBoard (row, col) = true ->
  (isColor byColor (cellAt b (row, col)) = true ->
   toLowerCase (cellAt b (row, col)) <> "b") ->
  exists v, isSquareAttacked b row col byColor = Ret v /\
    (v = true <->
     exists from, inBoard from = true
                  /\ isColor byColor (cellAt b from) = true
                  /\ result (isLegalMove from (row, col) (cellAt b from) b true)
                     = Ret true).
Proof.
  intros Hb Hin Hnb.
  destruct (isSquareAttacked_spec b row col byColor Hb Hin Hnb) as (v & Hv & Hiff).
  exists v. split; [exact Hv|]. rewrite Hiff.
  assert (Hy : forall from, inBoard from = true ->
                 isColor byColor (cellAt b from) = true ->
                 result (isLegalMove from (row, col) (cellAt b from) b true)
                 = Ret (pseudoLegal b from (row, col) (cellAt b from) true)).
  { intros from Hf Hc.
    apply (isLegalMove_yields b from (row, col) (cellAt b from) true Hb Hf Hin).
    destruct (square_eqb from (row, col)) eqn:E.
    - apply square_eqb_eq in E. subst. right. now apply Hnb.
    - left. intros E'. apply square_eqb_eq in E'. congruence. }
  split; intros (from & Hf & Hc & H); exists from; repeat split; try assumption.
  - rewrite (Hy from Hf Hc). now f_equal.
  - rewrite (Hy from Hf Hc) in H. now injection H.
Qed.

Lemma X7_witness :
  exists v, isSquareAttacked initialBoard 5 2 white = Ret v /\
    (v = true <->
     exists from, inBoard from = true
                  /\ isColor white (cellAt initialBoard from) = true
                  /\ result (isLegalMove from (5, 2) (cellAt initialBoard from)
                               initialBoard true) = Ret true).
Proof.
  apply (X7_attacked_iff_some_piece_reaches initialBoard 5 2 white);
    try reflexivity.
  discriminate.
Defined.

(** X8.  The attack oracle counts a pawn's forward squares too: on an 8x8
    board, the empty square straight ahead of a white pawn is reported as
    attacked by White, like the two squares diagonally ahead of it (provided
    they do not hold a bishop); likewise for a black pawn and the row below
    it. *)
Theorem X8_pawn_attacks_the_square_ahead (b : board) (r c : Z) :
  shape8 b = true -> inBoard (r, c) = true ->
  (cellAt b (r, c) = "P" ->
   (inBoard (r - 1, c) = true -> cellAt b (r - 1, c) = "" ->
    isSquareAttacked b (r - 1) c white = Ret true)
   /\ (forall c', Z.abs (c' - c) = 1 -> inBoard (r - 1, c') = true ->
         toLowerCase (cellAt b (r - 1, c')) <> "b" ->
         isSquareAttacked b (r - 1) c' white = Ret true))
  /\ (cellAt b (r, c) = "p" ->
      (inBoard (r + 1, c) = true -> cellAt b (r + 1, c) = "" ->
       isSquareAttacked b (r + 1) c black = Ret true)
      /\ (forall c', Z.abs (c' - c) = 1 -> inBoard (r + 1, c') = true ->
            toLowerCase (cellAt b (r + 1, c')) <> "b" ->
            isSquareAttacked b (r + 1) c' black = Ret true)).
Proof.
  intros Hb Hin.
  assert (Hgen : forall (col : color) (to : square),
            inBoard to = true ->
            (isColor col (cellAt b to) = true -> toLowerCase (cellAt b to) <> "b") ->
            isColor col (cellAt b (r, c)) = true ->
            pseudoLegal b (r, c) to (cellAt b (r, c)) true = true ->
            isSquareAttacked b (fst to) (snd to) col = Ret true).
  { intros col [tr tc] Ht Hnb Hc Hpl. cbn [fst snd].
    destruct (isSquareAttacked_spec b tr tc col Hb Ht Hnb) as (v & -> & Hiff).
    f_equal. apply Hiff. exists (r, c). auto. }
  split; intros Hpawn.
  - split.
    + intros Ht Hempty. apply (Hgen white (r - 1, c) Ht).
      * rewrite Hempty. discriminate.
      * now rewrite Hpawn.
      * rewrite Hpawn. change (pseudoLegal b (r, c) (r - 1, c) "P" true)
          with (pawnRule white b (r, c) (r - 1, c) true).
        unfold pawnRule, emptyAt. cbn [fst snd]. rewrite Hempty.
        change (r + -1) with (r - 1). now rewrite !Z.eqb_refl.
    + intros c' Hc' Ht Hnb. apply (Hgen white (r - 1, c') Ht).
      * intros _. exact Hnb.
      * now rewrite Hpawn.
      * rewrite Hpawn. change (pseudoLegal b (r, c) (r - 1, c') "P" true)
          with (pawnRule white b (r, c) (r - 1, c') true).
        unfold pawnRule. cbn [fst snd orb]. change (r + -1) with (r - 1).
        rewrite Hc', !Z.eqb_refl. cbn [andb]. apply orb_true_r.
  - split.
    + intros Ht Hempty. apply (Hgen black (r + 1, c) Ht).
      * rewrite Hempty. discriminate.
      * now rewrite Hpawn.
      * rewrite Hpawn. change (pseudoLegal b (r, c) (r + 1, c) "p" true)
          with (pawnRule black b (r, c) (r + 1, c) true).
        unfold pawnRule, emptyAt. cbn [fst snd]. rewrite Hempty.
        now rewrite !Z.eqb_refl.
    + intros c' Hc' Ht Hnb. apply (Hgen black (r + 1, c') Ht).
      * intros _. exact Hnb.
      * now rewrite Hpawn.
      * rewrite Hpawn. change (pseudoLegal b (r, c) (r + 1, c') "p" true)
          with (pawnRule black b (r, c) (r + 1, c') true).
        unfold pawnRule. cbn [fst snd orb].
        rewrite Hc', !Z.eqb_refl. cbn [andb]. apply orb_true_r.
Qed.

Lemma X8_witness :
  isSquareAttacked initialBoard 5 4 white = Ret true
  /\ isSquareAttacked initialBoard 2 3 black = Ret true.
Proof.
  split.
  - exact (proj1 (proj1 (X8_pawn_attacks_the_square_ahead initialBoard 6 4
                           eq_refl eq_refl) eq_refl) eq_refl eq_refl).
  - apply (proj2 (proj2 (X8_pawn_attacks_the_square_ahead initialBoard 1 4
                           eq_refl eq_refl) eq_refl) 3); try reflexivity.
    discriminate.
Defined.

(** X9.  On an 8x8 board [findKing] returns [null] exactly when no square
    holds the colour's king letter; otherwise it returns a square of the
    board that holds it and that no other such square precedes in the scan
    (rows from 0, columns from 0): with two kings of a colour the later one
    is ignored. *)
Theorem X9_findKing_first_in_scan (b : board) (c : color) :
  shape8 b = true ->
  exists o, findKing b c = Ret o /\
    match o with
    | None => forall sq, inBoard sq = true -> cellAt b sq <> kingOf c
    | Some k => inBoard k = true /\ cellAt b k = kingOf c
                /\ forall sq, inBoard sq = true -> cellAt b sq = kingOf c ->
                              sq = k \/ earlier k sq = true
    end.
Proof.
  intros Hb. destruct (findKing_spec b c Hb) as (o & Ho & Hspec).
  exists o. split; [exact Ho|]. destruct o as [k|]; [|exact Hspec].
  destruct Hspec as (Hin & Hk & Hfirst). repeat split; try assumption.
  intros sq Hsq Hking. destruct (earlier_cases sq k) as [E|[E|E]]; auto.
  now destruct (Hfirst sq Hsq E).
Qed.

Lemma X9_witness :
  exists o, findKing initialBoard white = Ret o /\
    match o with
    | None => forall sq, inBoard sq = true -> cellAt initialBoard sq <> kingOf white
    | Some k => inBoard k = true /\ cellAt initialBoard k = kingOf white
                /\ forall sq, inBoard sq = true ->
                              cellAt initialBoard sq = kingOf white ->
                              sq = k \/ earlier k sq = true
    end.
Proof. exact (X9_findKing_first_in_scan initialBoard white eq_refl). Defined.

(* ================================================================== *)
(** ** Further properties of the click handler *)

Lemma opponentOf_involutive (c : color) : opponentOf (opponentOf c) = c.
Proof. now destruct c. Qed.

Lemma handleSquareClick_moved
  (g : game) (from to : square) (b' : board) (oc any : bool) :
  shape8 (gameBoard g) = true -> inBoard from = true -> inBoard to = true ->
  selected g = Some from -> from <> to ->
  mayLandOn (currentPlayer g) (cellAt (gameBoard g) to) = true ->
  result (isLegalMove from to (cellAt (gameBoard g) from) (gameBoard g) false)
  = Ret true ->
  simulateMove (gameBoard g) from to (cellAt (gameBoard g) from) = Ret b' ->
  isInCheck b' (currentPlayer g) = Ret false ->
  isInCheck b' (opponentOf (currentPlayer g)) = Ret oc ->
  hasAnyLegalMoves b' (opponentOf (currentPlayer g)) = Ret any ->
  handleSquareClick g (fst to) (snd to)
  = Ret (mkGame b' (opponentOf (currentPlayer g)) None,
         if oc && negb any then [CheckmateAlert] else []).
Proof.
  destruct from as [fr fc], to as [tr tc].
  intros Hb Hf Ht Hsel Hne Hland Hres Hsim Hchk Hoc Hany. cbn [fst snd].
  unfold handleSquareClick.
  rewrite (boardGet_in _ tr tc Hb Ht), Hsel. cbn [bind].
  replace (negb (fr =? tr) || negb (fc =? tc)) with true.
  2:{ symmetry. destruct (fr =? tr) eqn:E1, (fc =? tc) eqn:E2; try reflexivity.
      apply Z.eqb_eq in E1, E2. subst. now destruct Hne. }
  rewrite (boardGet_in _ fr fc Hb Hf). cbn [bind].
  rewrite Hland, Hres. cbn [bind]. rewrite Hsim. cbn [bind].
  rewrite Hchk. cbn [bind negb]. rewrite Hoc. cbn [bind].
  destruct oc; cbn [andb].
  - rewrite Hany. cbn [bind]. now destruct any.
  - reflexivity.
Qed.

Lemma stateOf_after_move (b' : board) (opp : color) (sel : option square) (oc any : bool) :
  isInCheck b' opp = Ret oc -> hasAnyLegalMoves b' opp = Ret any ->
  stateOf (mkGame b' opp sel)
  = Ret (if oc && negb any then CheckmateBy (opponentOf opp) else ToMove opp).
Proof.
  intros Hoc Hany. unfold stateOf, statusLine. cbn [gameBoard currentPlayer].
  rewrite Hoc. cbn [bind]. destruct oc; cbn [andb]; [|reflexivity].
  rewrite Hany. cbn [bind]. now destruct any.
Qed.

(** The two clicks of a legal move, in full. *)
Lemma applyMove_legal (g : game) (from to : square) :
  validBoard (gameBoard g) = true -> inBoard from = true -> inBoard to = true ->
  legalMove (gameBoard g) (currentPlayer g) from to ->
  exists b' oc any,
    simulateMove (gameBoard g) from to (cellAt (gameBoard g) from) = Ret b'
    /\ validBoard b' = true
    /\ isInCheck b' (currentPlayer g) = Ret false
    /\ isInCheck b' (opponentOf (currentPlayer g)) = Ret oc
    /\ hasAnyLegalMoves b' (opponentOf (currentPlayer g)) = Ret any
    /\ applyMove g from to
       = Ret (mkGame b' (opponentOf (currentPlayer g)) None,
              if oc && negb any then [CheckmateAlert] else []).
Proof.
  intros Hv Hf Ht Hlegal.
  pose proof (proj1 (proj1 (validBoard_cells _) Hv)) as Hb.
  pose proof (proj2 (clickAccepts_legal _ _ _ _ Hv Ht) Hlegal)
    as (Hcol & Hne & Hland & Hres & b' & Hsim & Hchk).
  pose proof (simulateMove_valid _ _ _ _ Hv Hf Ht Hsim) as Hv'.
  pose proof (proj1 (proj1 (validBoard_cells _) Hv')) as Hb'.
  destruct (isInCheck_total b' (opponentOf (currentPlayer g)) Hb') as (oc & Hoc).
  destruct (hasAnyLegalMoves_spec b' (opponentOf (currentPlayer g)) Hb')
    as (any & Hany & _).
  exists b', oc, any. repeat split; try assumption.
  unfold applyMove.
  rewrite (click_select (mkGame (gameBoard g) (currentPlayer g) None) from Hb Hf eq_refl).
  cbn [gameBoard currentPlayer bind fst snd]. rewrite Hcol.
  rewrite (handleSquareClick_moved
             (mkGame (gameBoard g) (currentPlayer g) (Some from)) from to b' oc any);
    try assumption; try reflexivity.
Qed.

(** X10.  On a board of 8x8 piece letters the two clicks of a move always
    return, and they pass the turn to the opponent exactly when the move is
    legal (own piece on the origin, no own piece on the destination, accepted
    by the evaluator, mover not in check afterwards).  A legal move leaves
    the simulated board as the new board -- again 8x8 piece letters -- with
    nothing selected and the mover not in check. *)
Theorem X10_turn_passes_iff_move_is_legal (g : game) (from to : square) :
  validBoard (gameBoard g) = true -> inBoard from = true -> inBoard to = true ->
  exists g' al, applyMove g from to = Ret (g', al)
    /\ (currentPlayer g' = opponentOf (currentPlayer g)
        <-> legalMove (gameBoard g) (currentPlayer g) from to)
    /\ (legalMove (gameBoard g) (currentPlayer g) from to ->
        selected g' = None
        /\ validBoard (gameBoard g') = true
        /\ simulateMove (gameBoard g) from to (cellAt (gameBoard g) from)
           = Ret (gameBoard g')
        /\ isInCheck (gameBoard g') (currentPlayer g) = Ret false).
Proof.
  intros Hv Hf Ht.
  pose proof (proj1 (proj1 (validBoard_cells _) Hv)) as Hb.
  destruct (applyMove_cases g from to Hb Hf Ht) as (g' & al & Happ & Hcases).
  exists g', al. split; [exact Happ|].
  destruct Hcases as [(Hacc & b' & Hsim & -> & _)|(Hno & Hgb & Hcp & _)].
  - pose proof (proj1 (clickAccepts_legal _ _ _ _ Hv Ht) Hacc) as Hlegal.
    split; [cbn [currentPlayer]; tauto|]. intros _.
    cbn [gameBoard selected]. repeat split.
    + exact (simulateMove_valid _ _ _ _ Hv Hf Ht Hsim).
    + exact Hsim.
    + destruct Hacc as (_ & _ & _ & _ & b'' & Hsim' & Hchk). congruence.
  - assert (Hill : ~ legalMove (gameBoard g) (currentPlayer g) from to).
    { intros H. apply Hno. now apply (clickAccepts_legal _ _ _ _ Hv Ht). }
    split; [|tauto]. split; [|tauto].
    rewrite Hcp. intros E. now destruct (currentPlayer g).
Qed.

Lemma X10_witness :
  exists g' al, applyMove initialGame (6, 4) (4, 4) = Ret (g', al)
    /\ (currentPlayer g' = black <-> legalMove initialBoard white (6, 4) (4, 4))
    /\ (legalMove initialBoard white (6, 4) (4, 4) ->
        selected g' = None
        /\ validBoard (gameBoard g') = true
        /\ simulateMove initialBoard (6, 4) (4, 4) "P" = Ret (gameBoard g')
        /\ isInCheck (gameBoard g') white = Ret false).
Proof.
  exact (X10_turn_passes_iff_move_is_legal initialGame (6, 4) (4, 4)
           eq_refl eq_refl eq_refl).
Defined.

(** X11.  After a legal move on a board of 8x8 piece letters, the checkmate
    dialog is scheduled exactly when the opponent is checkmated on the new
    board (in check with no legal move); otherwise no dialog is opened and
    the opponent is to move. *)
Theorem X11_dialog_iff_opponent_checkmated (g : game) (from to : square) :
  validBoard (gameBoard g) = true -> inBoard from = true -> inBoard to = true ->
  legalMove (gameBoard g) (currentPlayer g) from to ->
  exists g' al, applyMove g from to = Ret (g', al)
    /\ (al = [CheckmateAlert] /\ stateOf g' = Ret (CheckmateBy (currentPlayer g))
        \/ al = [] /\ stateOf g' = Ret (ToMove (opponentOf (currentPlayer g)))).
Proof.
  intros Hv Hf Ht Hlegal.
  destruct (applyMove_legal g from to Hv Hf Ht Hlegal)
    as (b' & oc & any & _ & _ & _ & Hoc & Hany & Happ).
  eexists; eexists. split; [exact Happ|].
  rewrite (stateOf_after_move b' _ None oc any Hoc Hany), opponentOf_involutive.
  destruct (oc && negb any); auto.
Qed.

Lemma X11_witness :
  exists g' al, applyMove (mkGame beforeMate black None) (0, 3) (4, 7) = Ret (g', al)
    /\ (al = [CheckmateAlert] /\ stateOf g' = Ret (CheckmateBy black)
        \/ al = [] /\ stateOf g' = Ret (ToMove white)).
Proof.
  apply (X11_dialog_iff_opponent_checkmated (mkGame beforeMate black None) (0, 3) (4, 7));
    try reflexivity.
  repeat split; try reflexivity.
  exists afterMate. split; vm_compute; reflexivity.
Defined.

(** X12.  The checkmate dialog names the wrong side.  Its text is built when
    the timer fires, from [currentPlayer] as it is then; by that time the
    handler has passed the turn, and no click made in between changes it
    again: after the click that detects checkmate, and after any further
    clicks, the colour the dialog announces as the winner is the opponent of
    the mover, that is the side that has just been mated. *)
Theorem X12_checkmate_dialog_names_the_mated_side
  (g : game) (to : square) (g' : game) (al : list alert) (clicks : list square) :
  validBoard (gameBoard g) = true -> inBoard to = true ->
  (forall s, selected g = Some s -> inBoard s = true) ->
  handleSquareClick g (fst to) (snd to) = Ret (g', al) ->
  announcesMate al = true ->
  Forall (fun sq => inBoard sq = true) clicks ->
  exists g'', playClicks g' clicks = Ret g''
    /\ checkmateAlertNames g'' = opponentOf (currentPlayer g)
    /\ stateOf g'' = Ret (CheckmateBy (currentPlayer g)).
Proof.
  intros Hv Ht Hsel Hclick Hmate Hall.
  pose proof (proj1 (proj1 (validBoard_cells _) Hv)) as Hb.
  destruct (handleSquareClick_cases g to Hb Ht Hsel) as (g1 & al1 & Hclick' & Hcases).
  rewrite Hclick in Hclick'. injection Hclick' as <- <-.
  destruct Hcases as [(from & b' & Hs & Hne & Hland & Hres & Hsim & Hchk & -> & Hal)
                     |(_ & _ & Hno & _)];
    [|congruence].
  destruct Hal as [(-> & Hoc & Hnone)| ->]; [|discriminate Hmate].
  assert (Hv' : validBoard b' = true)
    by (apply (simulateMove_valid _ _ from to Hv (Hsel from Hs) Ht Hsim)).
  set (opp := opponentOf (currentPlayer g)) in *.
  destruct (mated_clicks b' opp clicks Hv' Hnone Hall (mkGame b' opp None))
    as (g'' & Hplay & Hgb & Hcp & _).
  { now repeat split. }
  exists g''. split; [exact Hplay|]. split; [exact Hcp|].
  rewrite (stateOf_ext (mkGame b' opp None) g'' Hgb Hcp).
  rewrite (stateOf_after_move b' opp None true false Hoc Hnone).
  unfold opp. now rewrite opponentOf_involutive.
Qed.

Lemma X12_witness :
  exists g'', playClicks (mkGame afterMate white None) [(7, 4); (6, 5)] = Ret g''
    /\ checkmateAlertNames g'' = white
    /\ stateOf g'' = Ret (CheckmateBy black).
Proof.
  refine (X12_checkmate_dialog_names_the_mated_side
            (mkGame beforeMate black (Some (0, 3))) (4, 7)
            (mkGame afterMate white None) [CheckmateAlert] [(7, 4); (6, 5)]
            eq_refl eq_refl _ _ eq_refl _).
  - intros s [= <-]. reflexivity.
  - vm_compute. reflexivity.
  - repeat constructor.
Defined.

(** X13.  A side without a legal move stays on move for ever, in check or
    not: on a board of 8x8 piece letters where [hasAnyLegalMoves] is false
    for the side to move, every sequence of clicks returns with the board and
    the side to move unchanged.  If that side is not in check (stalemate) the
    status stays "to move": the program reports no draw. *)
Theorem X13_no_legal_move_freezes_the_game (g : game) (clicks : list square) :
  validBoard (gameBoard g) = true ->
  match selected g with
  | None => True
  | Some s => inBoard s = true
              /\ isColor (currentPlayer g) (cellAt (gameBoard g) s) = true
  end ->
  hasAnyLegalMoves (gameBoard g) (currentPlayer g) = Ret false ->
  Forall (fun sq => inBoard sq = true) clicks ->
  exists g', playClicks g clicks = Ret g'
    /\ gameBoard g' = gameBoard g
    /\ currentPlayer g' = currentPlayer g
    /\ (isInCheck (gameBoard g) (currentPlayer g) = Ret false ->
        stateOf g' = Ret (ToMove (currentPlayer g))).
Proof.
  intros Hv Hsel Hnone Hall.
  destruct (mated_clicks (gameBoard g) (currentPlayer g) clicks Hv Hnone Hall g)
    as (g' & Hplay & Hgb & Hcp & _).
  { now repeat split. }
  exists g'. repeat split; try assumption.
  intros Hchk. rewrite (stateOf_ext g g' Hgb Hcp).
  destruct g as [b cp sel]. cbn [gameBoard currentPlayer] in *.
  now rewrite (stateOf_after_move b cp sel false false Hchk Hnone).
Qed.

Lemma X13_witness :
  exists g', playClicks (mkGame stalemated black None) [(0, 0); (0, 1); (0, 0); (1, 1)]
             = Ret g'
    /\ gameBoard g' = stalemated
    /\ currentPlayer g' = black
    /\ (isInCheck stalemated black = Ret false -> stateOf g' = Ret (ToMove black)).
Proof.
  refine (X13_no_legal_move_freezes_the_game (mkGame stalemated black None)
            [(0, 0); (0, 1); (0, 0); (1, 1)] eq_refl I _ _).
  - vm_compute. reflexivity.
  - repeat constructor.
Defined.

(** X14.  The highlighted squares are the squares that work: on a board of
    8x8 piece letters, with a piece of the side to move selected, a click on
    a square of the board passes the turn exactly when that square is in the
    list [getPossibleMoves] returns for the selected square (the list
    [renderBoard] highlights). *)
Theorem X14_click_moves_iff_square_is_listed (g : game) (from to : square) :
  validBoard (gameBoard g) = true -> inBoard from = true -> inBoard to = true ->
  selected g = Some from ->
  isColor (currentPlayer g) (cellAt (gameBoard g) from) = true ->
  exists moves g' al,
    getPossibleMoves g (fst from) (snd from) = Ret moves
    /\ handleSquareClick g (fst to) (snd to) = Ret (g', al)
    /\ (In to moves <-> currentPlayer g' = opponentOf (currentPlayer g)).
Proof.
  intros Hv Hf Ht Hsel Hcol.
  pose proof (proj1 (proj1 (validBoard_cells _) Hv)) as Hb.
  destruct (getPossibleMoves_spec g from Hb Hf Hcol) as (moves & Hm & Hspec).
  destruct (handleSquareClick_cases g to Hb Ht) as (g' & al & Hclick & Hcases).
  { intros s Hs. rewrite Hsel in Hs. now injection Hs as <-. }
  exists moves, g', al. split; [exact Hm|]. split; [exact Hclick|].
  rewrite Hspec.
  destruct Hcases as [(from' & b' & Hs & Hne & Hland & Hres & Hsim & Hchk & -> & _)
                     |(_ & Hcp & _ & _ & Hno)].
  - rewrite Hsel in Hs. injection Hs as <-. cbn [currentPlayer].
    split; [reflexivity|]. intros _. split; [exact Ht|].
    apply (clickAccepts_legal _ _ _ _ Hv Ht). repeat split; try assumption.
    now exists b'.
  - split.
    + intros [_ Hlegal]. exfalso.
      apply (clickAccepts_legal _ _ _ _ Hv Ht) in Hlegal
        as (_ & Hne & Hland & Hres & Hsafe).
      exact (Hno from Hsel Hne Hland Hres Hsafe).
    + rewrite Hcp. intros E. now destruct (currentPlayer g).
Qed.

Lemma X14_witness :
  exists moves g' al,
    getPossibleMoves (mkGame initialBoard white (Some (7, 1))) 7 1 = Ret moves
    /\ handleSquareClick (mkGame initialBoard white (Some (7, 1))) 5 2 = Ret (g', al)
    /\ (In (5, 2) moves <-> currentPlayer g' = black).
Proof.
  exact (X14_click_moves_iff_square_is_listed
           (mkGame initialBoard white (Some (7, 1))) (7, 1) (5, 2)
           eq_refl eq_refl eq_refl eq_refl eq_refl).
Defined.

(** X15.  [hasAnyLegalMoves] agrees with [getPossibleMoves]: on an 8x8 board
    it returns true for the side to move exactly when some square of the
    board holding a piece of that side has a non-empty list of possible
    moves. *)
Theorem X15_some_move_iff_some_list_non_empty (g : game) :
  shape8 (gameBoard g) = true ->
  exists v, hasAnyLegalMoves (gameBoard g) (currentPlayer g) = Ret v
    /\ (v = true <->
        exists from moves,
          inBoard from = true
          /\ isColor (currentPlayer g) (cellAt (gameBoard g) from) = true
          /\ getPossibleMoves g (fst from) (snd from) = Ret moves
          /\ moves <> []).
Proof.
  intros Hb.
  destruct (hasAnyLegalMoves_spec (gameBoard g) (currentPlayer g) Hb) as (v & Hv & Hiff).
  exists v. split; [exact Hv|]. rewrite Hiff. split.
  - intros (from & to & Hf & Ht & Hlegal).
    pose proof Hlegal as (Hcol & _).
    destruct (getPossibleMoves_spec g from Hb Hf Hcol) as (moves & Hm & Hspec).
    exists from, moves. repeat split; try assumption.
    intros ->. now apply (Hspec to).
  - intros (from & moves & Hf & Hcol & Hm & Hne).
    destruct (getPossibleMoves_spec g from Hb Hf Hcol) as (moves' & Hm' & Hspec).
    rewrite Hm in Hm'. injection Hm' as <-.
    destruct moves as [|to moves]; [now destruct Hne|].
    destruct (proj1 (Hspec to) (or_introl eq_refl)) as [Ht Hlegal].
    now exists from, to.
Qed.

Lemma X15_witness :
  exists v, hasAnyLegalMoves stalemated black = Ret v
    /\ (v = true <->
        exists from moves,
          inBoard from = true
          /\ isColor black (cellAt stalemated from) = true
          /\ getPossibleMoves (mkGame stalemated black None) (fst from) (snd from)
             = Ret moves
          /\ moves <> []).
Proof.
  exact (X15_some_move_iff_some_list_non_empty (mkGame stalemated black None) eq_refl).
Defined.

(** X16.  A click never opens a dialog or changes the board or the turn
    unless a piece is selected: on an 8x8 board, with nothing selected, a
    click on a square of the board selects it if it holds a piece of the side
    to move and does nothing otherwise; with a square selected, a click on
    that same square clears the selection. *)
Theorem X16_selecting_and_deselecting (g : game) (sq : square) :
  shape8 (gameBoard g) = true -> inBoard sq = true ->
  (selected g = None ->
   handleSquareClick g (fst sq) (snd sq)
   = Ret (mkGame (gameBoard g) (currentPlayer g)
            (if isColor (currentPlayer g) (cellAt (gameBoard g) sq)
             then Some sq else None), []))
  /\ (selected g = Some sq ->
      handleSquareClick g (fst sq) (snd sq)
      = Ret (mkGame (gameBoard g) (currentPlayer g) None, [])).
Proof.
  intros Hb Hin. split; intros Hsel.
  - rewrite (click_select g sq Hb Hin Hsel).
    destruct (isColor _ _); [reflexivity|]. destruct g. cbn in *. now subst.
  - destruct sq as [row col]. cbn [fst snd]. unfold handleSquareClick.
    rewrite (boardGet_in _ row col Hb Hin), Hsel. cbn [bind].
    now rewrite !Z.eqb_refl.
Qed.

Lemma X16_witness :
  handleSquareClick initialGame 1 0 = Ret (mkGame initialBoard white None, [])
  /\ handleSquareClick (mkGame initialBoard white (Some (6, 0))) 6 0
     = Ret (mkGame initialBoard white None, []).
Proof.
  split.
  - exact (proj1 (X16_selecting_and_deselecting initialGame (1, 0) eq_refl eq_refl)
             eq_refl).
  - exact (proj2 (X16_selecting_and_deselecting
                    (mkGame initialBoard white (Some (6, 0))) (6, 0) eq_refl eq_refl)
             eq_refl).
Defined.

(* ================================================================== *)
(** ** What every click keeps *)

Lemma pseudoLegal_attack (b : board) (from to : square) (piece : string) :
  pseudoLegal b from to piece false = true -> pseudoLegal b from to piece true = true.
Proof.
  unfold pseudoLegal.
  destruct (piece =? "P")%string; [apply pawnRule_attack|].
  destruct (piece =? "p")%string; [apply pawnRule_attack|]. trivial.
Qed.

Lemma isColor_other_king (cp : color) : isColor cp (kingOf (opponentOf cp)) = false.
Proof. now destruct cp. Qed.

(** A move onto the square of the opponent's first king is possible only if
    the opponent is in check. *)
Lemma king_capture_needs_check (b : board) (cp : color) (from k : square) :
  shape8 b = true -> inBoard from = true ->
  isColor cp (cellAt b from) = true ->
  findKing b (opponentOf cp) = Ret (Some k) ->
  result (isLegalMove from k (cellAt b from) b false) = Ret true ->
  isInCheck b (opponentOf cp) = Ret true.
Proof.
  intros Hb Hf Hcol Hfind Hres.
  destruct (findKing_spec b (opponentOf cp) Hb) as (o & Ho & Hspec).
  rewrite Hfind in Ho. injection Ho as <-. destruct Hspec as (Hk & Hking & _).
  assert (Hne : from <> k).
  { intros ->. rewrite Hking, isColor_other_king in Hcol. discriminate Hcol. }
  destruct (isLegalMove_yields b from k (cellAt b from) false Hb Hf Hk (or_introl Hne))
    as [Hy _].
  rewrite Hy in Hres. injection Hres as Hpl.
  unfold isInCheck. rewrite Hfind. cbn [bind]. destruct k as [kr kc].
  destruct (isSquareAttacked_spec b kr kc (opponentOf (opponentOf cp)) Hb Hk
              (king_not_bishop b (opponentOf cp) _ _ Hking)) as (v & -> & Hiff).
  f_equal. apply Hiff. exists from. rewrite opponentOf_involutive.
  repeat split; try assumption. now apply pseudoLegal_attack.
Qed.

Lemma move_keeps_kings (b b' : board) (cp c : color) (from to : square) :
  validBoard b = true -> inBoard from = true -> inBoard to = true ->
  isColor cp (cellAt b from) = true ->
  legalMove b cp from to ->
  simulateMove b from to (cellAt b from) = Ret b' ->
  isInCheck b (opponentOf cp) = Ret false ->
  hasKing b c -> hasKing b' c.
Proof.
  intros Hv Hf Ht Hcol Hlegal Hsim Hnochk (k & Hk & Hking).
  pose proof (proj1 (proj1 (validBoard_cells _) Hv)) as Hb.
  destruct (simulateMove_spec b from to (cellAt b from) Hb Hf Ht)
    as (b'' & Hsim' & _ & Hcells).
  rewrite Hsim in Hsim'. injection Hsim' as <-.
  pose proof (legalMove_distinct _ _ _ _ Hlegal) as Hne.
  destruct Hlegal as (_ & Hown & Hres & _).
  assert (Hstay : forall s, inBoard s = true -> s <> from -> s <> to ->
                            cellAt b' s = cellAt b s).
  { intros s Hs H1 H2. rewrite (Hcells s Hs).
    replace (square_eqb s from) with false
      by (symmetry; apply not_true_is_false; intros E; apply square_eqb_eq in E; congruence).
    replace (square_eqb s to) with false
      by (symmetry; apply not_true_is_false; intros E; apply square_eqb_eq in E; congruence).
    reflexivity. }
  assert (Hto : cellAt b' to = cellAt b from).
  { rewrite (Hcells to Ht).
    replace (square_eqb to from) with false
      by (symmetry; apply not_true_is_false; intros E; apply square_eqb_eq in E; congruence).
    now rewrite (proj2 (square_eqb_eq to to) eq_refl). }
  destruct (color_eqb c cp) eqn:Ec.
  - (* a king of the mover *)
    assert (c = cp) by (destruct c, cp; (reflexivity || discriminate Ec)). subst c.
    destruct (square_eqb k from) eqn:E1.
    + apply square_eqb_eq in E1. subst k. exists to. split; [exact Ht|]. congruence.
    + destruct (square_eqb k to) eqn:E2.
      * apply square_eqb_eq in E2. subst k. rewrite Hking in Hown.
        now destruct cp.
      * exists k. split; [exact Hk|]. rewrite Hstay; try assumption.
        -- intros E. apply square_eqb_eq in E. congruence.
        -- intros E. apply square_eqb_eq in E. congruence.
  - (* a king of the opponent: its first king stays where it is *)
    assert (c = opponentOf cp) by (destruct c, cp; (reflexivity || discriminate Ec)).
    subst c. destruct (findKing_spec b (opponentOf cp) Hb) as (o & Hfind & Hspec).
    destruct o as [k1|]; [|now destruct (Hspec k Hk)].
    destruct Hspec as (Hk1 & Hking1 & _).
    exists k1. split; [exact Hk1|]. rewrite Hstay; try assumption.
    + intros ->. rewrite Hking1, isColor_other_king in Hcol. discriminate Hcol.
    + intros ->.
      pose proof (king_capture_needs_check b cp from to Hb Hf Hcol Hfind Hres) as Hc.
      congruence.
Qed.

Lemma click_keeps_wellFormed (g : game) (to : square) :
  wellFormedGame g -> inBoard to = true ->
  exists g' al, handleSquareClick g (fst to) (snd to) = Ret (g', al)
                /\ wellFormedGame g'.
Proof.
  intros (Hv & Hkw & Hkb & Hsel & Hchk) Ht.
  pose proof (proj1 (proj1 (validBoard_cells _) Hv)) as Hb.
  destruct (handleSquareClick_cases g to Hb Ht) as (g' & al & Hclick & Hcases).
  { intros s Hs. rewrite Hs in Hsel. tauto. }
  exists g', al. split; [exact Hclick|].
  destruct Hcases as [(from & b' & Hs & Hne & Hland & Hres & Hsim & Hsafe & -> & _)
                     |(Hgb & Hcp & _ & Hsel' & _)].
  - rewrite Hs in Hsel. destruct Hsel as [Hf Hcol].
    assert (Hlegal : legalMove (gameBoard g) (currentPlayer g) from to).
    { apply (clickAccepts_legal _ _ _ _ Hv Ht). repeat split; try assumption.
      now exists b'. }
    unfold wellFormedGame. cbn [gameBoard currentPlayer selected].
    rewrite opponentOf_involutive. repeat split.
    + exact (simulateMove_valid _ _ _ _ Hv Hf Ht Hsim).
    + exact (move_keeps_kings _ _ _ white _ _ Hv Hf Ht Hcol Hlegal Hsim Hchk Hkw).
    + exact (move_keeps_kings _ _ _ black _ _ Hv Hf Ht Hcol Hlegal Hsim Hchk Hkb).
    + exact Hsafe.
  - unfold wellFormedGame. rewrite Hgb, Hcp. repeat split; try assumption.
    destruct Hsel' as [-> | [-> Hcol]]; auto.
Qed.

(** X17.  From the initial position, or from any game that satisfies the
    same conditions, no sequence of clicks on squares of the board ever
    throws, and after it the board is still 8x8 with piece letters only, each
    colour still has a king on the board (a king is never captured), the
    selection, if any, is a piece of the side to move, and the side that has
    just moved is not in check. *)
Theorem X17_clicks_keep_the_game_well_formed (g : game) (clicks : list square) :
  wellFormedGame g ->
  Forall (fun sq => inBoard sq = true) clicks ->
  exists g', playClicks g clicks = Ret g' /\ wellFormedGame g'.
Proof.
  intros Hg Hall. revert g Hg.
  induction Hall as [|[row col] clicks Hin _ IH]; intros g Hg.
  - exists g. now split.
  - cbn [playClicks].
    destruct (click_keeps_wellFormed g (row, col) Hg Hin) as (g1 & al & Hclick & Hg1).
    cbn [fst snd] in Hclick. rewrite Hclick. cbn [bind fst]. now apply IH.
Qed.

Lemma initialGame_wellFormed : wellFormedGame initialGame.
Proof.
  unfold wellFormedGame, initialGame. cbn [gameBoard currentPlayer selected].
  repeat split.
  - exists (7, 4). split; reflexivity.
  - exists (0, 4). split; reflexivity.
Qed.

Lemma X17_witness :
  exists g', playClicks initialGame [(6, 4); (4, 4); (1, 4); (3, 4); (7, 6); (5, 5)]
             = Ret g'
             /\ wellFormedGame g'.
Proof.
  apply X17_clicks_keep_the_game_well_formed.
  - unfold wellFormedGame, initialGame. cbn [gameBoard currentPlayer selected].
    split; [reflexivity|]. split; [exists (7, 4); split; reflexivity|].
    split; [exists (0, 4); split; reflexivity|]. split; [exact I | reflexivity].
  - repeat constructor.
Defined.

Example scenario_stalemate_goes_unnoticed :
  isInCheck stalemated black = Ret false
  /\ hasAnyLegalMoves stalemated black = Ret false
  /\ stateOf (mkGame stalemated black None) = Ret (ToMove black).
Proof. vm_compute. auto. Qed.

(** The oracle reports e4, straight ahead of the pawn, as attacked while it
    is empty; the king may step on it all the same, because the check
    detector asks about the king's square once the king stands on it. *)
Example scenario_king_steps_before_a_pawn :
  isSquareAttacked kingBeforePawn 4 4 black = Ret true
  /\ match applyMove (mkGame kingBeforePawn white None) (5, 3) (4, 4) with
     | Ret (g', al) => currentPlayer g' = black /\ cellAt (gameBoard g') (4, 4) = "K"
     | _ => False
     end.
Proof. vm_compute. auto. Qed.

(* ================================================================== *)
(** ** Patterns of the sliding pieces and colours of the squares *)

(** X18.  On an 8x8 board and for distinct squares of the board, a rook is
    only ever moved along its row or its column and a bishop only along a
    diagonal, and the queen is moved exactly where a rook or a bishop would
    be: the evaluator accepts ['q'] (or ['Q']) exactly when it accepts ['r']
    or ['b'] between the same squares. *)
Theorem X18_queen_is_rook_or_bishop
  (b : board) (from to : square) (am : bool) :
  shape8 b = true -> inBoard from = true -> inBoard to = true -> from <> to ->
  (forall piece, In piece ["r"; "R"] ->
     result (isLegalMove from to piece b am) = Ret true ->
     fst from = fst to \/ snd from = snd to)
  /\ (forall piece, In piece ["b"; "B"] ->
       result (isLegalMove from to piece b am) = Ret true ->
       Z.abs (fst from - fst to) = Z.abs (snd from - snd to))
  /\ (forall piece, In piece ["q"; "Q"] ->
       (result (isLegalMove from to piece b am) = Ret true <->
        result (isLegalMove from to "r" b am) = Ret true
        \/ result (isLegalMove from to "b" b am) = Ret true)).
Proof.
  intros Hb Hf Ht Hne.
  assert (Hy : forall piece, result (isLegalMove from to piece b am)
                             = Ret (pseudoLegal b from to piece am)).
  { intros piece.
    now destruct (isLegalMove_yields b from to piece am Hb Hf Ht (or_introl Hne)). }
  split; [|split]; intros piece Hp; rewrite !Hy; cbn [In] in Hp.
  - intros [= H]. revert H.
    assert (E : pseudoLegal b from to piece am = sameLine from to && clearPath b from to)
      by (destruct Hp as [<-|[<-|[]]]; reflexivity).
    rewrite E. unfold sameLine. intros H. apply andb_true_iff in H as [H _].
    apply orb_true_iff in H. now rewrite !Z.eqb_eq in H.
  - intros [= H]. revert H.
    assert (E : pseudoLegal b from to piece am
                = sameDiagonal from to && clearPath b from to)
      by (destruct Hp as [<-|[<-|[]]]; reflexivity).
    rewrite E. unfold sameDiagonal. intros H. apply andb_true_iff in H as [H _].
    now apply Z.eqb_eq in H.
  - assert (E : pseudoLegal b from to piece am
                = (sameLine from to || sameDiagonal from to) && clearPath b from to)
      by (destruct Hp as [<-|[<-|[]]]; reflexivity).
    rewrite E.
    change (pseudoLegal b from to "r" am) with (sameLine from to && clearPath b from to).
    change (pseudoLegal b from to "b" am)
      with (sameDiagonal from to && clearPath b from to).
    destruct (sameLine from to), (sameDiagonal from to), (clearPath b from to);
      cbn [andb orb]; split; auto; intros [H|H]; auto.
Qed.

Lemma X18_witness :
  result (isLegalMove (4, 3) (2, 5) "Q" initialBoard false) = Ret true <->
  result (isLegalMove (4, 3) (2, 5) "r" initialBoard false) = Ret true
  \/ result (isLegalMove (4, 3) (2, 5) "b" initialBoard false) = Ret true.
Proof.
  refine (proj2 (proj2 (X18_queen_is_rook_or_bishop initialBoard (4, 3) (2, 5) false
                          eq_refl eq_refl eq_refl _)) "Q" _).
  - discriminate.
  - cbn [In]. auto.
Defined.

(** X19.  Bishops keep the colour of their square and knights change it: on
    an 8x8 board, when the evaluator accepts a bishop's move between two
    squares of the board, both are light or both are dark as [renderBoard]
    colours them ([(row + col) % 2]); when it accepts a knight's move, one
    is light and the other dark. *)
Theorem X19_bishops_keep_and_knights_change_square_colour
  (b : board) (from to : square) (piece : string) (am : bool) :
  shape8 b = true -> inBoard from = true -> inBoard to = true -> from <> to ->
  result (isLegalMove from to piece b am) = Ret true ->
  (In piece ["b"; "B"] -> isLight to = isLight from)
  /\ (In piece ["n"; "N"] -> isLight to = negb (isLight from)).
Proof.
  intros Hb Hf Ht Hne Hres.
  destruct (isLegalMove_yields b from to piece am Hb Hf Ht (or_introl Hne)) as [Hy _].
  rewrite Hy in Hres. injection Hres as Hpl.
  destruct from as [fr fc], to as [tr tc]. unfold isLight. cbn [fst snd].
  split; intros Hp; cbn [In] in Hp.
  - assert (E : pseudoLegal b (fr, fc) (tr, tc) piece am
                = sameDiagonal (fr, fc) (tr, tc) && clearPath b (fr, fc) (tr, tc))
      by (destruct Hp as [<-|[<-|[]]]; reflexivity).
    rewrite E in Hpl. apply andb_true_iff in Hpl as [Hd _].
    unfold sameDiagonal in Hd. cbn [fst snd] in Hd. apply Z.eqb_eq in Hd.
    assert (Hs : tr + tc = fr + fc - 2 * (fr - tr) \/ tr + tc = fr + fc) by lia.
    assert (Hm : (tr + tc) mod 2 = (fr + fc) mod 2)
      by (destruct Hs as [-> | ->]; Z.div_mod_to_equations; lia).
    now rewrite Hm.
  - assert (E : pseudoLegal b (fr, fc) (tr, tc) piece am = knightJump (fr, fc) (tr, tc))
      by (destruct Hp as [<-|[<-|[]]]; reflexivity).
    rewrite E in Hpl. unfold knightJump in Hpl.
    apply orb_true_iff in Hpl. rewrite !andb_true_iff, !Z.eqb_eq in Hpl.
    assert (Hs : tr + tc = fr + fc - 3 \/ tr + tc = fr + fc - 1
                 \/ tr + tc = fr + fc + 1 \/ tr + tc = fr + fc + 3) by lia.
    assert (Hm : (tr + tc) mod 2 = 1 - (fr + fc) mod 2)
      by (destruct Hs as [-> | [-> | [-> | ->]]]; Z.div_mod_to_equations; lia).
    rewrite Hm. pose proof (Z.mod_pos_bound (fr + fc) 2 ltac:(lia)) as Hbd.
    destruct (Z.eq_dec ((fr + fc) mod 2) 0) as [E0|E0].
    + now rewrite E0.
    + assert (E1 : (fr + fc) mod 2 = 1) by lia. now rewrite E1.
Qed.

Lemma X19_witness :
  (In "N" ["b"; "B"] -> isLight (5, 2) = isLight (7, 1))
  /\ (In "N" ["n"; "N"] -> isLight (5, 2) = negb (isLight (7, 1))).
Proof.
  refine (X19_bishops_keep_and_knights_change_square_colour
            initialBoard (7, 1) (5, 2) "N" false eq_refl eq_refl eq_refl _ eq_refl).
  discriminate.
Defined.
